(** * core-2d: the collision pipeline of the 2D rigid-body library

    A shallow embedding of [Vector2], [PhysicsBody], [SpatialGrid] and
    [World] (TypeScript), and the properties of the broad phase, the narrow
    phase, the impulse resolver and the sleep state machine.

    JavaScript numbers are IEEE 754 binary64 values: they are modelled by
    Rocq's primitive [float]s, whose operations are the same roundings.
    Objects live in a store indexed by references; a method takes the
    reference of its receiver ([this]) and runs in a state monad that also
    records a thrown [TypeError] or an exhausted loop bound. *)

From Stdlib Require Import ZArith Lia List Bool.
From Stdlib Require Import Floats.
From stdpp Require Import base list.
Import ListNotations.

Set Warnings "-inexact-float".
Local Open Scope float_scope.

(** ** JavaScript numbers *)

Module Num.

(** The integer [q >= 0] as a number; exact for [q < 2^53]. *)
Definition of_Z (q : Z) : float := of_uint63 (Uint63.of_Z q).

(** [Math.floor].  A finite number is [(-1)^s * m * 2^e]; with [e >= 0] it
    is an integer already, otherwise the mantissa is shifted right and a
    negative inexact quotient is moved one further down.  NaN, the zeros
    and the infinities are returned unchanged. *)
Definition floor (x : float) : float :=
  match Prim2SF x with
  | S754_finite s m e =>
      if (0 <=? e)%Z then x
      else
        let q := Z.shiftr (Z.pos m) (- e) in
        if (Z.shiftl q (- e) =? Z.pos m)%Z then x
        else if s then - of_Z (q + 1) else of_Z q
  | _ => x
  end.

(** [Math.max] and [Math.min]: NaN if an argument is NaN, and [-0] is
    smaller than [+0]. *)
Definition max (a b : float) : float :=
  if is_nan a || is_nan b then nan
  else if a <? b then b
  else if b <? a then a
  else if get_sign a then b else a.

Definition min (a b : float) : float :=
  if is_nan a || is_nan b then nan
  else if a <? b then a
  else if b <? a then b
  else if get_sign a then a else b.

(** [Math.pow(x, 2)], taken as the correctly rounded square. *)
Definition pow2 (x : float) : float := x * x.

(** The array index a number denotes as a property key: a non-negative
    integer value, [None] for every other number (the property is then
    [undefined]). *)
Definition to_index (x : float) : option nat :=
  match Prim2SF x with
  | S754_zero _ => Some 0%nat
  | S754_finite false m e =>
      if (0 <=? e)%Z then Some (Z.to_nat (Z.shiftl (Z.pos m) e))
      else
        let q := Z.shiftr (Z.pos m) (- e) in
        if (Z.shiftl q (- e) =? Z.pos m)%Z then Some (Z.to_nat q) else None
  | _ => None
  end.

End Num.

(** ** Value records *)

Record Vector2 : Type := mkVector2 { x : float; y : float }.

Module Vector2.
Definition dot (this normal : Vector2) : float :=
  x this * x normal + y this * y normal.

Definition length (this : Vector2) : float :=
  sqrt (x this * x this + y this * y this).

(** [normalize] mutates the receiver; here it returns the new value. *)
Definition normalize (this : Vector2) : Vector2 :=
  let length := length this in
  mkVector2 (x this / length) (y this / length).
End Vector2.

(** Modelled from the spec: the base class [Shape], whose file is not among
    the sources ("polymorphic over variants; only [Circle{radius: float}]
    exists").  [Circle] is the subclass of the sources; [OtherShape] stands
    for any instance that is not a [Circle]. *)
Inductive Shape : Type :=
| Circle (radius : float)
| OtherShape.

Record AABB : Type := mkAABB { min : Vector2; max : Vector2 }.

(** References to the objects of the three classes. *)
Definition bref := nat.
Definition gref := nat.
Definition wref := nat.

Record Pair : Type := mkPair { pairA : bref; pairB : bref }.

Record Contact : Type := mkContact {
  bodyA : bref;
  bodyB : bref;
  normal : Vector2;
  penetration : float;
  point : Vector2
}.

(** ** PhysicsBody *)

Definition SLEEP_TIME_THRESHOLD : float := 1.
Definition SLEEP_VELOCITY_THRESHOLD : float := 0.01.

Record PhysicsBody : Type := mkPhysicsBody {
  id : float;
  position : Vector2;
  velocity : Vector2;
  world : option wref;            (* [world!: World], undefined until bound *)
  _isSleeping : bool;
  _idleTime : float;
  _mass : float;
  _invMass : float;
  shape : Shape;
  friction : float;
  restitution : float;
  linearDrag : float;
  isStatic : bool;
  isSensor : bool;
  aabb : AABB;
  isInGrid : bool;
  _internalLastPairId : float
}.

Definition set_position (v : Vector2) (b : PhysicsBody) : PhysicsBody :=
  mkPhysicsBody (id b) v (velocity b) (world b) (_isSleeping b) (_idleTime b)
    (_mass b) (_invMass b) (shape b) (friction b) (restitution b)
    (linearDrag b) (isStatic b) (isSensor b) (aabb b) (isInGrid b)
    (_internalLastPairId b).

Definition set_velocity (v : Vector2) (b : PhysicsBody) : PhysicsBody :=
  mkPhysicsBody (id b) (position b) v (world b) (_isSleeping b) (_idleTime b)
    (_mass b) (_invMass b) (shape b) (friction b) (restitution b)
    (linearDrag b) (isStatic b) (isSensor b) (aabb b) (isInGrid b)
    (_internalLastPairId b).

Definition set_world (w : option wref) (b : PhysicsBody) : PhysicsBody :=
  mkPhysicsBody (id b) (position b) (velocity b) w (_isSleeping b)
    (_idleTime b) (_mass b) (_invMass b) (shape b) (friction b)
    (restitution b) (linearDrag b) (isStatic b) (isSensor b) (aabb b)
    (isInGrid b) (_internalLastPairId b).

Definition set_isSleeping (v : bool) (b : PhysicsBody) : PhysicsBody :=
  mkPhysicsBody (id b) (position b) (velocity b) (world b) v (_idleTime b)
    (_mass b) (_invMass b) (shape b) (friction b) (restitution b)
    (linearDrag b) (isStatic b) (isSensor b) (aabb b) (isInGrid b)
    (_internalLastPairId b).

Definition set_idleTime (v : float) (b : PhysicsBody) : PhysicsBody :=
  mkPhysicsBody (id b) (position b) (velocity b) (world b) (_isSleeping b) v
    (_mass b) (_invMass b) (shape b) (friction b) (restitution b)
    (linearDrag b) (isStatic b) (isSensor b) (aabb b) (isInGrid b)
    (_internalLastPairId b).

(** The [mass] setter writes [_mass] and [_invMass] together. *)
Definition set_mass (v : float) (b : PhysicsBody) : PhysicsBody :=
  mkPhysicsBody (id b) (position b) (velocity b) (world b) (_isSleeping b)
    (_idleTime b) v (1 / v) (shape b) (friction b) (restitution b)
    (linearDrag b) (isStatic b) (isSensor b) (aabb b) (isInGrid b)
    (_internalLastPairId b).

Definition set_aabb (v : AABB) (b : PhysicsBody) : PhysicsBody :=
  mkPhysicsBody (id b) (position b) (velocity b) (world b) (_isSleeping b)
    (_idleTime b) (_mass b) (_invMass b) (shape b) (friction b)
    (restitution b) (linearDrag b) (isStatic b) (isSensor b) v (isInGrid b)
    (_internalLastPairId b).

Definition set_isInGrid (v : bool) (b : PhysicsBody) : PhysicsBody :=
  mkPhysicsBody (id b) (position b) (velocity b) (world b) (_isSleeping b)
    (_idleTime b) (_mass b) (_invMass b) (shape b) (friction b)
    (restitution b) (linearDrag b) (isStatic b) (isSensor b) (aabb b) v
    (_internalLastPairId b).

Definition set_internalLastPairId (v : float) (b : PhysicsBody)
  : PhysicsBody :=
  mkPhysicsBody (id b) (position b) (velocity b) (world b) (_isSleeping b)
    (_idleTime b) (_mass b) (_invMass b) (shape b) (friction b)
    (restitution b) (linearDrag b) (isStatic b) (isSensor b) (aabb b)
    (isInGrid b) v.

(** [new PhysicsBody(id, mass, shape)] with the field initialisers. *)
Definition new_PhysicsBody (id mass : float) (shape : Shape) : PhysicsBody :=
  mkPhysicsBody id (mkVector2 0 0) (mkVector2 0 0) None false 0
    mass (1 / mass) shape 0.1 0.5 0.1 false false
    (mkAABB (mkVector2 0 0) (mkVector2 0 0)) false (-1).

(** ** SpatialGrid and World objects *)

(** A [Set<PhysicsBody>] keeps insertion order: a list of references
    without repetition.  [add] appends a new element, [delete] erases it. *)
Definition RefSet := list bref.

Definition set_has (r : bref) (s : RefSet) : bool :=
  existsb (Nat.eqb r) s.

Definition set_add (r : bref) (s : RefSet) : RefSet :=
  if set_has r s then s else s ++ [r].

Definition set_delete (r : bref) (s : RefSet) : RefSet :=
  filter (fun r' => r' ≠ r) s.

Record SpatialGrid : Type := mkSpatialGrid {
  width : float;
  height : float;
  cellSize : float;
  partitions : list RefSet
}.

Definition set_partitions (p : list RefSet) (g : SpatialGrid) : SpatialGrid :=
  mkSpatialGrid (width g) (height g) (cellSize g) p.

Record World : Type := mkWorld {
  bodies : RefSet;
  grid : gref;
  _collisionPairs : list Pair;
  _contacts : list Contact;
  gravity : Vector2
}.

Definition set_bodies (v : RefSet) (w : World) : World :=
  mkWorld v (grid w) (_collisionPairs w) (_contacts w) (gravity w).

Definition set_collisionPairs (v : list Pair) (w : World) : World :=
  mkWorld (bodies w) (grid w) v (_contacts w) (gravity w).

Definition set_contacts (v : list Contact) (w : World) : World :=
  mkWorld (bodies w) (grid w) (_collisionPairs w) v (gravity w).

Definition set_gravity (v : Vector2) (w : World) : World :=
  mkWorld (bodies w) (grid w) (_collisionPairs w) (_contacts w) v.

(** ** The store and the monad of methods *)

(** The objects of the three classes, by reference.  A reference of
    JavaScript is never dangling, so the store is total; the objects that a
    program has created are finitely many of them. *)
Record State : Type := mkState {
  body : bref -> PhysicsBody;
  grids : gref -> SpatialGrid;
  worlds : wref -> World
}.

Definition upd {A : Type} (f : nat -> A) (r : nat) (a : A) : nat -> A :=
  fun r' => if Nat.eqb r' r then a else f r'.

(** The outcome of a method: a normal return, a [TypeError] thrown, or too
    many iterations for the bound of the model. *)
Inductive Res (A : Type) : Type :=
| Ok (a : A)
| TypeError       (* a property of [undefined] was accessed *)
| OutOfFuel.      (* the bound on loop iterations was reached *)
Arguments Ok {A} a.
Arguments TypeError {A}.
Arguments OutOfFuel {A}.

(** A method runs on the store; the store it leaves is there on a throw as
    well, with the effects that came before it. *)
Definition M (A : Type) : Type := State -> Res A * State.

Definition ret {A : Type} (a : A) : M A := fun s => (Ok a, s).

Definition bind {A B : Type} (m : M A) (k : A -> M B) : M B :=
  fun s =>
    match m s with
    | (Ok a, s') => k a s'
    | (TypeError, s') => (TypeError, s')
    | (OutOfFuel, s') => (OutOfFuel, s')
    end.

Definition throw {A : Type} : M A := fun s => (TypeError, s).

Declare Scope js_scope.
Delimit Scope js_scope with js.
Notation "'let*' x := m 'in' k" := (bind m (fun x => k))
  (at level 10, x name, m at level 100, k at level 200) : js_scope.
Notation "m ;; k" := (bind m (fun _ => k))
  (at level 100, k at level 200, right associativity) : js_scope.
Local Open Scope js_scope.

Definition getBody (r : bref) : M PhysicsBody := fun s => (Ok (body s r), s).
Definition getGrid (r : gref) : M SpatialGrid := fun s => (Ok (grids s r), s).
Definition getWorld (r : wref) : M World := fun s => (Ok (worlds s r), s).

Definition modBody (r : bref) (f : PhysicsBody -> PhysicsBody) : M unit :=
  fun s => (Ok tt, mkState (upd (body s) r (f (body s r))) (grids s) (worlds s)).

Definition modGrid (r : gref) (f : SpatialGrid -> SpatialGrid) : M unit :=
  fun s => (Ok tt, mkState (body s) (upd (grids s) r (f (grids s r))) (worlds s)).

Definition modWorld (r : wref) (f : World -> World) : M unit :=
  fun s => (Ok tt, mkState (body s) (grids s) (upd (worlds s) r (f (worlds s r)))).

(** [for (const x of l) f(x)] over an array or a set that the loop body
    does not change. *)
Fixpoint forEach {A : Type} (l : list A) (f : A -> M unit) : M unit :=
  match l with
  | [] => ret tt
  | a :: l' => f a ;; forEach l' f
  end.

(** A loop that carries a local variable (an output array and its count). *)
Fixpoint foldM {A B : Type} (l : list A) (f : B -> A -> M B) (b : B) : M B :=
  match l with
  | [] => ret b
  | a :: l' => let* b' := f b a in foldM l' f b'
  end.

(** [for (const x of set)] while the loop body may delete elements of
    [set]: the iterator walks the entries in insertion order and skips an
    entry that was deleted before it is reached.  [snapshot] is the set
    when the loop starts, [live] reads it again at every step. *)
Fixpoint forEachLive {B : Type} (snapshot : RefSet) (live : M RefSet)
    (f : B -> bref -> M B) (b : B) : M B :=
  match snapshot with
  | [] => ret b
  | a :: l' =>
      let* cur := live in
      let* b' := (if set_has a cur then f b a else ret b) in
      forEachLive l' live f b'
  end.

(** ** PhysicsBody methods *)

Module PhysicsBody.

Definition applyForce (this : bref) (force : Vector2) : M unit :=
  let* b := getBody this in
  if isStatic b then ret tt
  else
    modBody this (fun b =>
      set_velocity (mkVector2 (x (velocity b) + x force * _invMass b)
                              (y (velocity b))) b) ;;
    modBody this (fun b =>
      set_velocity (mkVector2 (x (velocity b))
                              (y (velocity b) + y force * _invMass b)) b).

Definition sleepTick (this : bref) (dt : float) : M unit :=
  let* b := getBody this in
  (if x (velocity b) * x (velocity b) + y (velocity b) * y (velocity b)
        <? SLEEP_VELOCITY_THRESHOLD
   then modBody this (fun b => set_idleTime (_idleTime b + dt) b)
   else modBody this (set_idleTime 0)) ;;
  let* b := getBody this in
  if SLEEP_TIME_THRESHOLD <? _idleTime b
  then modBody this (set_isSleeping true)
  else ret tt.

Definition wakeUp (this : bref) : M unit :=
  modBody this (set_isSleeping false).

(** [this.world.gravity]: a [TypeError] when [world] is undefined. *)
Definition worldGravity (this : bref) : M Vector2 :=
  let* b := getBody this in
  match world b with
  | Some w => let* w := getWorld w in ret (gravity w)
  | None => throw
  end.

(** The statements of [integrate] after the two early returns. *)
Definition advance (this : bref) (dt : float) : M unit :=
  (* Apply linear drag. *)
  modBody this (fun b =>
    set_velocity (mkVector2 (x (velocity b) * (1 - linearDrag b * dt))
                            (y (velocity b))) b) ;;
  modBody this (fun b =>
    set_velocity (mkVector2 (x (velocity b))
                            (y (velocity b) * (1 - linearDrag b * dt))) b) ;;
  (* Apply gravity. *)
  let* g := worldGravity this in
  modBody this (fun b =>
    set_velocity (mkVector2 (x (velocity b) + x g * dt)
                            (y (velocity b))) b) ;;
  let* g := worldGravity this in
  modBody this (fun b =>
    set_velocity (mkVector2 (x (velocity b))
                            (y (velocity b) + y g * dt)) b) ;;
  (* Integrate velocity. *)
  modBody this (fun b =>
    set_position (mkVector2 (x (position b) + x (velocity b) * dt)
                            (y (position b))) b) ;;
  modBody this (fun b =>
    set_position (mkVector2 (x (position b))
                            (y (position b) + y (velocity b) * dt)) b).

Definition integrate (this : bref) (dt : float) : M unit :=
  let* b := getBody this in
  (* Do not integrate static bodies. *)
  if isStatic b then ret tt
  else
    (* Sleep or wake up the body based on its velocity. *)
    sleepTick this dt ;;
    let* b := getBody this in
    (* Do not integrate sleeping bodies. *)
    if _isSleeping b then ret tt
    else advance this dt.

End PhysicsBody.

(** ** SpatialGrid methods

    The scratch arrays [pairsResult], [aabbQueryResult] and
    [aabbToCellsResult] are only read back through [slice(0, count)], so
    each method returns the list of the [count] values it wrote.  The
    [console.log] diagnostic of [worldToCell] changes no state.  The floating
    loop counters of [getCellsInAABB] need not reach their bound ([x + 1] is
    [x] from [2^53] on, and at an infinity); [fuel] bounds the iterations of
    each loop. *)

Module SpatialGrid.

Definition worldToCell (g : SpatialGrid) (vec : Vector2) : Vector2 :=
  mkVector2 (Num.floor (x vec / cellSize g))
            (Num.floor (y vec / cellSize g)).

(** [for (let x = min.x; x <= max.x; x++)], appending to the result. *)
Fixpoint cellsRow (n : nat) (g : SpatialGrid) (maxx cy cx : float)
    (acc : list float) : Res (list float) :=
  match n with
  | O => OutOfFuel
  | S n' =>
      if cx <=? maxx then
        (* clamp to grid *)
        let cellX := Num.max 0 (Num.min (width g - 1) cx) in
        let cellY := Num.max 0 (Num.min (height g - 1) cy) in
        (* add to result *)
        cellsRow n' g maxx cy (cx + 1) (acc ++ [cellX + cellY * width g])
      else Ok acc
  end.

(** [for (let y = min.y; y <= max.y; y++)]. *)
Fixpoint cellsRows (n fuel : nat) (g : SpatialGrid)
    (minx maxx maxy cy : float) (acc : list float) : Res (list float) :=
  match n with
  | O => OutOfFuel
  | S n' =>
      if cy <=? maxy then
        match cellsRow fuel g maxx cy minx acc with
        | Ok acc' => cellsRows n' fuel g minx maxx maxy (cy + 1) acc'
        | TypeError => TypeError
        | OutOfFuel => OutOfFuel
        end
      else Ok acc
  end.

Definition cellsOf (fuel : nat) (g : SpatialGrid) (aabb : AABB)
  : Res (list float) :=
  let min := worldToCell g (min aabb) in
  let max := worldToCell g (max aabb) in
  cellsRows fuel fuel g (x min) (x max) (y max) (y min) [].

Definition getCellsInAABB (fuel : nat) (this : gref) (aabb : AABB)
  : M (list float) :=
  fun s => (cellsOf fuel (grids s this) aabb, s).

(** [this.partitions[cell]]: the set object, if the index is in range. *)
Definition partitionAt (g : SpatialGrid) (cell : float) : option RefSet :=
  match Num.to_index cell with
  | Some i => partitions g !! i
  | None => None
  end.

(** [this.partitions[cell].add(body)] and [.delete(body)], by [f]. *)
Definition updPartition (this : gref) (cell : float)
    (f : RefSet -> RefSet) : M unit :=
  let* g := getGrid this in
  match Num.to_index cell with
  | Some i =>
      match partitions g !! i with
      | Some p => modGrid this (fun g =>
                    set_partitions (<[i := f p]> (partitions g)) g)
      | None => throw
      end
  | None => throw
  end.

Definition addBody (fuel : nat) (this : gref) (body : bref) : M unit :=
  let* b := getBody body in
  let* cells := getCellsInAABB fuel this (aabb b) in
  forEach cells (fun c => updPartition this c (set_add body)) ;;
  modBody body (set_isInGrid true).

Definition removeBody (fuel : nat) (this : gref) (body : bref) : M unit :=
  let* b := getBody body in
  let* cells := getCellsInAABB fuel this (aabb b) in
  forEach cells (fun c => updPartition this c (set_delete body)) ;;
  modBody body (set_isInGrid false).

Definition queryAABB (fuel : nat) (this : gref) (aabb : AABB)
  : M (list bref) :=
  let* cells := getCellsInAABB fuel this aabb in
  foldM cells (fun acc c =>
    let* g := getGrid this in
    match partitionAt g c with
    | Some partition => ret (acc ++ partition)
    | None => throw
    end) [].

(** The body of the loop over the result of the query. *)
Definition pairWith (bodyA : bref) (acc : list Pair) (bodyB : bref)
  : M (list Pair) :=
  let* a := getBody bodyA in
  let* b := getBody bodyB in
  (* Skip if duplicate pair. *)
  if id a =? _internalLastPairId b then ret acc
  else
    (* Update last pair id to avoid duplicate pairs. *)
    modBody bodyB (set_internalLastPairId (id a)) ;;
    (* Add pair to result. *)
    ret (acc ++ [mkPair bodyA bodyB]).

(** The body of the loop over a partition. *)
Definition pairsOf (fuel : nat) (this : gref) (acc : list Pair)
    (bodyA : bref) : M (list Pair) :=
  let* a := getBody bodyA in
  (* Skip if body is sleeping. *)
  if _isSleeping a then ret acc
  else
    (* Remove body from grid to avoid generating duplicate pairs. *)
    removeBody fuel this bodyA ;;
    (* Query for bodies that intersect with bodyA's AABB. *)
    let* a := getBody bodyA in
    let* intersectingBodies := queryAABB fuel this (aabb a) in
    foldM intersectingBodies (pairWith bodyA) acc.

Definition generatePairs (fuel : nat) (this : gref) (bodies : RefSet)
  : M (list Pair) :=
  (* Add bodies to grid if they are not already in it. *)
  forEach bodies (fun body =>
    modBody body (set_internalLastPairId (-1)) ;;
    let* b := getBody body in
    if isInGrid b then ret tt else addBody fuel this body) ;;
  (* Loop through all bodies in the grid and generate pairs. *)
  let* g := getGrid this in
  foldM (seq 0 (List.length (partitions g))) (fun acc i =>
    let* g := getGrid this in
    match partitions g !! i with
    | Some partition =>
        forEachLive partition
          (let* g := getGrid this in ret (default [] (partitions g !! i)))
          (pairsOf fuel this) acc
    | None => throw
    end) [].

End SpatialGrid.

(** ** World methods *)

Module World.

(** Add a body to the world. *)
Definition addBody (this : wref) (body : bref) : M unit :=
  modBody body (set_world (Some this)) ;;
  modWorld this (fun w => set_bodies (set_add body (bodies w)) w).

(** Remove a body from the world. *)
Definition removeBody (this : wref) (body : bref) : M unit :=
  modBody body (set_world (Some this)) ;;
  modWorld this (fun w => set_bodies (set_delete body (bodies w)) w).

Definition stepResolveStaticCollisions (this : wref) (dt : float) : M unit :=
  ret tt.

Definition postStep (this : wref) : M unit :=
  modWorld this (set_collisionPairs []) ;;
  modWorld this (set_contacts []).

Definition modVelocity (r : bref) (f : Vector2 -> Vector2) : M unit :=
  modBody r (fun b => set_velocity (f (velocity b)) b).

Definition modPosition (r : bref) (f : Vector2 -> Vector2) : M unit :=
  modBody r (fun b => set_position (f (position b)) b).

Definition when (c : bool) (m : M unit) : M unit :=
  if c then m else ret tt.

(** The friction block, entered when [Math.abs(jt) > 0.01]. *)
Definition applyFriction (bodyA bodyB : bref) (invMassA invMassB : float)
    (tangent : Vector2) (j jt : float) : M unit :=
  let* a := getBody bodyA in
  let* b := getBody bodyB in
  (* Coulumb's law *)
  let tangentImpulse :=
    if abs jt <? j * friction a
    then mkVector2 (x tangent * jt) (y tangent * jt)
    else mkVector2 (x tangent * - j * friction a)
                   (y tangent * - j * friction a) in
  (* Apply friction impulse to dynamic bodies *)
  when (negb (isStatic a))
    (modVelocity bodyA (fun v => mkVector2 (x v - x tangentImpulse * invMassA) (y v)) ;;
     modVelocity bodyA (fun v => mkVector2 (x v) (y v - y tangentImpulse * invMassA))) ;;
  when (negb (isStatic b))
    (modVelocity bodyB (fun v => mkVector2 (x v + x tangentImpulse * invMassB) (y v)) ;;
     modVelocity bodyB (fun v => mkVector2 (x v) (y v + y tangentImpulse * invMassB))) ;;
  (* Set velocity to 0 if it is too small *)
  let* a := getBody bodyA in
  when (abs (x (velocity a)) <? 0.01)
    (modVelocity bodyA (fun v => mkVector2 0 (y v))) ;;
  let* a := getBody bodyA in
  when (abs (y (velocity a)) <? 0.01)
    (modVelocity bodyA (fun v => mkVector2 (x v) 0)) ;;
  let* b := getBody bodyB in
  when (abs (x (velocity b)) <? 0.01)
    (modVelocity bodyB (fun v => mkVector2 0 (y v))) ;;
  let* b := getBody bodyB in
  when (abs (y (velocity b)) <? 0.01)
    (modVelocity bodyB (fun v => mkVector2 (x v) 0)).

(** The block entered when [velAlongNormal < 0]: restitution impulse, then
    friction. *)
Definition applyImpulse (contact : Contact) (invMassA invMassB : float)
    (rv : Vector2) (velAlongNormal : float) : M unit :=
  let bodyA := bodyA contact in
  let bodyB := bodyB contact in
  let* a := getBody bodyA in
  let* b := getBody bodyB in
  (* Calculate restitution *)
  let e := Num.min (restitution a) (restitution b) in
  (* Calculate impulse scalar *)
  let j := - (1 + e) * velAlongNormal in
  let j := j / (invMassA + invMassB) in
  (* Calculate impulse vector *)
  let impulse := mkVector2 (x (normal contact) * j) (y (normal contact) * j) in
  (* Apply impulse to dynamic bodies *)
  when (negb (isStatic a))
    (modVelocity bodyA (fun v => mkVector2 (x v - x impulse * _invMass a) (y v)) ;;
     modVelocity bodyA (fun v => mkVector2 (x v) (y v - y impulse * _invMass a))) ;;
  when (negb (isStatic b))
    (modVelocity bodyB (fun v => mkVector2 (x v + x impulse * _invMass b) (y v)) ;;
     modVelocity bodyB (fun v => mkVector2 (x v) (y v + y impulse * _invMass b))) ;;
  (* Friction *)
  let tangent := Vector2.normalize
    (mkVector2 (x rv - x (normal contact) * velAlongNormal)
               (y rv - y (normal contact) * velAlongNormal)) in
  (* j tangent magnitude *)
  let jt := - Vector2.dot rv tangent in
  let jt := jt / (invMassA + invMassB) in
  (* Only apply friction impulses if they are not too small *)
  when (0.01 <? abs jt)
    (applyFriction bodyA bodyB invMassA invMassB tangent j jt).

(** Fix penetration: the last block of the loop body. *)
Definition fixPenetration (contact : Contact) (invMassA invMassB : float)
  : M unit :=
  let bodyA := bodyA contact in
  let bodyB := bodyB contact in
  let* a := getBody bodyA in
  let* b := getBody bodyB in
  let percent := 0.2 in
  let slop := 0.01 in
  (* Calculate correction of dynamic bodies *)
  let correction :=
    Num.max (penetration contact - slop) 0 / (invMassA + invMassB)
    * percent in
  let correctionVector :=
    mkVector2 (x (normal contact) * correction)
              (y (normal contact) * correction) in
  (* Apply the correction to dynamic bodies *)
  when (negb (isStatic a))
    (modPosition bodyA (fun p => mkVector2 (x p - x correctionVector * invMassA) (y p)) ;;
     modPosition bodyA (fun p => mkVector2 (x p) (y p - y correctionVector * invMassA))) ;;
  when (negb (isStatic b))
    (modPosition bodyB (fun p => mkVector2 (x p + x correctionVector * invMassB) (y p)) ;;
     modPosition bodyB (fun p => mkVector2 (x p) (y p + y correctionVector * invMassB))).

(** The body of the loop of [stepResolveCollisions]. *)
Definition resolveContact (contact : Contact) : M unit :=
  let* a := getBody (bodyA contact) in
  let* b := getBody (bodyB contact) in
  let invMassA := if isStatic a then 0 else _invMass a in
  let invMassB := if isStatic b then 0 else _invMass b in
  (* If both bodies are static, skip resolving collision *)
  if isStatic a && isStatic b then ret tt
  else
    (* Calculate relative velocity *)
    let rv := mkVector2 (x (velocity b) - x (velocity a))
                        (y (velocity b) - y (velocity a)) in
    (* Calculate relative velocity in terms of the normal direction *)
    let velAlongNormal := Vector2.dot rv (normal contact) in
    when (velAlongNormal <? 0)
      (applyImpulse contact invMassA invMassB rv velAlongNormal) ;;
    fixPenetration contact invMassA invMassB.

Definition stepResolveCollisions (this : wref) (dt : float) : M unit :=
  let* w := getWorld this in
  forEach (_contacts w) resolveContact.

Definition stepIntegrate (this : wref) (dt : float) : M unit :=
  let* w := getWorld this in
  forEach (bodies w) (fun body => PhysicsBody.integrate body dt).

(** The body of the loop of [stepNarrowPhase]. *)
Definition narrowPhasePair (this : wref) (pair : Pair) : M unit :=
  let bodyA := pairA pair in
  let bodyB := pairB pair in
  let* a := getBody bodyA in
  let* b := getBody bodyB in
  match shape a, shape b with
  | Circle radiusA, Circle radiusB =>
      let distance :=
        sqrt (Num.pow2 (x (position a) - x (position b))
              + Num.pow2 (y (position a) - y (position b))) in
      if distance <? radiusA + radiusB then
        (* Collision detected! *)
        let normal := Vector2.normalize
          (mkVector2 (x (position b) - x (position a))
                     (y (position b) - y (position a))) in
        (* Calculate penetration *)
        let penetration := radiusA + radiusB - distance in
        (* Calculate point of contact *)
        let point := mkVector2 (x (position a) + x normal * radiusA)
                               (y (position a) + y normal * radiusA) in
        (* Add contact to list of contacts *)
        modWorld this (fun w =>
          set_contacts
            (_contacts w ++ [mkContact bodyA bodyB normal penetration point])
            w) ;;
        (* Collision should wake up bodies *)
        PhysicsBody.wakeUp bodyA ;;
        PhysicsBody.wakeUp bodyB
      else ret tt
  | _, _ => ret tt
  end.

Definition stepNarrowPhase (this : wref) (dt : float) : M unit :=
  let* w := getWorld this in
  forEach (_collisionPairs w) (narrowPhasePair this).

Definition stepBroadPhase (fuel : nat) (this : wref) (dt : float) : M unit :=
  (* Update AABBs *)
  let* w := getWorld this in
  forEach (bodies w) (fun body =>
    let* b := getBody body in
    match shape b with
    | Circle radius =>
        modBody body (fun b =>
          set_aabb
            (mkAABB (mkVector2 (x (position b) - radius)
                               (y (position b) - radius))
                    (mkVector2 (x (position b) + radius)
                               (y (position b) + radius))) b)
    | OtherShape => ret tt
    end) ;;
  (* Generate collision pairs *)
  let* w := getWorld this in
  let* pairs := SpatialGrid.generatePairs fuel (grid w) (bodies w) in
  modWorld this (set_collisionPairs pairs).

Definition step (fuel : nat) (this : wref) (dt : float) : M unit :=
  stepBroadPhase fuel this dt ;;
  stepNarrowPhase this dt ;;
  stepResolveStaticCollisions this dt ;;
  stepResolveCollisions this dt ;;
  stepIntegrate this dt ;;
  postStep this.

End World.

(** ** Intersection tests *)

(** [circleToCircle(c1Rad, c1Pos, c2Rad, c2Pos)]. *)
Definition circleToCircle (c1Rad : float) (c1Pos : Vector2) (c2Rad : float)
    (c2Pos : Vector2) : bool :=
  (* Calculate the distance between the 2 circles. *)
  let dist := sqrt (Num.pow2 (x c1Pos - x c2Pos)
                    + Num.pow2 (y c1Pos - y c2Pos)) in
  (* If the distance is less than the sum of the 2 radii, the circles
     intersect *)
  dist <? c1Rad + c2Rad.

(** * Statements

    The predicates and reference definitions that the properties are stated
    with, and the objects of the examples. *)

(** ** Reasoning about methods *)

(** [keeps R m]: the state that [m] leaves, on a normal return or on a
    throw, is related by [R] to the state it started from. *)
Definition keeps (R : State -> State -> Prop) {A : Type} (m : M A) : Prop :=
  forall s, R s (snd (m s)).

(** A relation between the two states of each body. *)
Definition bodywise (Rb : PhysicsBody -> PhysicsBody -> Prop)
  : State -> State -> Prop :=
  fun s s' => forall r, Rb (body s r) (body s' r).

(** [hoare P m Q]: when [m] starts in a state of [P] and returns normally,
    its value and final state satisfy [Q]. *)
Definition hoare {A : Type} (P : State -> Prop) (m : M A)
    (Q : A -> State -> Prop) : Prop :=
  forall s a s', P s -> m s = (Ok a, s') -> Q a s'.

(** [keepsFrom P R m]: as [keeps], from the states of [P]. *)
Definition keepsFrom (P : State -> Prop) (R : State -> State -> Prop)
    {A : Type} (m : M A) : Prop :=
  forall s, P s -> R s (snd (m s)).

(** ** Numbers *)

(** The number 1 is [2^52 * 2^-52]. *)
Definition SF_one : spec_float :=
  S754_finite false 4503599627370496%positive (-52)%Z.

(** ** The sleep state machine *)

(** [velocity.x * velocity.x + velocity.y * velocity.y], as [sleepTick]
    computes it. *)
Definition speed2 (b : PhysicsBody) : float :=
  x (velocity b) * x (velocity b) + y (velocity b) * y (velocity b).

(** The body after the sleep check. *)
Definition ticked (dt : float) (b : PhysicsBody) : PhysicsBody :=
  let b1 :=
    if speed2 b <? SLEEP_VELOCITY_THRESHOLD
    then set_idleTime (_idleTime b + dt) b
    else set_idleTime 0 b in
  if SLEEP_TIME_THRESHOLD <? _idleTime b1 then set_isSleeping true b1
  else b1.

(** The sleep flag of every body is as before. *)
Definition sameSleep : State -> State -> Prop :=
  bodywise (fun b b' => _isSleeping b' = _isSleeping b).

(** A call of one of the two methods, on any body. *)
Inductive SleepCall : Type :=
| CallIntegrate (r : bref) (dt : float)
| CallSleepTick (r : bref) (dt : float).

(** The call as a method call. *)
Definition runSleepCall (c : SleepCall) : M unit :=
  match c with
  | CallIntegrate r dt => PhysicsBody.integrate r dt
  | CallSleepTick r dt => PhysicsBody.sleepTick r dt
  end.

(** The calls one after the other; a caller may go on after a throw. *)
Fixpoint runSleepCalls (cs : list SleepCall) (s : State) : State :=
  match cs with
  | [] => s
  | c :: cs' => runSleepCalls cs' (snd (runSleepCall c s))
  end.

(** ** Residence in the grid *)

(** Residence of a body in cell [i] of an array of partitions, in cell [i]
    of a grid, and in the grid. *)
Definition residentIn (ps : list RefSet) (r : bref) (i : nat) : Prop :=
  exists p : RefSet, ps !! i = Some p /\ r ∈ p.

Definition residentAt (g : SpatialGrid) (r : bref) (i : nat) : Prop :=
  residentIn (partitions g) r i.

Definition resident (g : SpatialGrid) (r : bref) : Prop :=
  exists i : nat, residentAt g r i.

(** The partitions after [f] was applied at each of [cells] in turn;
    [None] when a cell is not an index of the array. *)
Fixpoint updCells (f : RefSet -> RefSet) (cells : list float)
    (ps : list RefSet) : option (list RefSet) :=
  match cells with
  | [] => Some ps
  | c :: cs =>
      match Num.to_index c with
      | Some i =>
          match ps !! i with
          | Some p => updCells f cs (<[i := f p]> ps)
          | None => None
          end
      | None => None
      end
  end.

(** The array indices that a list of cells denotes. *)
Definition cellIndexes (cells : list float) : list nat :=
  omap Num.to_index cells.

(** [s'] differs from [s] in the partitions of grid [this] only, which are
    [ps']. *)
Definition partitionsSet (this : gref) (ps' : list RefSet) (s s' : State)
  : Prop :=
  body s' = body s /\ worlds s' = worlds s /\
  grids s' this = set_partitions ps' (grids s this) /\
  (forall g, g <> this -> grids s' g = grids s g).

(** The common shape of [addBody] and [removeBody]: [f] at every cell of
    the body's box, then [isInGrid = v]. *)
Definition touchCells (fuel : nat) (this : gref) (b : bref)
    (f : RefSet -> RefSet) (v : bool) : M unit :=
  let* bd := getBody b in
  let* cells := SpatialGrid.getCellsInAABB fuel this (aabb bd) in
  forEach cells (fun c => SpatialGrid.updPartition this c f) ;;
  modBody b (set_isInGrid v).

(** The state after [touchCells] on the cells [cells], with the new
    partitions [ps']. *)
Definition touched (this : gref) (b : bref) (v : bool) (ps' : list RefSet)
    (s s' : State) : Prop :=
  grids s' this = set_partitions ps' (grids s this) /\
  (forall g, g <> this -> grids s' g = grids s g) /\
  worlds s' = worlds s /\
  body s' b = set_isInGrid v (body s b) /\
  (forall r, r <> b -> body s' r = body s r).

(** Every pair of a list has two distinct bodies. *)
Definition distinctPairs (pairs : list Pair) : Prop :=
  forall p, p ∈ pairs -> pairA p <> pairB p.

(** The flag of every body tells whether it is in some partition. *)
Definition flagMatches (this : gref) (s : State) : Prop :=
  forall r, isInGrid (body s r) = true <-> resident (grids s this) r.

(** Cell [i] is one of the cells of the box. *)
Definition covers (fuel : nat) (g : SpatialGrid) (box : AABB) (i : nat)
  : Prop :=
  exists cells, SpatialGrid.cellsOf fuel g box = Ok cells /\
                i ∈ cellIndexes cells.

(** Every body is resident only in cells of its current box. *)
Definition residentWhereCovered (fuel : nat) (this : gref) (s : State)
  : Prop :=
  forall r i, residentAt (grids s this) r i ->
              covers fuel (grids s this) (aabb (body s r)) i.

(** Both together. *)
Definition gridExact (fuel : nat) (this : gref) (s : State) : Prop :=
  flagMatches this s /\ residentWhereCovered fuel this s.

(** The box of the body has a cell. *)
Definition hasCell (fuel : nat) (this : gref) (s : State) (b : bref) : Prop :=
  exists i, covers fuel (grids s this) (aabb (body s b)) i.

(** The invariant of the loops of [generatePairs]. *)
Definition pairsInv (fuel : nat) (this : gref) (bodies : RefSet) (s : State)
  : Prop :=
  gridExact fuel this s /\ forall b, b ∈ bodies -> hasCell fuel this s b.

(** ** Contacts *)

(** The distance of the centres, as the narrow phase computes it. *)
Definition centerDistance (a b : PhysicsBody) : float :=
  sqrt (Num.pow2 (x (position a) - x (position b))
        + Num.pow2 (y (position a) - y (position b))).

(** The contact of two overlapping circles, in the words of the
    specification: [normal = normalize(posB - posA)],
    [penetration = rA + rB - distance], [point = posA + normal * rA]. *)
Definition circleContact (A B : bref) (a b : PhysicsBody) (rA rB : float)
  : Contact :=
  let n := Vector2.normalize
             (mkVector2 (x (position b) - x (position a))
                        (y (position b) - y (position a))) in
  mkContact A B n (rA + rB - centerDistance a b)
    (mkVector2 (x (position a) + x n * rA) (y (position a) + y n * rA)).

(** The effective inverse mass: 0 for a static body. *)
Definition effInvMass (b : PhysicsBody) : float :=
  if isStatic b then 0 else _invMass b.

(** [correction = max(penetration - 0.01, 0) / (invMassA + invMassB) * 0.2]. *)
Definition correctionOf (c : Contact) (invMassA invMassB : float) : float :=
  Num.max (penetration c - 0.01) 0 / (invMassA + invMassB) * 0.2.

(** A position moved against, and along, the normal [n] scaled by the
    correction and the inverse mass. *)
Definition pushedBack (n : Vector2) (corr inv : float) (p : Vector2)
  : Vector2 :=
  mkVector2 (x p - x n * corr * inv) (y p - y n * corr * inv).

Definition pushedForth (n : Vector2) (corr inv : float) (p : Vector2)
  : Vector2 :=
  mkVector2 (x p + x n * corr * inv) (y p + y n * corr * inv).

(** The positional correction of a contact, in the words of the
    specification: body A, if not static, moves against the normal, then
    body B, if not static, moves along it. *)
Definition corrected (c : Contact) (h : bref -> PhysicsBody)
  : bref -> PhysicsBody :=
  let a := h (bodyA c) in
  let b := h (bodyB c) in
  let corr := correctionOf c (effInvMass a) (effInvMass b) in
  let h1 :=
    if isStatic a then h
    else upd h (bodyA c)
           (set_position
              (pushedBack (normal c) corr (effInvMass a) (position a)) a) in
  if isStatic b then h1
  else upd h1 (bodyB c)
         (set_position
            (pushedForth (normal c) corr (effInvMass b)
               (position (h1 (bodyB c)))) (h1 (bodyB c))).

(** The relative velocity along the normal of a contact. *)
Definition velAlongNormal (c : Contact) (s : State) : float :=
  let a := body s (bodyA c) in
  let b := body s (bodyB c) in
  Vector2.dot (mkVector2 (x (velocity b) - x (velocity a))
                         (y (velocity b) - y (velocity a))) (normal c).

(** ** Static bodies *)

(** What a frame may do to a body: the static flag stays, and a static
    body keeps its position, and each component of its velocity is what it
    was or is 0. *)
Definition staticRel (b b' : PhysicsBody) : Prop :=
  isStatic b' = isStatic b /\
  (isStatic b = true ->
   position b' = position b /\
   (x (velocity b') = x (velocity b) \/ x (velocity b') = 0) /\
   (y (velocity b') = y (velocity b) \/ y (velocity b') = 0)).

Definition staticKept : State -> State -> Prop := bodywise staticRel.

(** The static flags of the two bodies of a contact. *)
Definition staticFlags (A B : bref) (stA stB : bool) (s : State) : Prop :=
  isStatic (body s A) = stA /\ isStatic (body s B) = stB.

(** What a program does with a world between and in its frames: run a
    frame, apply a force to a body, set the gravity. *)
Inductive FrameCall : Type :=
| CallStep (dt : float)
| CallApplyForce (r : bref) (force : Vector2)
| CallSetGravity (g : Vector2).

Definition runFrameCall (fuel : nat) (this : wref) (c : FrameCall) : M unit :=
  match c with
  | CallStep dt => World.step fuel this dt
  | CallApplyForce r force => PhysicsBody.applyForce r force
  | CallSetGravity g => modWorld this (set_gravity g)
  end.

(** The calls one after the other; a game loop may go on after a throw. *)
Fixpoint runFrameCalls (fuel : nat) (this : wref) (cs : list FrameCall)
    (s : State) : State :=
  match cs with
  | [] => s
  | c :: cs' => runFrameCalls fuel this cs' (snd (runFrameCall fuel this c s))
  end.

(** ** Objects of the examples *)

Module Demo.

(** [new SpatialGrid(cellSize, width, height)]: [new Array(n)] throws a
    [RangeError] unless [n] is an array length. *)
Definition new_SpatialGrid (cellSize width height : float)
  : option SpatialGrid :=
  match Num.to_index (width * height) with
  | Some n => Some (mkSpatialGrid width height cellSize (replicate n []))
  | None => None
  end.

(** [new World(grid)]. *)
Definition new_World (grid : gref) : World :=
  mkWorld [] grid [] [] (mkVector2 0 0).

(** A 4 x 4 grid of cells of size 10. *)
Definition grid44 : SpatialGrid :=
  default (mkSpatialGrid 0 0 0 []) (new_SpatialGrid 10 4 4).

(** A body of mass 1 with a circle of radius [r], placed at [(px, py)] with
    velocity [(vx, vy)]. *)
Definition circleBody (id px py vx vy r : float) : PhysicsBody :=
  set_velocity (mkVector2 vx vy)
    (set_position (mkVector2 px py) (new_PhysicsBody id 1 (Circle r))).

Definition static (b : PhysicsBody) : PhysicsBody :=
  mkPhysicsBody (id b) (position b) (velocity b) (world b) (_isSleeping b)
    (_idleTime b) (_mass b) (_invMass b) (shape b) (friction b)
    (restitution b) (linearDrag b) true (isSensor b) (aabb b) (isInGrid b)
    (_internalLastPairId b).

(** A store with the bodies [b0] and [b1] at the references 0 and 1, one
    grid and one world on it. *)
Definition store (b0 b1 : PhysicsBody) : State :=
  mkState
    (fun r => match r with
              | O => b0
              | 1%nat => b1
              | _ => new_PhysicsBody 0 1 OtherShape
              end)
    (fun _ => grid44)
    (fun _ => new_World 0%nat).

(** A slow body that has been idle for 0.99 time units. *)
Definition drowsy : PhysicsBody :=
  set_idleTime 0.99 (circleBody 0 5 5 0.05 0.05 1).

End Demo.

Module DemoRemoved.
Import Demo.

(** A fast body two cells away from a sleeping one; it reaches the
    sleeping body within one frame of 0.016 time units. *)
Definition awake : PhysicsBody := circleBody 0 22 5 (-1000) 0 1.
Definition asleep : PhysicsBody :=
  set_isSleeping true (circleBody 1 7 5 0 0 1).

(** Both are registered and one frame is run: the sleeping body stays in
    the grid.  Then it is removed from the world. *)
Definition afterRemoval : State :=
  snd ((World.addBody 0%nat 0%nat ;;
        World.addBody 0%nat 1%nat ;;
        World.step 100 0%nat 0.016 ;;
        World.removeBody 0%nat 1%nat) (store awake asleep)).
End DemoRemoved.

Module DemoCircles.
Import Demo.
(** Two circles of radius 1 centred at (0,0) and (1.5,0). *)
Definition c0 : PhysicsBody := circleBody 0 0 0 0 0 1.
Definition c1 : PhysicsBody := circleBody 1 1.5 0 0 0 1.
End DemoCircles.

Module DemoContact.
Import Demo.
(** Two overlapping circles that move apart, and their contact. *)
Definition left : PhysicsBody := circleBody 0 0 0 (-1) 0 1.
Definition right : PhysicsBody := circleBody 1 1.5 0 1 0 1.
Definition contact : Contact :=
  mkContact 0%nat 1%nat (mkVector2 1 0) 0.5 (mkVector2 1 0).
Definition apart : State := store left right.
End DemoContact.

Module DemoStatic.
Import Demo.

(** A static circle with a small velocity, and a dynamic circle that
    overlaps it and slides along it. *)
Definition wall : PhysicsBody := static (circleBody 0 5 5 0.005 0 1).
Definition ball : PhysicsBody := circleBody 1 6.5 5 (-1) 1 1.

(** Both bodies registered with the world. *)
Definition registered : State :=
  snd ((World.addBody 0%nat 0%nat ;; World.addBody 0%nat 1%nat)
         (store wall ball)).
End DemoStatic.

Module DemoGrid.
Import Demo.
(** A body whose box spans the cells 0 and 1, not yet in the grid. *)
Definition wide : PhysicsBody :=
  set_aabb (mkAABB (mkVector2 4 4) (mkVector2 16 6)) (circleBody 0 10 5 0 0 6).
Definition fresh : State := store wide wide.
End DemoGrid.

Module DemoStale.
Import Demo.
(** A body with the box of a circle of radius 1 at (5,5), inserted into
    the grid; then the body has moved to (15,5) and its box with it, as the
    broad phase recomputes it. *)
Definition placed : PhysicsBody :=
  set_aabb (mkAABB (mkVector2 4 4) (mkVector2 6 6)) (circleBody 0 5 5 0 0 1).
Definition inserted : State :=
  snd (SpatialGrid.addBody 100 0%nat 0%nat (store placed placed)).
Definition moved : State :=
  snd ((modBody 0%nat (set_position (mkVector2 15 5)) ;;
        modBody 0%nat (set_aabb (mkAABB (mkVector2 14 4) (mkVector2 16 6))))
         inserted).
(** A body whose position is not a number, as a contact of two bodies at the
    same place leaves it, with the box computed from it; the box has no
    cell. *)
Definition boxless : PhysicsBody :=
  set_aabb (mkAABB (mkVector2 nan nan) (mkVector2 nan nan))
    (circleBody 0 nan nan 0 0 1).
Definition lost : State := store boxless boxless.
End DemoStale.

Module DemoDrift.
Import Demo.
(** A sleeping body across the border of the cells 0 and 1, and an awake
    body that overlaps it.  Both are registered and one frame is run: the
    sleeping body stays in the cells 0 and 1, is woken by the contact and
    pushed into cell 1. *)
Definition pusher : PhysicsBody := circleBody 0 9.5 5 0 0 1.
Definition dozer : PhysicsBody :=
  set_isSleeping true (circleBody 1 10.95 5 0 0 1).
Definition afterFrame1 : State :=
  snd ((World.addBody 0%nat 0%nat ;;
        World.addBody 0%nat 1%nat ;;
        World.step 100 0%nat 0.016) (store pusher dozer)).
End DemoDrift.

Module DemoWoken.
Import Demo.
(** A slow body that fell asleep after 1.006 idle time units. *)
Definition sleeper : PhysicsBody :=
  set_isSleeping true (set_idleTime 1.006 (circleBody 0 5 5 0.05 0.05 1)).
End DemoWoken.

(** ** What a frame leaves alone *)

(** The fields of a body that are set when it is created or registered. *)
Definition sameSetup (b b' : PhysicsBody) : Prop :=
  id b' = id b /\ world b' = world b /\ _mass b' = _mass b /\
  _invMass b' = _invMass b /\ shape b' = shape b /\
  friction b' = friction b /\ restitution b' = restitution b /\
  linearDrag b' = linearDrag b /\ isStatic b' = isStatic b /\
  isSensor b' = isSensor b.

(** The dimensions of a grid and the number of its partitions. *)
Definition sameLayout (g g' : SpatialGrid) : Prop :=
  width g' = width g /\ height g' = height g /\ cellSize g' = cellSize g /\
  List.length (partitions g') = List.length (partitions g).

(** The bodies, the grid and the gravity of a world. *)
Definition sameRoster (w w' : World) : Prop :=
  bodies w' = bodies w /\ grid w' = grid w /\ gravity w' = gravity w.

Definition configKept (s s' : State) : Prop :=
  (forall r, sameSetup (body s r) (body s' r)) /\
  (forall g, sameLayout (grids s g) (grids s' g)) /\
  (forall w, sameRoster (worlds s w) (worlds s' w)).

(** Two bodies that differ at most in the fields [isInGrid] and
    [_internalLastPairId]. *)
Definition sameButGridFields (b b' : PhysicsBody) : Prop :=
  set_isInGrid false (set_internalLastPairId 0 b')
  = set_isInGrid false (set_internalLastPairId 0 b).

(** What a method of grid [this] may change: the two fields above of a
    body, and the content of the partitions of [this]. *)
Definition gridFrame (this : gref) (s s' : State) : Prop :=
  (forall r, sameButGridFields (body s r) (body s' r)) /\
  sameLayout (grids s this) (grids s' this) /\
  (forall g, g <> this -> grids s' g = grids s g) /\
  (forall w, worlds s' w = worlds s w).

(** The first body of every pair of a list is awake in state [s]. *)
Definition allAwake (s : State) (pairs : list Pair) : Prop :=
  forall p, p ∈ pairs -> _isSleeping (body s (pairA p)) = false.

(** ** Bounding boxes *)

(** The box of a circle of the given radius around [p]. *)
Definition circleBox (p : Vector2) (radius : float) : AABB :=
  mkAABB (mkVector2 (x p - radius) (y p - radius))
         (mkVector2 (x p + radius) (y p + radius)).

(** The body with the box that the broad phase gives it. *)
Definition boxed (b : PhysicsBody) : PhysicsBody :=
  match shape b with
  | Circle radius => set_aabb (circleBox (position b) radius) b
  | OtherShape => b
  end.

(** ** Bodies bound to a world *)

(** Every body of world [w] has its [world] reference defined. *)
Definition allBound (w : wref) (s : State) : Prop :=
  forall b, b ∈ bodies (worlds s w) -> world (body s b) <> None.

(** The velocity after the drag of a time step. *)
Definition dragged (dt : float) (b : PhysicsBody) : Vector2 :=
  mkVector2 (x (velocity b) * (1 - linearDrag b * dt))
            (y (velocity b) * (1 - linearDrag b * dt)).

(** The body after drag, gravity [g] and the position update of a time
    step: the position advances by the new velocity. *)
Definition advanced (dt : float) (g : Vector2) (b : PhysicsBody)
  : PhysicsBody :=
  let v := mkVector2 (x (dragged dt b) + x g * dt)
                     (y (dragged dt b) + y g * dt) in
  set_position (mkVector2 (x (position b) + x v * dt)
                          (y (position b) + y v * dt))
    (set_velocity v b).

(** ** The sensor flag *)

Definition set_isSensor (v : bool) (b : PhysicsBody) : PhysicsBody :=
  mkPhysicsBody (id b) (position b) (velocity b) (world b) (_isSleeping b)
    (_idleTime b) (_mass b) (_invMass b) (shape b) (friction b)
    (restitution b) (linearDrag b) (isStatic b) v (aabb b) (isInGrid b)
    (_internalLastPairId b).

(** Two bodies that differ at most in [isSensor]. *)
Definition sameButSensor (b b' : PhysicsBody) : Prop :=
  set_isSensor false b' = set_isSensor false b.

(** Two states whose bodies differ at most in [isSensor], with the same
    grids and worlds. *)
Definition sensorEq (s s' : State) : Prop :=
  (forall r, sameButSensor (body s r) (body s' r)) /\
  (forall g, grids s' g = grids s g) /\
  (forall w, worlds s' w = worlds s w).

(** A method whose outcome does not depend on the sensor flags: from two
    such states it gives the same result and two such states again. *)
Definition sensorBlind {A : Type} (m : M A) : Prop :=
  forall s s', sensorEq s s' ->
    fst (m s) = fst (m s') /\ sensorEq (snd (m s)) (snd (m s')).

(** ** The bodies that stay in the grid *)

(** Every body in partition [j] satisfies [Phi] at [j]. *)
Definition residentsWithin (this : gref) (Phi : bref -> nat -> Prop)
    (s : State) : Prop :=
  forall r j, residentAt (grids s this) r j -> Phi r j.

(** The invariant of the loops of [generatePairs] over the partitions:
    the grid is exact, the sleep flags are those of [s0], and the bodies
    in the partitions are within [Phi]. *)
Definition sweepInv (fuel : nat) (this : gref) (bodies : RefSet)
    (s0 : State) (Phi : bref -> nat -> Prop) (s : State) : Prop :=
  pairsInv fuel this bodies s /\ sameSleep s0 s /\
  residentsWithin this Phi s.

(** ** Numbers with an integer value *)

(** The number with the integer value [z], for [|z| < 2^53]. *)
Definition ZF (z : Z) : float :=
  match z with
  | Z0 => 0
  | Zpos p => Num.of_Z (Zpos p)
  | Zneg p => - Num.of_Z (Zpos p)
  end.

(** Its mantissa and exponent: the 53 binary digits of a normal number. *)
Definition intMant (p : positive) : positive :=
  Z.to_pos (Z.pos p * 2 ^ (53 - Z.pos (digits2_pos p))).

Definition intExp (p : positive) : Z := Z.pos (digits2_pos p) - 53.

Definition intSF (z : Z) : spec_float :=
  match z with
  | Z0 => S754_zero false
  | Zpos p => S754_finite false (intMant p) (intExp p)
  | Zneg p => S754_finite true (intMant p) (intExp p)
  end.

(** ** The cells of a box, on integers *)

(** The integers from [lo] to [hi]. *)
Definition Zrange (lo hi : Z) : list Z :=
  map (fun i => (lo + Z.of_nat i)%Z) (seq 0 (Z.to_nat (hi - lo + 1))).

(** [Math.max(0, Math.min(n - 1, v))]. *)
Definition clamp (n v : Z) : Z := Z.max 0 (Z.min (n - 1) v).

(** The index of the cell of column [cx] and row [cy], clamped to a grid
    of [W] columns and [H] rows. *)
Definition cellIndex (W H cx cy : Z) : Z := (clamp W cx + clamp H cy * W)%Z.

(** The cells of the columns [a] to [c] of the rows [b] to [d], row by
    row. *)
Definition cellsBetween (W H a b c d : Z) : list Z :=
  concat (map (fun cy => map (fun cx => cellIndex W H cx cy) (Zrange a c))
              (Zrange b d)).

(** The corners of the box lie in cells whose coordinates are integers of
    size up to [2^52], and the box has fewer columns and fewer rows of
    cells than [fuel]. *)
Definition inCells (fuel : nat) (g : SpatialGrid) (box : AABB) : Prop :=
  exists a b c d : Z,
    SpatialGrid.worldToCell g (min box) = mkVector2 (ZF a) (ZF b) /\
    SpatialGrid.worldToCell g (max box) = mkVector2 (ZF c) (ZF d) /\
    (Z.abs a <= 2 ^ 52 /\ Z.abs b <= 2 ^ 52 /\
     Z.abs c <= 2 ^ 52 /\ Z.abs d <= 2 ^ 52)%Z /\
    (Z.max 0 (c - a + 1) < Z.of_nat fuel)%Z /\
    (Z.max 0 (d - b + 1) < Z.of_nat fuel)%Z.

(** A grid of [W] columns and [H] rows with its [W * H] partitions. *)
Definition gridOf (W H : Z) (g : SpatialGrid) : Prop :=
  width g = ZF W /\ height g = ZF H /\
  (0 < W)%Z /\ (0 < H)%Z /\ (W * H < 2 ^ 32)%Z /\
  List.length (partitions g) = Z.to_nat (W * H).

(** ** Methods that return *)

(** [returns P m Q]: from a state of [P], [m] returns normally, with a
    value and a state of [Q]. *)
Definition returns {A : Type} (P : State -> Prop) (m : M A)
    (Q : A -> State -> Prop) : Prop :=
  forall s, P s -> exists a s', m s = (Ok a, s') /\ Q a s'.

(** A method that returns normally from every state. *)
Definition total {A : Type} (m : M A) : Prop :=
  returns (fun _ => True) m (fun _ _ => True).

(** Grid [this] has [W] columns, [H] rows and [W * H] partitions, and the
    box of every body is within the cells that the loops can count. *)
Definition gridSafe (fuel : nat) (this : gref) (W H : Z) (s : State) : Prop :=
  gridOf W H (grids s this) /\
  forall r, inCells fuel (grids s this) (aabb (body s r)).

(** ** Objects of further examples *)

Module DemoCoincident.
Import Demo.
(** Two circles of radius 1 at the same place, and a contact of theirs
    whose normal is not a number. *)
Definition upper : PhysicsBody := circleBody 0 5 5 0 0 1.
Definition lower : PhysicsBody := circleBody 1 5 5 0 0 1.
Definition stacked : State := store upper lower.
Definition overlap : Contact :=
  mkContact 0%nat 1%nat (mkVector2 nan nan) 2 (mkVector2 nan nan).
End DemoCoincident.

Module DemoAdrift.
Import Demo.
(** A body whose box reaches to minus infinity on the left. *)
Definition adrift : PhysicsBody :=
  set_aabb (mkAABB (mkVector2 neg_infinity 5) (mkVector2 5 5))
    (circleBody 0 5 5 0 0 1).
Definition afloat : State := store adrift adrift.
End DemoAdrift.

Module DemoUnbound.
Import Demo.
(** A moving body that was never added to a world. *)
Definition loose : PhysicsBody := circleBody 0 5 5 1 1 1.
Definition unbound : State := store loose loose.
End DemoUnbound.

Module DemoSensor.
Import Demo.
(** The bodies of [DemoStatic], the ball marked as a sensor. *)
Definition marked : State :=
  mkState
    (fun r => match r with
              | 1%nat => set_isSensor true (body DemoStatic.registered 1%nat)
              | _ => body DemoStatic.registered r
              end)
    (grids DemoStatic.registered) (worlds DemoStatic.registered).
End DemoSensor.

(** A flag [isInGrid] that is set stays set. *)
Definition flagStays (b b' : PhysicsBody) : Prop :=
  isInGrid b = true -> isInGrid b' = true.

(** The bodies of [D] are flagged as being in the grid. *)
Definition flagged (D : list bref) (s : State) : Prop :=
  forall r, r ∈ D -> isInGrid (body s r) = true.

(** The sleeping bodies of [D] are flagged as being in the grid. *)
Definition sleepersFlagged (D : list bref) (s : State) : Prop :=
  forall r, r ∈ D -> _isSleeping (body s r) = true ->
            isInGrid (body s r) = true.

(** ** Pairs that are reported once *)

(** No identifier is NaN: [bodyA.id === bodyA.id] holds. *)
Definition idsComparable (s : State) : Prop :=
  forall r, (id (body s r) =? id (body s r)) = true.

(** The first body of every pair is in no partition. *)
Definition firstsGone (this : gref) (acc : list Pair) (s : State) : Prop :=
  forall p, p ∈ acc -> ~ resident (grids s this) (pairA p).

(** No pair is another pair, or itself, in the other order. *)
Definition noSwap (acc : list Pair) : Prop :=
  forall p q, p ∈ acc -> q ∈ acc ->
              ~ (pairA p = pairB q /\ pairB p = pairA q).

(** The invariant of the loops over the partitions. *)
Definition pairsOnce (fuel : nat) (this : gref) (bodies : RefSet)
    (acc : list Pair) (s : State) : Prop :=
  pairsInv fuel this bodies s /\ idsComparable s /\
  NoDup acc /\ noSwap acc /\ firstsGone this acc s.

(** The invariant of the loop over the result [res] of the query for
    [A]: [A] is out of the grid, the bodies of [res] are in it, and the
    second body of every pair of [A] carries the identifier of [A]. *)
Definition pairingWith (fuel : nat) (this : gref) (bodies : RefSet)
    (A : bref) (res : list bref) (acc : list Pair) (s : State) : Prop :=
  pairsOnce fuel this bodies acc s /\
  ~ resident (grids s this) A /\
  (forall B, B ∈ res -> resident (grids s this) B) /\
  (forall B, mkPair A B ∈ acc ->
             (id (body s A) =? _internalLastPairId (body s B)) = true).

(** Two bodies that are awake, each with a box over the cells 0 and 1. *)
Module DemoTwice.
Import Demo.

Definition left : PhysicsBody :=
  set_aabb (mkAABB (mkVector2 9 4) (mkVector2 11 6))
    (circleBody 0 10 5 0 0 1).
Definition right : PhysicsBody :=
  set_aabb (mkAABB (mkVector2 9 4.5) (mkVector2 11 6.5))
    (circleBody 1 10 5.5 0 0 1).
Definition both : State := store left right.
End DemoTwice.

(** ** Pairs that are not missed *)

(** Every body that is flagged is in every cell of its box. *)
Definition gridFull (fuel : nat) (this : gref) (s : State) : Prop :=
  forall r i, isInGrid (body s r) = true ->
              covers fuel (grids s this) (aabb (body s r)) i ->
              residentAt (grids s this) r i.

(** Every body in a partition is one of [bodies]. *)
Definition residentsAmong (this : gref) (bodies : RefSet) (s : State)
  : Prop :=
  forall r, resident (grids s this) r -> r ∈ bodies.

(** The invariant of the first loop of [generatePairs]. *)
Definition insertInv (fuel : nat) (this : gref) (bodies : RefSet)
    (s : State) : Prop :=
  pairsInv fuel this bodies s /\ gridFull fuel this s /\
  residentsAmong this bodies s.

(** The bodies of [D] have no last pair. *)
Definition lastReset (D : list bref) (s : State) : Prop :=
  forall r, r ∈ D -> _internalLastPairId (body s r) = (-1).

(** Among the bodies in the partitions of [s1], an identifier belongs to
    one body: [a.id === b.id] only for [a] and [b] the same body. *)
Definition idsDistinct (this : gref) (s1 : State) : Prop :=
  forall r r', resident (grids s1 this) r -> resident (grids s1 this) r' ->
               (id (body s1 r) =? id (body s1 r')) = true -> r = r'.

(** A grid [g] reached from [s1] by taking bodies out: a body is in the
    cells where it was, or in none. *)
Definition sweptFrom (this : gref) (s1 : State) (g : SpatialGrid) : Prop :=
  (forall r i, residentAt g r i -> residentAt (grids s1 this) r i) /\
  (forall r i j, residentAt g r i -> residentAt (grids s1 this) r j ->
                 residentAt g r j).

(** A body [B] that carries the identifier of [A] as its last pair has
    been reported with [A]. *)
Definition lastReported (this : gref) (s1 : State) (acc : list Pair)
    (s : State) : Prop :=
  forall A B, resident (grids s1 this) A -> resident (grids s1 this) B ->
              (id (body s A) =? _internalLastPairId (body s B)) = true ->
              mkPair A B ∈ acc.

(** Every body, other than [ex], that has left the grid since [s1] has
    been reported with each body it shared a cell with. *)
Definition goneReported (this : gref) (s1 : State) (ex : option bref)
    (acc : list Pair) (s : State) : Prop :=
  forall A B j, A <> B -> Some A <> ex ->
                residentAt (grids s1 this) A j ->
                residentAt (grids s1 this) B j ->
                ~ resident (grids s this) A ->
                mkPair A B ∈ acc \/ mkPair B A ∈ acc.

(** The invariant of the loops over the partitions. *)
Definition pairsComplete (fuel : nat) (this : gref) (bodies : RefSet)
    (s1 : State) (acc : list Pair) (s : State) : Prop :=
  pairsInv fuel this bodies s /\
  (forall r, id (body s r) = id (body s1 r)) /\
  sweptFrom this s1 (grids s this) /\
  lastReported this s1 acc s /\
  goneReported this s1 None acc s.

(** The invariant of the loop over the result of the query for [A], in
    the grid [g0], when the bodies of [done] have been visited. *)
Definition pairingAll (fuel : nat) (this : gref) (bodies : RefSet)
    (s1 : State) (A : bref) (g0 : SpatialGrid) (done : list bref)
    (acc : list Pair) (s : State) : Prop :=
  pairsInv fuel this bodies s /\
  grids s this = g0 /\
  (forall r, id (body s r) = id (body s1 r)) /\
  lastReported this s1 acc s /\
  goneReported this s1 (Some A) acc s /\
  (forall B, B ∈ done -> mkPair A B ∈ acc).

(** ** Pairs that share a cell *)

(** The boxes of the two bodies have a cell in common. *)
Definition shareCell (fuel : nat) (this : gref) (s : State) (A B : bref)
  : Prop :=
  exists j, covers fuel (grids s this) (aabb (body s A)) j /\
            covers fuel (grids s this) (aabb (body s B)) j.

(** The invariant of the loops over the partitions: the boxes and the
    layout are those of [s0], and every pair shares a cell. *)
Definition pairsShare (fuel : nat) (this : gref) (bodies : RefSet)
    (s0 : State) (acc : list Pair) (s : State) : Prop :=
  pairsInv fuel this bodies s /\ gridFrame this s0 s /\
  forall p, p ∈ acc -> shareCell fuel this s0 (pairA p) (pairB p).

(** * Properties *)

(** ** The store *)

Lemma upd_eq {A : Type} (f : nat -> A) (r : nat) (a : A) : upd f r a r = a.
Proof. unfold upd. now rewrite Nat.eqb_refl. Qed.

Lemma upd_ne {A : Type} (f : nat -> A) (r r' : nat) (a : A) :
  r' <> r -> upd f r a r' = f r'.
Proof. intros H. unfold upd. now apply Nat.eqb_neq in H as ->. Qed.

(** Decide a lookup in an updated store. *)
Ltac upd_simpl :=
  repeat (rewrite upd_eq
          || rewrite upd_ne by (assumption || (apply not_eq_sym; assumption))).

Ltac upd_cases r r' :=
  destruct (Nat.eq_dec r r') as [->|?]; upd_simpl.

(** ** Frame conditions *)

Section Frame.

Variable R : State -> State -> Prop.
Hypothesis R_refl : forall s, R s s.
Hypothesis R_trans : forall s1 s2 s3, R s1 s2 -> R s2 s3 -> R s1 s3.

Lemma keeps_ret {A : Type} (a : A) : keeps R (ret a).
Proof. intros s. apply R_refl. Qed.

Lemma keeps_throw {A : Type} : keeps R (@throw A).
Proof. intros s. apply R_refl. Qed.

Lemma keeps_getBody (r : bref) : keeps R (getBody r).
Proof. intros s. apply R_refl. Qed.

Lemma keeps_getGrid (r : gref) : keeps R (getGrid r).
Proof. intros s. apply R_refl. Qed.

Lemma keeps_getWorld (r : wref) : keeps R (getWorld r).
Proof. intros s. apply R_refl. Qed.

Lemma keeps_bind {A B : Type} (m : M A) (k : A -> M B) :
  keeps R m -> (forall a, keeps R (k a)) -> keeps R (bind m k).
Proof.
  intros Hm Hk s. unfold bind. specialize (Hm s).
  destruct (m s) as [[a| |] s1]; cbn in *; try exact Hm.
  eapply R_trans; [exact Hm|apply Hk].
Qed.

Lemma keeps_forEach {A : Type} (l : list A) (f : A -> M unit) :
  (forall a, keeps R (f a)) -> keeps R (forEach l f).
Proof.
  intros Hf. induction l as [|a l IH]; cbn.
  - apply keeps_ret.
  - apply keeps_bind; [apply Hf|intros _; exact IH].
Qed.

Lemma keeps_foldM {A B : Type} (l : list A) (f : B -> A -> M B) :
  (forall b a, keeps R (f b a)) -> forall b, keeps R (foldM l f b).
Proof.
  intros Hf. induction l as [|a l IH]; intros b; cbn.
  - apply keeps_ret.
  - apply keeps_bind; [apply Hf|intros b'; apply IH].
Qed.

Lemma keeps_forEachLive {B : Type} (l : RefSet) (live : M RefSet)
    (f : B -> bref -> M B) :
  keeps R live -> (forall b a, keeps R (f b a)) ->
  forall b, keeps R (forEachLive l live f b).
Proof.
  intros Hl Hf. induction l as [|a l IH]; intros b; cbn.
  - apply keeps_ret.
  - apply keeps_bind; [exact Hl|intros cur].
    apply keeps_bind; [|intros b'; apply IH].
    destruct (set_has a cur); [apply Hf|apply keeps_ret].
Qed.

End Frame.

Lemma keeps_modBody (Rb : PhysicsBody -> PhysicsBody -> Prop) (r : bref)
    (f : PhysicsBody -> PhysicsBody) :
  (forall b, Rb b b) -> (forall b, Rb b (f b)) ->
  keeps (bodywise Rb) (modBody r f).
Proof.
  intros Hrefl Hf s r'. cbn. upd_cases r' r; [apply Hf|apply Hrefl].
Qed.

Lemma keeps_modGrid (Rb : PhysicsBody -> PhysicsBody -> Prop) (r : gref)
    (f : SpatialGrid -> SpatialGrid) :
  (forall b, Rb b b) -> keeps (bodywise Rb) (modGrid r f).
Proof. intros Hrefl s r'. apply Hrefl. Qed.

Lemma keeps_modWorld (Rb : PhysicsBody -> PhysicsBody -> Prop) (r : wref)
    (f : World -> World) :
  (forall b, Rb b b) -> keeps (bodywise Rb) (modWorld r f).
Proof. intros Hrefl s r'. apply Hrefl. Qed.

(** ** Order facts on numbers, from the specification of the primitives *)

Lemma nonneg_not_neg (v : float) : (0 <=? v) = true -> (v <? 0) = false.
Proof.
  rewrite leb_spec, ltb_spec.
  destruct (Prim2SF v) as [s|s| |s m e]; cbn;
    try destruct s; cbn; try reflexivity; try discriminate.
Qed.

(** ** The sum of a number above 1 and a positive number *)

Section AddAboveOne.

Local Open Scope Z_scope.

Lemma digits2_pos_size (p : positive) : digits2_pos p = Pos.size p.
Proof. induction p as [p IH|p IH|]; cbn; now rewrite ?IH. Qed.

Lemma digits2_log2 (p : positive) :
  Z.pos (digits2_pos p) = Z.log2 (Z.pos p) + 1.
Proof.
  rewrite digits2_pos_size. destruct p as [p|p|]; cbn [Z.log2 Pos.size];
    rewrite ?Pos2Z.inj_succ; lia.
Qed.

(** The mantissa of a positive number lies between two powers of 2. *)
Lemma digits2_bounds (p : positive) :
  2 ^ (Z.pos (digits2_pos p) - 1) <= Z.pos p < 2 ^ Z.pos (digits2_pos p).
Proof.
  rewrite digits2_log2.
  pose proof (Z.log2_spec (Z.pos p) ltac:(lia)) as H.
  replace (Z.log2 (Z.pos p) + 1 - 1) with (Z.log2 (Z.pos p)) by lia.
  replace (Z.log2 (Z.pos p) + 1) with (Z.succ (Z.log2 (Z.pos p))) by lia.
  exact H.
Qed.

Lemma digits2_unique (p : positive) (k : Z) :
  2 ^ (k - 1) <= Z.pos p < 2 ^ k -> Z.pos (digits2_pos p) = k.
Proof.
  intros H. rewrite digits2_log2.
  assert (Hk : 1 <= k).
  { destruct (Z_lt_le_dec k 1) as [Hlt|]; [|lia].
    destruct (Z.eq_dec k 0) as [->|]. { cbn in H. lia. }
    rewrite (Z.pow_neg_r 2 k) in H by lia. lia. }
  rewrite (Z.log2_unique (Z.pos p) (k - 1)); [lia|lia|].
  now replace (Z.succ (k - 1)) with k by lia.
Qed.

Lemma shr_1_m (mrs : shr_record) :
  0 <= shr_m mrs -> shr_m (shr_1 mrs) = shr_m mrs / 2.
Proof.
  destruct mrs as [m r s]. cbn [shr_m]. intros Hm.
  rewrite <- Z.div2_div.
  destruct m as [|[p|p|]|p]; cbn; try reflexivity; lia.
Qed.

Lemma pow2_xO (p : positive) :
  2 ^ Z.pos p~0 = 2 ^ Z.pos p * 2 ^ Z.pos p.
Proof.
  replace (Z.pos p~0) with (Z.pos p + Z.pos p) by lia.
  apply Z.pow_add_r; lia.
Qed.

Lemma pow2_xI (p : positive) :
  2 ^ Z.pos p~1 = 2 * (2 ^ Z.pos p * 2 ^ Z.pos p).
Proof.
  replace (Z.pos p~1) with (1 + Z.pos p~0) by lia.
  rewrite Z.pow_add_r, pow2_xO by lia. reflexivity.
Qed.

Lemma iter_shr_1_m (p : positive) :
  forall mrs, 0 <= shr_m mrs ->
    shr_m (SpecFloat.iter_pos shr_1 p mrs) = shr_m mrs / 2 ^ Z.pos p.
Proof.
  induction p as [p IH|p IH|]; intros mrs Hm; cbn [SpecFloat.iter_pos].
  - assert (H1 : 0 <= shr_m (shr_1 mrs)).
    { rewrite shr_1_m by exact Hm. apply Z.div_pos; lia. }
    assert (H2 : 0 <= shr_m (SpecFloat.iter_pos shr_1 p (shr_1 mrs))).
    { rewrite IH by exact H1. apply Z.div_pos; [exact H1|lia]. }
    rewrite IH by exact H2. rewrite IH by exact H1.
    rewrite shr_1_m by exact Hm.
    rewrite !Z.div_div by lia. now rewrite pow2_xI.
  - assert (H2 : 0 <= shr_m (SpecFloat.iter_pos shr_1 p mrs)).
    { rewrite IH by exact Hm. apply Z.div_pos; [exact Hm|lia]. }
    rewrite IH by exact H2. rewrite IH by exact Hm.
    rewrite !Z.div_div by lia. now rewrite pow2_xO.
  - rewrite shr_1_m by exact Hm. reflexivity.
Qed.

Lemma shr_spec (mrs : shr_record) (e n : Z) :
  0 <= n -> 0 <= shr_m mrs ->
  shr_m (fst (shr mrs e n)) = shr_m mrs / 2 ^ n /\ snd (shr mrs e n) = e + n.
Proof.
  intros Hn Hm. destruct n as [|p|p]; cbn [shr fst snd].
  - rewrite Z.pow_0_r, Z.div_1_r. lia.
  - split; [now apply iter_shr_1_m|reflexivity].
  - lia.
Qed.

Lemma shl_align_value (mx : positive) (ex ez : Z) :
  ez <= ex -> Z.pos (fst (shl_align mx ex ez)) = Z.pos mx * 2 ^ (ex - ez).
Proof.
  intros Hle. unfold shl_align.
  destruct (ez - ex) as [|d|d] eqn:Hd; cbn [fst].
  - replace (ex - ez) with 0 by lia. lia.
  - lia.
  - replace (ex - ez) with (Z.pos d) by lia.
    change (Pos.iter xO mx d) with (shift_pos d mx).
    rewrite shift_pos_correct, Z.pow_pos_fold. lia.
Qed.

Lemma round_nearest_even_bounds (m : Z) (l : location) :
  m <= round_nearest_even m l <= m + 1.
Proof.
  destruct l as [|[| |]]; cbn; try lia. destruct (Z.even m); lia.
Qed.

(** A mantissa of at least 53 digits is cut to 53 digits; rounding then
    gives that mantissa or the next one, which may take one digit more. *)
Lemma binary_round_aux_cut (m : positive) (e : Z) :
  53 <= Z.pos (digits2_pos m) ->
  -52 <= Z.pos (digits2_pos m) + e - 53 ->
  match binary_round_aux prec emax false (Z.pos m) e loc_Exact with
  | S754_infinity false => True
  | S754_finite false mr er =>
      (er = Z.pos (digits2_pos m) + e - 53 /\
       Z.pos m / 2 ^ (Z.pos (digits2_pos m) - 53) <= Z.pos mr) \/
      er = Z.pos (digits2_pos m) + e - 52
  | _ => False
  end.
Proof.
  intros Hdg He. pose proof (digits2_bounds m) as Hm.
  set (dg := Z.pos (digits2_pos m)) in *.
  set (n := dg - 53).
  assert (Hn : 0 <= n) by (unfold n; lia).
  unfold binary_round_aux, shr_fexp.
  replace (fexp prec emax (Zdigits2 (Z.pos m) + e) - e) with n
    by (unfold n, fexp, SpecFloat.emin, prec, emax; cbn [Zdigits2];
        fold dg; lia).
  cbn [shr_record_of_loc].
  destruct (shr_spec (Build_shr_record (Z.pos m) false false) e n Hn)
    as [Hm' He']; [cbn; lia|].
  destruct (shr (Build_shr_record (Z.pos m) false false) e n) as [mrs' e'].
  cbn [fst snd shr_m] in Hm', He'. subst e'.
  assert (Hcut : 2 ^ 52 <= shr_m mrs' < 2 ^ 53).
  { rewrite Hm'. assert (Hp : 0 < 2 ^ n) by (apply Z.pow_pos_nonneg; lia).
    replace dg with (53 + n) in Hm by (unfold n; lia).
    replace (53 + n - 1) with (52 + n) in Hm by lia.
    rewrite !Z.pow_add_r in Hm by lia. split.
    - apply Z.div_le_lower_bound; lia.
    - apply Z.div_lt_upper_bound; lia. }
  pose proof (round_nearest_even_bounds (shr_m mrs')
                (loc_of_shr_record mrs')) as Hr.
  set (m1 := round_nearest_even (shr_m mrs') (loc_of_shr_record mrs')) in *.
  destruct m1 as [|p1|p1] eqn:Hm1; [lia| |lia].
  cbn [Zdigits2].
  destruct (Z_lt_le_dec (Z.pos p1) (2 ^ 53)) as [Hlt|Hge].
  - rewrite (digits2_unique p1 53) by (change (53 - 1) with 52; lia).
    replace (fexp prec emax (53 + (e + n)) - (e + n)) with 0
      by (unfold fexp, SpecFloat.emin, prec, emax, n; lia).
    cbn [shr shr_m].
    destruct (e + n <=? emax - prec); [|exact I].
    left. split; [unfold n; lia|]. fold n. lia.
  - assert (Hp1 : Z.pos p1 = 2 ^ 53) by lia.
    rewrite (digits2_unique p1 54)
      by (change (54 - 1) with 53; rewrite Hp1;
          change (2 ^ 54) with (2 * 2 ^ 53); lia).
    replace (fexp prec emax (54 + (e + n)) - (e + n)) with 1
      by (unfold fexp, SpecFloat.emin, prec, emax, n; lia).
    destruct (shr_spec (Build_shr_record (Z.pos p1) false false)
                (e + n) 1 ltac:(lia) ltac:(cbn; lia)) as [Hm2 He2].
    destruct (shr (Build_shr_record (Z.pos p1) false false) (e + n) 1)
      as [mrs2 e2].
    cbn [fst snd shr_m] in Hm2, He2. subst e2. rewrite Hm2, Hp1.
    change (2 ^ 53 / 2 ^ 1) with (Z.pos 4503599627370496).
    cbv iota. destruct (e + n + 1 <=? emax - prec); [|exact I].
    right. unfold n. lia.
Qed.

Lemma SFltb_one_finite (m : positive) (e : Z) :
  SFltb SF_one (S754_finite false m e) = true <->
  -52 < e \/ (e = -52 /\ 2 ^ 52 < Z.pos m).
Proof.
  unfold SFltb, SF_one, SFcompare.
  change (2 ^ 52) with (Z.pos 4503599627370496).
  destruct (Z.compare_spec (-52) e) as [<-|Hlt|Hgt].
  - rewrite Pos.compare_cont_spec. cbn [Pos.switch_Eq].
    change (4503599627370496 ?= m)%positive
      with (Z.pos 4503599627370496 ?= Z.pos m).
    destruct (Z.compare_spec (Z.pos 4503599627370496) (Z.pos m)) as [H|H|H].
    + split; [discriminate|]. intros [H'|[_ H']]; exfalso; lia.
    + split; [intros _|reflexivity]. right. split; [reflexivity|exact H].
    + split; [discriminate|]. intros [H'|[_ H']]; exfalso; lia.
  - split; [intros _; now left|reflexivity].
  - split; [discriminate|]. intros [H|[H _]]; exfalso; lia.
Qed.

Lemma SFadd_above_one (ma : positive) (ea : Z) (md : positive) (ed : Z) :
  bounded prec emax ma ea = true ->
  SFltb SF_one (S754_finite false ma ea) = true ->
  SFltb SF_one
    (SFadd prec emax (S754_finite false ma ea) (S754_finite false md ed))
  = true.
Proof.
  intros Hba Hlt. apply SFltb_one_finite in Hlt.
  unfold bounded, canonical_mantissa in Hba.
  apply andb_prop in Hba as [Hca _]. apply Z.eqb_eq in Hca.
  pose proof (digits2_bounds ma) as Hma.
  assert (Hda : Z.pos (digits2_pos ma) = 53).
  { unfold fexp, SpecFloat.emin, prec, emax in Hca. lia. }
  rewrite Hda in Hma. change (53 - 1) with 52 in Hma.
  cbn [SFadd cond_Zopp].
  set (ez := Z.min ea ed).
  assert (Hza : ez <= ea) by (unfold ez; lia).
  assert (Hzd : ez <= ed) by (unfold ez; lia).
  pose proof (shl_align_value ma ea ez Hza) as Hva.
  pose proof (shl_align_value md ed ez Hzd) as Hvd.
  set (pa := fst (shl_align ma ea ez)) in *.
  set (pd := fst (shl_align md ed ez)) in *.
  change (Z.pos pa + Z.pos pd) with (Z.pos (pa + pd)).
  cbn [binary_normalize]. unfold binary_round.
  assert (HM : Z.pos (pa + pd) = Z.pos ma * 2 ^ (ea - ez) + Z.pos pd)
    by (rewrite <- Hva; lia).
  set (M := (pa + pd)%positive) in *.
  assert (Hpow : 0 < 2 ^ (ea - ez)) by (apply Z.pow_pos_nonneg; lia).
  pose proof (digits2_bounds M) as HdM.
  assert (Hdg : 53 + (ea - ez) <= Z.pos (digits2_pos M)).
  { assert (H : 2 ^ (52 + (ea - ez)) < 2 ^ Z.pos (digits2_pos M)).
    { rewrite Z.pow_add_r by lia. nia. }
    apply Z.pow_lt_mono_r_iff in H; lia. }
  set (dM := Z.pos (digits2_pos M)) in *.
  assert (Hfexp : fexp prec emax (dM + ez) = dM + ez - 53)
    by (unfold fexp, SpecFloat.emin, prec, emax; lia).
  rewrite Hfexp. unfold shl_align.
  destruct (dM + ez - 53 - ez) as [|k|k] eqn:Hk; try lia.
  - pose proof (binary_round_aux_cut M ez ltac:(fold dM; lia)
                  ltac:(fold dM; lia)) as H.
    destruct (binary_round_aux prec emax false (Z.pos M) ez loc_Exact)
      as [sz|[|]| |[|] mr er]; try contradiction; try reflexivity.
    apply SFltb_one_finite. fold dM in H.
    destruct H as [[-> Hmr]| ->]; [|left; lia].
    replace (dM - 53) with 0 in Hmr by lia.
    rewrite Z.pow_0_r, Z.div_1_r in Hmr.
    destruct Hlt as [Hlt|[-> Hlt]]; [left; lia|].
    right. split; [lia|]. replace (-52 - ez) with 0 in HM by lia.
    rewrite Z.pow_0_r in HM. lia.
  - pose proof (binary_round_aux_cut M ez ltac:(fold dM; lia)
                  ltac:(fold dM; lia)) as H.
    destruct (binary_round_aux prec emax false (Z.pos M) ez loc_Exact)
      as [sz|[|]| |[|] mr er]; try contradiction; try reflexivity.
    apply SFltb_one_finite. fold dM in H.
    destruct H as [[-> Hmr]| ->]; [|left; lia].
    destruct Hlt as [Hlt|[-> Hlt]]; [left; lia|].
    destruct (Z_lt_le_dec (-52) (dM + ez - 53)) as [Hgt|Hle]; [now left|].
    right. split; [lia|].
    replace (dM - 53) with (-52 - ez) in Hmr by lia.
    assert (Hq : Z.pos ma <= Z.pos M / 2 ^ (-52 - ez)).
    { apply Z.div_le_lower_bound; [exact Hpow|]. lia. }
    lia.
Qed.

End AddAboveOne.

(** A number above 1 stays above 1 when a positive number is added. *)
Lemma add_above_one (a d : float) :
  (1 <? a) = true -> (0 <? d) = true -> (1 <? a + d) = true.
Proof.
  rewrite !ltb_spec, add_spec.
  change (Prim2SF 1) with SF_one. change (Prim2SF 0) with (S754_zero false).
  pose proof (Prim2SF_valid a) as Hva.
  destruct (Prim2SF a) as [sa|[|]| |[|] ma ea]; try discriminate;
    destruct (Prim2SF d) as [sd|[|]| |[|] md ed]; try discriminate;
    intros Ha Hd; try reflexivity.
  now apply SFadd_above_one.
Qed.

(** ** The sleep state machine of a body *)

Lemma sleepTick_run (this : bref) (dt : float) (s : State) :
  exists s1,
    PhysicsBody.sleepTick this dt s = (Ok tt, s1) /\
    body s1 this = ticked dt (body s this) /\
    (forall r, r <> this -> body s1 r = body s r) /\
    grids s1 = grids s /\ worlds s1 = worlds s.
Proof.
  unfold PhysicsBody.sleepTick, ticked, speed2, bind, getBody, modBody, ret.
  cbn.
  destruct (ltb _ SLEEP_VELOCITY_THRESHOLD); cbn; rewrite ?upd_eq; cbn;
    repeat (match goal with |- context [if ?c then _ else _] =>
              destruct c end);
    eexists; (split; [reflexivity|]); cbn; rewrite ?upd_eq;
    (repeat split; try reflexivity);
    intros r Hr; rewrite ?upd_ne by exact Hr; reflexivity.
Qed.

Lemma ticked_frame (dt : float) (b : PhysicsBody) :
  position (ticked dt b) = position b /\
  velocity (ticked dt b) = velocity b /\
  isStatic (ticked dt b) = isStatic b /\
  _idleTime (ticked dt b) =
    (if speed2 b <? 0.01 then _idleTime b + dt else 0) /\
  _isSleeping (ticked dt b) =
    (if 1 <? _idleTime (ticked dt b) then true else _isSleeping b).
Proof.
  unfold ticked, SLEEP_VELOCITY_THRESHOLD, SLEEP_TIME_THRESHOLD.
  destruct (speed2 b <? 0.01); cbn.
  - destruct (1 <? _idleTime b + dt) eqn:E; cbn; rewrite ?E; auto.
  - destruct (1 <? 0) eqn:E; cbn; rewrite ?E; auto.
Qed.

Lemma ticked_sleeping (dt : float) (b : PhysicsBody) :
  _isSleeping b = true -> _isSleeping (ticked dt b) = true.
Proof.
  intros H. destruct (ticked_frame dt b) as (_ & _ & _ & _ & ->).
  now destruct (ltb 1 _).
Qed.

Lemma integrate_run (this : bref) (dt : float) (s : State) :
  isStatic (body s this) = false ->
  exists s1,
    PhysicsBody.sleepTick this dt s = (Ok tt, s1) /\
    PhysicsBody.integrate this dt s =
      (if _isSleeping (body s1 this) then (Ok tt, s1)
       else PhysicsBody.advance this dt s1).
Proof.
  intros Hs.
  destruct (sleepTick_run this dt s) as (s1 & Ht & _).
  exists s1. split; [exact Ht|].
  unfold PhysicsBody.integrate. unfold bind at 1. unfold getBody at 1.
  rewrite Hs. unfold bind at 1. rewrite Ht.
  unfold bind, getBody, ret. now destruct (_isSleeping (body s1 this)).
Qed.

Lemma advance_isSleeping (this : bref) (dt : float) :
  keeps sameSleep (PhysicsBody.advance this dt).
Proof.
  assert (Hrefl : forall s, sameSleep s s) by (intros s r; reflexivity).
  assert (Htrans : forall s1 s2 s3,
             sameSleep s1 s2 -> sameSleep s2 s3 -> sameSleep s1 s3).
  { intros s1 s2 s3 H12 H23 r. now rewrite H23, H12. }
  assert (Hmod : forall f, (forall b, _isSleeping (f b) = _isSleeping b) ->
                           keeps sameSleep (modBody this f)).
  { intros f Hf. apply keeps_modBody; [reflexivity|exact Hf]. }
  assert (Hg : keeps sameSleep (PhysicsBody.worldGravity this)).
  { unfold PhysicsBody.worldGravity.
    apply keeps_bind; [assumption|apply keeps_getBody, Hrefl|intros b].
    destruct (world b); [|apply keeps_throw, Hrefl].
    apply keeps_bind; [assumption|apply keeps_getWorld, Hrefl|intros w'].
    apply keeps_ret, Hrefl. }
  unfold PhysicsBody.advance.
  repeat (first [exact Hg | apply keeps_bind; [assumption| |intros ?]]);
    apply Hmod; reflexivity.
Qed.

Lemma sleepTick_keeps_sleeping (r this : bref) (dt : float) (s : State) :
  _isSleeping (body s this) = true ->
  _isSleeping (body (snd (PhysicsBody.sleepTick r dt s)) this) = true.
Proof.
  intros H. destruct (sleepTick_run r dt s) as (s1 & -> & Hb & Ho & _).
  cbn. destruct (Nat.eq_dec this r) as [->|Hr].
  - rewrite Hb. now apply ticked_sleeping.
  - now rewrite Ho.
Qed.

Lemma integrate_keeps_sleeping (r this : bref) (dt : float) (s : State) :
  _isSleeping (body s this) = true ->
  _isSleeping (body (snd (PhysicsBody.integrate r dt s)) this) = true.
Proof.
  intros H. destruct (isStatic (body s r)) eqn:Hst.
  - unfold PhysicsBody.integrate, bind, getBody, ret. now rewrite Hst.
  - destruct (integrate_run r dt s Hst) as (s1 & Ht & ->).
    pose proof (sleepTick_keeps_sleeping r this dt s H) as H1.
    rewrite Ht in H1. cbn in H1.
    destruct (_isSleeping (body s1 r)); [exact H1|].
    now rewrite (advance_isSleeping r dt s1 this).
Qed.

Lemma runSleepCalls_keeps_sleeping (cs : list SleepCall) (this : bref) :
  forall s, _isSleeping (body s this) = true ->
            _isSleeping (body (runSleepCalls cs s) this) = true.
Proof.
  induction cs as [|c cs IH]; intros s H; [exact H|].
  cbn. apply IH. destruct c as [r dt|r dt]; cbn.
  - now apply integrate_keeps_sleeping.
  - now apply sleepTick_keeps_sleeping.
Qed.

(** C5: for a non-static body, [integrate(dt)] first runs the sleep check
    ([idleTime] grows by [dt] when the squared speed is below 0.01 and is
    reset to 0 otherwise; an [idleTime] above 1 puts the body to sleep);
    a body that is asleep after the check is left as the check left it, with
    no drag, gravity or position update; and no sequence of [integrate] and
    [sleepTick] calls turns [isSleeping] from true to false. *)
Theorem integrate_sleep_check (this : bref) (dt : float) (s : State) :
  isStatic (body s this) = false ->
  exists s1,
    PhysicsBody.sleepTick this dt s = (Ok tt, s1) /\
    _idleTime (body s1 this) =
      (if speed2 (body s this) <? 0.01
       then _idleTime (body s this) + dt else 0) /\
    _isSleeping (body s1 this) =
      (if 1 <? _idleTime (body s1 this) then true
       else _isSleeping (body s this)) /\
    position (body s1 this) = position (body s this) /\
    velocity (body s1 this) = velocity (body s this) /\
    PhysicsBody.integrate this dt s =
      (if _isSleeping (body s1 this) then (Ok tt, s1)
       else PhysicsBody.advance this dt s1) /\
    (forall (cs : list SleepCall) (r : bref) (s' : State),
        _isSleeping (body s' r) = true ->
        _isSleeping (body (runSleepCalls cs s') r) = true).
Proof.
  intros Hst.
  destruct (integrate_run this dt s Hst) as (s1 & Ht & Hi).
  destruct (sleepTick_run this dt s) as (s1' & Ht' & Hb & _).
  rewrite Ht in Ht'. injection Ht' as <-.
  destruct (ticked_frame dt (body s this)) as (Hp & Hv & _ & Hidle & Hsl).
  exists s1. rewrite Hb.
  repeat split; try assumption.
  - now rewrite <- Hb.
  - intros cs r s'. apply runSleepCalls_keeps_sleeping.
Qed.

Lemma integrate_sleep_check_witness :
  isStatic (body (Demo.store Demo.drowsy Demo.drowsy) 0%nat) = false /\
  exists s1,
    PhysicsBody.integrate 0%nat 0.016 (Demo.store Demo.drowsy Demo.drowsy)
      = (Ok tt, s1) /\
    _isSleeping (body s1 0%nat) = true /\
    position (body s1 0%nat) = mkVector2 5 5.
Proof.
  split; [reflexivity|].
  destruct (integrate_sleep_check 0%nat 0.016
              (Demo.store Demo.drowsy Demo.drowsy) eq_refl)
    as (s1 & Ht & _ & _ & Hp & _ & Hi & _).
  exists s1.
  assert (Hs : _isSleeping (body s1 0%nat) = true).
  { change s1 with (snd (Ok tt, s1)). rewrite <- Ht. vm_compute.
    reflexivity. }
  rewrite Hs in Hi.
  split; [exact Hi|]. split; [exact Hs|]. rewrite Hp. reflexivity.
Defined.

(** ** Registering bodies with a world *)

Lemma World_addBody_run (this : wref) (b : bref) (s : State) :
  exists s',
    World.addBody this b s = (Ok tt, s') /\
    body s' b = set_world (Some this) (body s b) /\
    (forall r, r <> b -> body s' r = body s r) /\
    grids s' = grids s /\
    worlds s' this
      = set_bodies (set_add b (bodies (worlds s this))) (worlds s this) /\
    (forall w, w <> this -> worlds s' w = worlds s w).
Proof.
  unfold World.addBody, bind, modBody, modWorld. cbn.
  eexists. split; [reflexivity|]. cbn. rewrite !upd_eq.
  repeat split; try reflexivity; intros; now rewrite upd_ne.
Qed.

Lemma World_removeBody_run (this : wref) (b : bref) (s : State) :
  exists s',
    World.removeBody this b s = (Ok tt, s') /\
    body s' b = set_world (Some this) (body s b) /\
    (forall r, r <> b -> body s' r = body s r) /\
    grids s' = grids s /\
    worlds s' this
      = set_bodies (set_delete b (bodies (worlds s this))) (worlds s this) /\
    (forall w, w <> this -> worlds s' w = worlds s w).
Proof.
  unfold World.removeBody, bind, modBody, modWorld. cbn.
  eexists. split; [reflexivity|]. cbn. rewrite !upd_eq.
  repeat split; try reflexivity; intros; now rewrite upd_ne.
Qed.

(** C6: [World.addBody] binds the body's [world] reference to this world;
    [World.removeBody] does not unbind it: it assigns this world again, so
    after the removal the body still refers to the world (and a body of
    another world is taken over by this one). *)
Theorem removeBody_leaves_world_bound (this : wref) (b : bref) (s : State) :
  world (body (snd (World.addBody this b s)) b) = Some this /\
  world (body (snd (World.removeBody this b s)) b) = Some this /\
  world (body (snd (World.removeBody this b
                      (snd (World.addBody this b s)))) b) = Some this.
Proof.
  destruct (World_addBody_run this b s) as (s1 & -> & Hb & _).
  destruct (World_removeBody_run this b s) as (s2 & -> & Hb2 & _).
  cbn [snd].
  destruct (World_removeBody_run this b s1) as (s3 & -> & Hb3 & _).
  cbn [snd]. now rewrite Hb, Hb2, Hb3.
Qed.

(** C8: [World.removeBody] changes the world's [bodies] collection and the
    body's [world] reference and nothing else: the grids and every
    [isInGrid] flag are as before, so a resident body stays resident; and
    such a body is still emitted in a candidate pair by the next broad
    phase (and woken by the narrow phase of that frame). *)
Theorem World_removeBody_keeps_grid (this : wref) (b : bref) (s : State) :
  (exists s',
    World.removeBody this b s = (Ok tt, s') /\
    grids s' = grids s /\
    (forall r, isInGrid (body s' r) = isInGrid (body s r)) /\
    (forall g, resident (grids s g) b -> resident (grids s' g) b) /\
    body s' b = set_world (Some this) (body s b) /\
    (forall r, r <> b -> body s' r = body s r) /\
    worlds s' this
      = set_bodies (set_delete b (bodies (worlds s this))) (worlds s this) /\
    (forall w, w <> this -> worlds s' w = worlds s w)) /\
  (let s0 := DemoRemoved.afterRemoval in
   bodies (worlds s0 0%nat) = [0%nat] /\
   resident (grids s0 0%nat) 1%nat /\
   isInGrid (body s0 1%nat) = true /\
   _isSleeping (body s0 1%nat) = true /\
   _collisionPairs (worlds (snd (World.stepBroadPhase 100 0%nat 0.016 s0)) 0%nat)
     = [mkPair 0%nat 1%nat] /\
   _isSleeping (body (snd (World.step 100 0%nat 0.016 s0)) 1%nat) = false).
Proof.
  split.
  - destruct (World_removeBody_run this b s)
      as (s' & Hr & Hb & Ho & Hg & Hw & Hw').
    exists s'. repeat split; try assumption.
    + intros r. destruct (Nat.eq_dec r b) as [->|Hn].
      * now rewrite Hb.
      * now rewrite Ho.
    + intros g. now rewrite Hg.
  - cbv zeta. split; [vm_compute; reflexivity|].
    split; [|repeat split; vm_compute; reflexivity].
    exists 0%nat, [1%nat]. split; [vm_compute; reflexivity|].
    apply list_elem_of_In. now left.
Qed.

(** ** The narrow phase on two circles *)

(** C3: for a pair of circles the narrow phase produces a contact exactly
    when the centre distance is below [rA + rB]; the contact has the normal,
    penetration and point of [circleContact] and both bodies are woken;
    circles of radius 1 at (0,0) and (1.5,0) give penetration 0.5 and
    normal (1,0). *)
Theorem narrowPhase_circles (this : wref) (pair : Pair) (s : State)
    (rA rB : float) :
  shape (body s (pairA pair)) = Circle rA ->
  shape (body s (pairB pair)) = Circle rB ->
  let a := body s (pairA pair) in
  let b := body s (pairB pair) in
  exists s',
    World.narrowPhasePair this pair s = (Ok tt, s') /\
    ((centerDistance a b <? rA + rB) = true ->
       _contacts (worlds s' this)
         = _contacts (worlds s this)
           ++ [circleContact (pairA pair) (pairB pair) a b rA rB] /\
       _isSleeping (body s' (pairA pair)) = false /\
       _isSleeping (body s' (pairB pair)) = false /\
       (forall r, body s' r
                  = if decide (r = pairA pair \/ r = pairB pair)
                    then set_isSleeping false (body s r) else body s r)) /\
    ((centerDistance a b <? rA + rB) = false -> s' = s) /\
    (position a = mkVector2 0 0 -> position b = mkVector2 1.5 0 ->
     rA = 1 -> rB = 1 ->
     exists c, _contacts (worlds s' this) = _contacts (worlds s this) ++ [c] /\
               penetration c = 0.5 /\ normal c = mkVector2 1 0).
Proof.
  intros HA HB a b.
  unfold World.narrowPhasePair, bind, getBody. rewrite HA, HB.
  fold a b. fold (centerDistance a b).
  destruct (centerDistance a b <? rA + rB) eqn:Hd.
  - unfold PhysicsBody.wakeUp, modWorld, modBody, bind. cbn.
    eexists. split; [reflexivity|]. cbn. rewrite !upd_eq.
    split; [intros _|split; [discriminate|]].
    + split; [reflexivity|]. split.
      { upd_cases (pairA pair) (pairB pair); reflexivity. }
      split; [reflexivity|].
      intros r. destruct (decide _) as [[->| ->]|Hn].
      * upd_cases (pairA pair) (pairB pair); reflexivity.
      * upd_cases (pairB pair) (pairA pair); reflexivity.
      * rewrite !upd_ne; [reflexivity|tauto|tauto].
    + intros Hpa Hpb -> ->. eexists. split; [reflexivity|].
      unfold centerDistance. cbn. rewrite Hpa, Hpb. cbn.
      split; vm_compute; reflexivity.
  - exists s. split; [reflexivity|].
    split; [discriminate|]. split; [reflexivity|].
    intros Hpa Hpb -> ->. exfalso.
    unfold centerDistance in Hd. rewrite Hpa, Hpb in Hd. cbn in Hd.
    vm_compute in Hd. discriminate.
Qed.

Lemma narrowPhase_circles_witness :
  shape (body (Demo.store DemoCircles.c0 DemoCircles.c1) 0%nat) = Circle 1 /\
  shape (body (Demo.store DemoCircles.c0 DemoCircles.c1) 1%nat) = Circle 1 /\
  exists s' c,
    World.narrowPhasePair 0%nat (mkPair 0%nat 1%nat)
      (Demo.store DemoCircles.c0 DemoCircles.c1) = (Ok tt, s') /\
    _contacts (worlds s' 0%nat) = [c] /\
    penetration c = 0.5 /\ normal c = mkVector2 1 0.
Proof.
  split; [reflexivity|]. split; [reflexivity|].
  destruct (narrowPhase_circles 0%nat (mkPair 0%nat 1%nat)
              (Demo.store DemoCircles.c0 DemoCircles.c1) 1 1
              eq_refl eq_refl)
    as (s' & Hrun & _ & _ & Hex).
  destruct (Hex eq_refl eq_refl eq_refl eq_refl) as (c & Hc & Hp & Hn).
  exists s', c. repeat split; assumption.
Defined.

(** ** Resolution of a contact *)

Lemma fixPenetration_run (c : Contact) (s : State) :
  exists s',
    World.fixPenetration c (effInvMass (body s (bodyA c)))
      (effInvMass (body s (bodyB c))) s = (Ok tt, s') /\
    grids s' = grids s /\ worlds s' = worlds s /\
    (forall r, body s' r = corrected c (body s) r).
Proof.
  unfold World.fixPenetration, corrected, correctionOf, World.when,
    World.modPosition, pushedBack, pushedForth, bind, getBody, modBody, ret.
  destruct (isStatic (body s (bodyA c))) eqn:HA;
    destruct (isStatic (body s (bodyB c))) eqn:HB; cbn;
    (eexists; split; [reflexivity|]; cbn;
     split; [reflexivity|]; split; [reflexivity|]; intros r).
  - reflexivity.
  - upd_cases r (bodyB c); reflexivity.
  - upd_cases r (bodyA c); reflexivity.
  - upd_cases r (bodyB c).
    + upd_cases (bodyB c) (bodyA c); reflexivity.
    + upd_cases r (bodyA c); reflexivity.
Qed.

(** C4: a contact of two static bodies changes nothing; otherwise, when the
    relative velocity along the normal is [>= 0], no velocity changes (the
    impulse and friction steps are skipped) and the positional correction
    still runs: [corrected] moves body A against the normal and body B along
    it, each scaled by [correctionOf] and its effective inverse mass, and
    leaves a static body where it is. *)
Theorem resolveContact_separating (c : Contact) (s : State) :
  let a := body s (bodyA c) in
  let b := body s (bodyB c) in
  (isStatic a = true -> isStatic b = true ->
   World.resolveContact c s = (Ok tt, s)) /\
  (isStatic a && isStatic b = false ->
   (0 <=? velAlongNormal c s) = true ->
   exists s',
     World.resolveContact c s = (Ok tt, s') /\
     grids s' = grids s /\ worlds s' = worlds s /\
     (forall r, velocity (body s' r) = velocity (body s r)) /\
     (forall r, body s' r = corrected c (body s) r) /\
     (bodyA c <> bodyB c ->
      position (body s' (bodyA c))
        = (if isStatic a then position a
           else pushedBack (normal c)
                  (correctionOf c (effInvMass a) (effInvMass b))
                  (_invMass a) (position a)) /\
      position (body s' (bodyB c))
        = (if isStatic b then position b
           else pushedForth (normal c)
                  (correctionOf c (effInvMass a) (effInvMass b))
                  (_invMass b) (position b)))).
Proof.
  intros a b. split.
  - intros HA HB. unfold World.resolveContact, bind, getBody, ret.
    fold a b. now rewrite HA, HB.
  - intros Hst Hv. apply nonneg_not_neg in Hv.
    destruct (fixPenetration_run c s) as (s' & Hrun & Hg & Hw & Hb).
    exists s'. split.
    { unfold World.resolveContact. unfold bind at 1 2. unfold getBody at 1 2.
      fold a b. rewrite Hst.
      unfold velAlongNormal in Hv. fold a b in Hv. rewrite Hv.
      unfold World.when, bind, ret. exact Hrun. }
    split; [exact Hg|]. split; [exact Hw|].
    split; [|split; [exact Hb|]].
    + intros r. rewrite Hb. unfold corrected. fold a b.
      destruct (isStatic a), (isStatic b); cbn.
      * reflexivity.
      * upd_cases r (bodyB c); reflexivity.
      * upd_cases r (bodyA c); reflexivity.
      * upd_cases r (bodyB c).
        -- upd_cases (bodyB c) (bodyA c); reflexivity.
        -- upd_cases r (bodyA c); reflexivity.
    + intros Hne. rewrite !Hb. unfold corrected, effInvMass. fold a b.
      destruct (isStatic a) eqn:HA, (isStatic b) eqn:HB; cbn; upd_simpl;
        cbn; rewrite ?HA, ?HB; split; reflexivity.
Qed.

Lemma resolveContact_separating_witness :
  (0 <=? velAlongNormal DemoContact.contact DemoContact.apart) = true /\
  exists s',
    World.resolveContact DemoContact.contact DemoContact.apart = (Ok tt, s') /\
    velocity (body s' 0%nat) = mkVector2 (-1) 0 /\
    velocity (body s' 1%nat) = mkVector2 1 0 /\
    position (body s' 0%nat) = mkVector2 (-0.049) 0 /\
    position (body s' 1%nat) = mkVector2 1.549 0.
Proof.
  split; [vm_compute; reflexivity|].
  destruct (resolveContact_separating DemoContact.contact DemoContact.apart)
    as [_ H].
  destruct (H eq_refl eq_refl) as (s' & Hrun & _ & _ & Hv & _ & Hp).
  destruct Hp as [HpA HpB]; [discriminate|].
  exists s'. split; [exact Hrun|]. cbn in HpA, HpB. rewrite !Hv, HpA, HpB.
  repeat split; vm_compute; reflexivity.
Defined.

(** ** Static bodies in a frame *)

(** C1, at an input where it fails: a static body keeps its position over a
    frame, but the final step of the friction block sets a velocity
    component below 0.01 to 0 without asking whether the body is static. *)
Theorem static_velocity_snapped :
  isStatic (body DemoStatic.registered 0%nat) = true /\
  velocity (body DemoStatic.registered 0%nat) = mkVector2 0.005 0 /\
  fst (World.step 100 0%nat 0.016 DemoStatic.registered) = Ok tt /\
  velocity (body (snd (World.step 100 0%nat 0.016 DemoStatic.registered)) 0%nat)
    = mkVector2 0 0 /\
  position (body (snd (World.step 100 0%nat 0.016 DemoStatic.registered)) 0%nat)
    = mkVector2 5 5.
Proof. repeat split; vm_compute; reflexivity. Qed.

Lemma staticRel_refl (b : PhysicsBody) : staticRel b b.
Proof. split; [reflexivity|]. intros _. auto. Qed.

Lemma staticRel_trans (b1 b2 b3 : PhysicsBody) :
  staticRel b1 b2 -> staticRel b2 b3 -> staticRel b1 b3.
Proof.
  intros [H12 K12] [H23 K23]. split; [congruence|].
  intros Hs. destruct (K12 Hs) as (Hp & Hx & Hy).
  destruct K23 as (Hp' & Hx' & Hy'); [congruence|].
  split; [congruence|].
  split; [destruct Hx' as [->|Hx']|destruct Hy' as [->|Hy']]; auto.
Qed.

Lemma staticKept_refl (s : State) : staticKept s s.
Proof. intros r. apply staticRel_refl. Qed.

Lemma staticKept_trans (s1 s2 s3 : State) :
  staticKept s1 s2 -> staticKept s2 s3 -> staticKept s1 s3.
Proof. intros H12 H23 r. eapply staticRel_trans; eauto. Qed.

(** An update of fields other than the static flag, the position and the
    velocity. *)
Lemma keeps_static_other (r : bref) (f : PhysicsBody -> PhysicsBody) :
  (forall b, isStatic (f b) = isStatic b /\ position (f b) = position b /\
             velocity (f b) = velocity b) ->
  keeps staticKept (modBody r f).
Proof.
  intros Hf. apply keeps_modBody; [apply staticRel_refl|].
  intros b. destruct (Hf b) as (Hs & Hp & Hv). unfold staticRel.
  rewrite Hs, Hp, Hv. auto.
Qed.

(** Setting a component of the velocity to 0. *)
Lemma keeps_static_snap (r : bref) (f : Vector2 -> Vector2) :
  (forall v, (x (f v) = x v \/ x (f v) = 0) /\
             (y (f v) = y v \/ y (f v) = 0)) ->
  keeps staticKept (World.modVelocity r f).
Proof.
  intros Hf. apply keeps_modBody; [apply staticRel_refl|].
  intros b. split; [reflexivity|]. intros _. split; [reflexivity|].
  apply Hf.
Qed.

(** An operation that leaves the state as it is. *)
Lemma keeps_read {A : Type} (m : M A) :
  (forall s, snd (m s) = s) -> keeps staticKept m.
Proof. intros H s. rewrite H. apply staticKept_refl. Qed.

Ltac keeps_static :=
  repeat first
    [ apply (keeps_ret _ staticKept_refl)
    | apply (keeps_throw _ staticKept_refl)
    | apply (keeps_getBody _ staticKept_refl)
    | apply (keeps_getGrid _ staticKept_refl)
    | apply (keeps_getWorld _ staticKept_refl)
    | apply (keeps_modGrid staticRel); apply staticRel_refl
    | apply (keeps_modWorld staticRel); apply staticRel_refl
    | apply keeps_static_other; intros ?; repeat split; reflexivity
    | apply (keeps_forEach _ staticKept_refl staticKept_trans); intros ?
    | apply (keeps_foldM _ staticKept_refl staticKept_trans); intros ? ?
    | apply (keeps_forEachLive _ staticKept_refl staticKept_trans);
      [|intros ? ?]
    | apply (keeps_bind _ staticKept_trans); [|intros ?]
    | match goal with
      | |- keeps _ (if ?c then _ else _) => destruct c
      | |- keeps _ (match ?c with _ => _ end) => destruct c
      end ].

Lemma sleepTick_static (this : bref) (dt : float) :
  keeps staticKept (PhysicsBody.sleepTick this dt).
Proof. unfold PhysicsBody.sleepTick. keeps_static. Qed.

Lemma wakeUp_static (this : bref) :
  keeps staticKept (PhysicsBody.wakeUp this).
Proof. unfold PhysicsBody.wakeUp. keeps_static. Qed.

Lemma worldGravity_static (this : bref) :
  keeps staticKept (PhysicsBody.worldGravity this).
Proof. unfold PhysicsBody.worldGravity. keeps_static. Qed.

Lemma keepsFrom_keeps {A : Type} (P : State -> Prop)
    (R : State -> State -> Prop) (m : M A) :
  keeps R m -> keepsFrom P R m.
Proof. intros H s _. apply H. Qed.

Lemma keepsFrom_bind {A B : Type} (P : State -> Prop) (m : M A)
    (k : A -> M B) :
  (forall s s', P s -> staticKept s s' -> P s') ->
  keepsFrom P staticKept m -> (forall a, keepsFrom P staticKept (k a)) ->
  keepsFrom P staticKept (bind m k).
Proof.
  intros Hst Hm Hk s HP. unfold bind. specialize (Hm s HP).
  destruct (m s) as [[a| |] s1]; cbn in *; try exact Hm.
  eapply staticKept_trans; [exact Hm|]. apply Hk. eapply Hst; eauto.
Qed.

(** Any update of a body that is not static and stays so. *)
Lemma modBody_dynamic (P : State -> Prop) (r : bref)
    (f : PhysicsBody -> PhysicsBody) :
  (forall s, P s -> isStatic (body s r) = false) ->
  (forall b, isStatic (f b) = isStatic b) ->
  keepsFrom P staticKept (modBody r f).
Proof.
  intros HP Hf s Hs r'. cbn. upd_cases r' r; [|apply staticRel_refl].
  split; [apply Hf|]. rewrite (HP s Hs). discriminate.
Qed.

Lemma advance_static (this : bref) (dt : float) :
  keepsFrom (fun s => isStatic (body s this) = false) staticKept
    (PhysicsBody.advance this dt).
Proof.
  assert (Hst : forall s s', isStatic (body s this) = false ->
                             staticKept s s' ->
                             isStatic (body s' this) = false).
  { intros s s' Hs H. destruct (H this) as [-> _]. exact Hs. }
  unfold PhysicsBody.advance.
  repeat first
    [ apply keepsFrom_keeps, worldGravity_static
    | apply (modBody_dynamic _ this); [auto|reflexivity]
    | apply keepsFrom_bind; [exact Hst| |intros ?] ].
Qed.

Lemma integrate_static (this : bref) (dt : float) :
  keeps staticKept (PhysicsBody.integrate this dt).
Proof.
  intros s. unfold PhysicsBody.integrate. unfold bind at 1.
  unfold getBody at 1. destruct (isStatic (body s this)) eqn:Hs.
  - apply staticKept_refl.
  - revert s Hs.
    change (keepsFrom (fun s => isStatic (body s this) = false) staticKept
              (PhysicsBody.sleepTick this dt ;;
               let* b := getBody this in
               if _isSleeping b then ret tt
               else PhysicsBody.advance this dt)).
    apply keepsFrom_bind.
    + intros s s' Hs H. destruct (H this) as [-> _]. exact Hs.
    + apply keepsFrom_keeps, sleepTick_static.
    + intros _. apply keepsFrom_bind.
      * intros s s' Hs H. destruct (H this) as [-> _]. exact Hs.
      * apply keepsFrom_keeps. keeps_static.
      * intros b. destruct (_isSleeping b);
          [apply keepsFrom_keeps; keeps_static|apply advance_static].
Qed.

Lemma narrowPhasePair_static (this : wref) (pair : Pair) :
  keeps staticKept (World.narrowPhasePair this pair).
Proof.
  unfold World.narrowPhasePair, PhysicsBody.wakeUp. keeps_static.
Qed.

Lemma getCellsInAABB_static (fuel : nat) (this : gref) (box : AABB) :
  keeps staticKept (SpatialGrid.getCellsInAABB fuel this box).
Proof. apply keeps_read. reflexivity. Qed.

Lemma updPartition_static (this : gref) (c : float) (f : RefSet -> RefSet) :
  keeps staticKept (SpatialGrid.updPartition this c f).
Proof. unfold SpatialGrid.updPartition. keeps_static. Qed.

Lemma addBody_static (fuel : nat) (this : gref) (b : bref) :
  keeps staticKept (SpatialGrid.addBody fuel this b).
Proof.
  unfold SpatialGrid.addBody.
  apply (keeps_bind _ staticKept_trans); [keeps_static|intros bd].
  apply (keeps_bind _ staticKept_trans);
    [apply getCellsInAABB_static|intros cells].
  apply (keeps_bind _ staticKept_trans); [|intros u; keeps_static].
  apply (keeps_forEach _ staticKept_refl staticKept_trans). intros c.
  apply updPartition_static.
Qed.

Lemma removeBody_static (fuel : nat) (this : gref) (b : bref) :
  keeps staticKept (SpatialGrid.removeBody fuel this b).
Proof.
  unfold SpatialGrid.removeBody.
  apply (keeps_bind _ staticKept_trans); [keeps_static|intros bd].
  apply (keeps_bind _ staticKept_trans);
    [apply getCellsInAABB_static|intros cells].
  apply (keeps_bind _ staticKept_trans); [|intros u; keeps_static].
  apply (keeps_forEach _ staticKept_refl staticKept_trans). intros c.
  apply updPartition_static.
Qed.

Lemma queryAABB_static (fuel : nat) (this : gref) (box : AABB) :
  keeps staticKept (SpatialGrid.queryAABB fuel this box).
Proof.
  unfold SpatialGrid.queryAABB.
  apply (keeps_bind _ staticKept_trans);
    [apply getCellsInAABB_static|intros cells].
  keeps_static.
Qed.

Lemma generatePairs_static (fuel : nat) (this : gref) (bodies : RefSet) :
  keeps staticKept (SpatialGrid.generatePairs fuel this bodies).
Proof.
  unfold SpatialGrid.generatePairs.
  apply (keeps_bind _ staticKept_trans).
  { apply (keeps_forEach _ staticKept_refl staticKept_trans). intros b.
    apply (keeps_bind _ staticKept_trans); [keeps_static|intros u].
    apply (keeps_bind _ staticKept_trans); [keeps_static|intros bd].
    destruct (isInGrid bd); [keeps_static|apply addBody_static]. }
  intros u. apply (keeps_bind _ staticKept_trans); [keeps_static|intros g].
  apply (keeps_foldM _ staticKept_refl staticKept_trans). intros acc i.
  apply (keeps_bind _ staticKept_trans); [keeps_static|intros g'].
  destruct (partitions g' !! i) as [partition|]; [|keeps_static].
  apply (keeps_forEachLive _ staticKept_refl staticKept_trans);
    [keeps_static|].
  intros acc' A. unfold SpatialGrid.pairsOf.
  apply (keeps_bind _ staticKept_trans); [keeps_static|intros a].
  destruct (_isSleeping a); [keeps_static|].
  apply (keeps_bind _ staticKept_trans); [apply removeBody_static|intros u'].
  apply (keeps_bind _ staticKept_trans); [keeps_static|intros a'].
  apply (keeps_bind _ staticKept_trans); [apply queryAABB_static|intros res].
  apply (keeps_foldM _ staticKept_refl staticKept_trans). intros acc'' B.
  unfold SpatialGrid.pairWith. keeps_static.
Qed.

Lemma stepBroadPhase_static (fuel : nat) (this : wref) (dt : float) :
  keeps staticKept (World.stepBroadPhase fuel this dt).
Proof.
  unfold World.stepBroadPhase.
  apply (keeps_bind _ staticKept_trans); [keeps_static|intros w].
  apply (keeps_bind _ staticKept_trans); [keeps_static|intros u].
  apply (keeps_bind _ staticKept_trans); [keeps_static|intros w'].
  apply (keeps_bind _ staticKept_trans);
    [apply generatePairs_static|intros pairs].
  keeps_static.
Qed.

(** The flags of the bodies of a contact stay what they are. *)
Lemma staticFlags_stable (A B : bref) (stA stB : bool) (s s' : State) :
  staticFlags A B stA stB s -> staticKept s s' -> staticFlags A B stA stB s'.
Proof.
  intros [HA HB] H. destruct (H A) as [HA' _]. destruct (H B) as [HB' _].
  split; congruence.
Qed.

(** An update of the velocity or position of a body of the contact, under
    the guard that the body is not static. *)
Lemma guarded_static (A B : bref) (stA stB : bool) (r : bref) (st : bool)
    (m : M unit) :
  (forall s, staticFlags A B stA stB s -> isStatic (body s r) = st) ->
  (keepsFrom (fun s => isStatic (body s r) = false) staticKept m) ->
  keepsFrom (staticFlags A B stA stB) staticKept (World.when (negb st) m).
Proof.
  intros Hr Hm s Hs. destruct st; cbn.
  - apply staticKept_refl.
  - apply Hm. now apply Hr.
Qed.

Lemma modVelocity_twice_dynamic (r : bref) (f g : Vector2 -> Vector2) :
  keepsFrom (fun s => isStatic (body s r) = false) staticKept
    (World.modVelocity r f ;; World.modVelocity r g).
Proof.
  apply keepsFrom_bind.
  - intros s s' Hs H. destruct (H r) as [-> _]. exact Hs.
  - apply (modBody_dynamic _ r); [auto|reflexivity].
  - intros _. apply (modBody_dynamic _ r); [auto|reflexivity].
Qed.

Lemma modPosition_twice_dynamic (r : bref) (f g : Vector2 -> Vector2) :
  keepsFrom (fun s => isStatic (body s r) = false) staticKept
    (World.modPosition r f ;; World.modPosition r g).
Proof.
  apply keepsFrom_bind.
  - intros s s' Hs H. destruct (H r) as [-> _]. exact Hs.
  - apply (modBody_dynamic _ r); [auto|reflexivity].
  - intros _. apply (modBody_dynamic _ r); [auto|reflexivity].
Qed.

(** Reading a body of the contact: its flag is the known one. *)
Lemma getBody_flag (A B : bref) (stA stB : bool) (r : bref) (st : bool)
    {X : Type} (k : PhysicsBody -> M X) :
  (forall s, staticFlags A B stA stB s -> isStatic (body s r) = st) ->
  (forall a, isStatic a = st ->
             keepsFrom (staticFlags A B stA stB) staticKept (k a)) ->
  keepsFrom (staticFlags A B stA stB) staticKept (bind (getBody r) k).
Proof.
  intros Hr Hk s Hs. unfold bind, getBody. apply Hk; [now apply Hr|exact Hs].
Qed.

(** The last statements of the friction block: a component is set to 0,
    static or not. *)
Lemma when_snap_static (P : State -> Prop) (c : bool) (r : bref)
    (f : Vector2 -> Vector2) :
  (forall v, (x (f v) = x v \/ x (f v) = 0) /\
             (y (f v) = y v \/ y (f v) = 0)) ->
  keepsFrom P staticKept (World.when c (World.modVelocity r f)).
Proof.
  intros Hf. apply keepsFrom_keeps. destruct c; cbn.
  - now apply keeps_static_snap.
  - apply (keeps_ret _ staticKept_refl).
Qed.

Section Contact.

Variables A B : bref.
Variables stA stB : bool.

Lemma flagA (s : State) : staticFlags A B stA stB s -> isStatic (body s A) = stA.
Proof. now intros [H _]. Qed.

Lemma flagB (s : State) : staticFlags A B stA stB s -> isStatic (body s B) = stB.
Proof. now intros [_ H]. Qed.

Ltac contact_step :=
  first
    [ apply (getBody_flag A B stA stB A stA); [exact flagA|intros ? ?]
    | apply (getBody_flag A B stA stB B stB); [exact flagB|intros ? ?]
    | apply when_snap_static; intros ?; cbn; auto
    | apply keepsFrom_bind; [apply staticFlags_stable| |intros ?] ].

Lemma applyFriction_static (invMassA invMassB : float) (tangent : Vector2)
    (j jt : float) :
  keepsFrom (staticFlags A B stA stB) staticKept
    (World.applyFriction A B invMassA invMassB tangent j jt).
Proof.
  unfold World.applyFriction.
  apply (getBody_flag A B stA stB A stA); [exact flagA|intros a Ha].
  apply (getBody_flag A B stA stB B stB); [exact flagB|intros b Hb].
  cbv zeta. rewrite Ha, Hb.
  apply keepsFrom_bind; [apply staticFlags_stable| |intros u1].
  { apply (guarded_static A B stA stB A stA); [exact flagA|].
    apply modVelocity_twice_dynamic. }
  apply keepsFrom_bind; [apply staticFlags_stable| |intros u2].
  { apply (guarded_static A B stA stB B stB); [exact flagB|].
    apply modVelocity_twice_dynamic. }
  repeat contact_step.
Qed.

Lemma applyImpulse_static (c : Contact) (invMassA invMassB : float)
    (rv : Vector2) (vn : float) :
  bodyA c = A -> bodyB c = B ->
  keepsFrom (staticFlags A B stA stB) staticKept
    (World.applyImpulse c invMassA invMassB rv vn).
Proof.
  intros HA HB. unfold World.applyImpulse. rewrite HA, HB. cbv zeta.
  apply (getBody_flag A B stA stB A stA); [exact flagA|intros a Ha].
  apply (getBody_flag A B stA stB B stB); [exact flagB|intros b Hb].
  rewrite Ha, Hb.
  apply keepsFrom_bind; [apply staticFlags_stable| |intros u1].
  { apply (guarded_static A B stA stB A stA); [exact flagA|].
    apply modVelocity_twice_dynamic. }
  apply keepsFrom_bind; [apply staticFlags_stable| |intros u2].
  { apply (guarded_static A B stA stB B stB); [exact flagB|].
    apply modVelocity_twice_dynamic. }
  unfold World.when at 1. destruct (0.01 <? _).
  - apply applyFriction_static.
  - apply keepsFrom_keeps, (keeps_ret _ staticKept_refl).
Qed.

Lemma fixPenetration_static (c : Contact) (invMassA invMassB : float) :
  bodyA c = A -> bodyB c = B ->
  keepsFrom (staticFlags A B stA stB) staticKept
    (World.fixPenetration c invMassA invMassB).
Proof.
  intros HA HB. unfold World.fixPenetration. rewrite HA, HB. cbv zeta.
  apply (getBody_flag A B stA stB A stA); [exact flagA|intros a Ha].
  apply (getBody_flag A B stA stB B stB); [exact flagB|intros b Hb].
  rewrite Ha, Hb.
  apply keepsFrom_bind; [apply staticFlags_stable| |intros u1].
  { apply (guarded_static A B stA stB A stA); [exact flagA|].
    apply modPosition_twice_dynamic. }
  apply (guarded_static A B stA stB B stB); [exact flagB|].
  apply modPosition_twice_dynamic.
Qed.

Lemma resolveContact_from (c : Contact) :
  bodyA c = A -> bodyB c = B ->
  keepsFrom (staticFlags A B stA stB) staticKept (World.resolveContact c).
Proof.
  intros HA HB. unfold World.resolveContact. rewrite HA, HB.
  apply (getBody_flag A B stA stB A stA); [exact flagA|intros a Ha].
  apply (getBody_flag A B stA stB B stB); [exact flagB|intros b Hb].
  cbv zeta. destruct (isStatic a && isStatic b).
  - apply keepsFrom_keeps, (keeps_ret _ staticKept_refl).
  - apply keepsFrom_bind; [apply staticFlags_stable| |intros u].
    + unfold World.when at 1. destruct (_ <? 0).
      * now apply applyImpulse_static.
      * apply keepsFrom_keeps, (keeps_ret _ staticKept_refl).
    + now apply fixPenetration_static.
Qed.

End Contact.

Lemma resolveContact_static (c : Contact) :
  keeps staticKept (World.resolveContact c).
Proof.
  intros s.
  apply (resolveContact_from (bodyA c) (bodyB c)
           (isStatic (body s (bodyA c))) (isStatic (body s (bodyB c))) c
           eq_refl eq_refl).
  split; reflexivity.
Qed.

Lemma step_static (fuel : nat) (this : wref) (dt : float) :
  keeps staticKept (World.step fuel this dt).
Proof.
  unfold World.step.
  apply (keeps_bind _ staticKept_trans);
    [apply stepBroadPhase_static|intros u1].
  apply (keeps_bind _ staticKept_trans); [|intros u2].
  { unfold World.stepNarrowPhase.
    apply (keeps_bind _ staticKept_trans); [keeps_static|intros w].
    apply (keeps_forEach _ staticKept_refl staticKept_trans). intros p.
    apply narrowPhasePair_static. }
  apply (keeps_bind _ staticKept_trans); [|intros u3].
  { unfold World.stepResolveStaticCollisions. keeps_static. }
  apply (keeps_bind _ staticKept_trans); [|intros u4].
  { unfold World.stepResolveCollisions.
    apply (keeps_bind _ staticKept_trans); [keeps_static|intros w].
    apply (keeps_forEach _ staticKept_refl staticKept_trans). intros c.
    apply resolveContact_static. }
  apply (keeps_bind _ staticKept_trans); [|intros u5].
  { unfold World.stepIntegrate.
    apply (keeps_bind _ staticKept_trans); [keeps_static|intros w].
    apply (keeps_forEach _ staticKept_refl staticKept_trans). intros b.
    apply integrate_static. }
  unfold World.postStep. keeps_static.
Qed.

Lemma applyForce_static (this : bref) (force : Vector2) :
  keeps staticKept (PhysicsBody.applyForce this force).
Proof.
  intros s. unfold PhysicsBody.applyForce. unfold bind at 1.
  unfold getBody at 1. destruct (isStatic (body s this)) eqn:Hs.
  - apply staticKept_refl.
  - revert s Hs.
    change (keepsFrom (fun s => isStatic (body s this) = false) staticKept
              (modBody this (fun b =>
                 set_velocity
                   (mkVector2 (x (velocity b) + x force * _invMass b)
                              (y (velocity b))) b) ;;
               modBody this (fun b =>
                 set_velocity
                   (mkVector2 (x (velocity b))
                              (y (velocity b) + y force * _invMass b)) b))).
    apply keepsFrom_bind.
    + intros s s' Hs H. destruct (H this) as [-> _]. exact Hs.
    + apply (modBody_dynamic _ this); [auto|reflexivity].
    + intros _. apply (modBody_dynamic _ this); [auto|reflexivity].
Qed.

Lemma runFrameCalls_static (fuel : nat) (this : wref) (cs : list FrameCall) :
  forall s, staticKept s (runFrameCalls fuel this cs s).
Proof.
  induction cs as [|c cs IH]; intros s; cbn.
  - apply staticKept_refl.
  - eapply staticKept_trans; [|apply IH]. destruct c as [dt|r force|g]; cbn.
    + apply step_static.
    + apply applyForce_static.
    + apply (keeps_modWorld staticRel), staticRel_refl.
Qed.

(** What does hold of a static body: over any number of frames, with any
    time steps, forces and gravity, it stays static and keeps its position,
    and each component of its velocity is what it was or has been set to
    0. *)
Theorem static_position_kept (fuel : nat) (this : wref)
    (cs : list FrameCall) (s : State) (r : bref) :
  isStatic (body s r) = true ->
  isStatic (body (runFrameCalls fuel this cs s) r) = true /\
  position (body (runFrameCalls fuel this cs s) r) = position (body s r) /\
  (x (velocity (body (runFrameCalls fuel this cs s) r))
   = x (velocity (body s r))
   \/ x (velocity (body (runFrameCalls fuel this cs s) r)) = 0) /\
  (y (velocity (body (runFrameCalls fuel this cs s) r))
   = y (velocity (body s r))
   \/ y (velocity (body (runFrameCalls fuel this cs s) r)) = 0).
Proof.
  intros Hs. destruct (runFrameCalls_static fuel this cs s r) as [Hst H].
  split; [congruence|]. now apply H.
Qed.


(** ** Partial correctness *)

Lemma hoare_conseq {A : Type} (P P' : State -> Prop) (m : M A)
    (Q Q' : A -> State -> Prop) :
  (forall s, P' s -> P s) -> (forall a s, Q a s -> Q' a s) ->
  hoare P m Q -> hoare P' m Q'.
Proof. intros HP HQ H s a s' Hs Hm. eapply HQ, H; eauto. Qed.

Lemma hoare_bind {A B : Type} (P : State -> Prop) (Q : A -> State -> Prop)
    (R : B -> State -> Prop) (m : M A) (k : A -> M B) :
  hoare P m Q -> (forall a, hoare (Q a) (k a) R) -> hoare P (bind m k) R.
Proof.
  intros Hm Hk s b s' HP. unfold bind.
  destruct (m s) as [[a| |] s1] eqn:E; try discriminate.
  intros Hr. eapply Hk; [|exact Hr]. eapply Hm; eauto.
Qed.

Lemma hoare_foldM {A B : Type} (I : B -> State -> Prop) (l : list A)
    (f : B -> A -> M B) :
  (forall b a, a ∈ l -> hoare (I b) (f b a) I) ->
  forall b, hoare (I b) (foldM l f b) I.
Proof.
  induction l as [|a l IH]; intros Hf b; cbn.
  - intros s b' s' HI H. inversion H; subst. exact HI.
  - eapply hoare_bind.
    + apply Hf. apply elem_of_cons. now left.
    + intros b'. apply IH. intros b0 a0 Ha0. apply Hf.
      apply elem_of_cons. now right.
Qed.

Lemma hoare_forEach {A : Type} (I : State -> Prop) (l : list A)
    (f : A -> M unit) :
  (forall a, a ∈ l -> hoare I (f a) (fun _ => I)) ->
  hoare I (forEach l f) (fun _ => I).
Proof.
  induction l as [|a l IH]; intros Hf; cbn.
  - intros s b' s' HI H. inversion H; subst. exact HI.
  - eapply hoare_bind.
    + apply Hf. apply elem_of_cons. now left.
    + intros u. apply IH. intros a0 Ha0. apply Hf.
      apply elem_of_cons. now right.
Qed.

Lemma hoare_forEachLive {B : Type} (I : B -> State -> Prop) (l : RefSet)
    (live : M RefSet) (f : B -> bref -> M B) :
  (forall b, hoare (I b) live (fun _ => I b)) ->
  (forall b a, hoare (I b) (f b a) I) ->
  forall b, hoare (I b) (forEachLive l live f b) I.
Proof.
  intros Hl Hf. induction l as [|a l IH]; intros b; cbn.
  - intros s b' s' HI H. inversion H; subst. exact HI.
  - eapply hoare_bind; [apply Hl|]. intros cur.
    eapply hoare_bind; [|intros b'; apply IH].
    destruct (set_has a cur); [apply Hf|].
    intros s b' s' HI H. inversion H; subst. exact HI.
Qed.

(** ** Sets of references *)

Lemma elem_of_set_add (b r : bref) (p : RefSet) :
  r ∈ set_add b p <-> r ∈ p \/ r = b.
Proof.
  unfold set_add, set_has. destruct (existsb (Nat.eqb b) p) eqn:E.
  - split; [now left|]. intros [H| ->]; [exact H|].
    apply existsb_exists in E as (r' & Hin & Heq).
    apply Nat.eqb_eq in Heq as ->. now apply list_elem_of_In.
  - rewrite elem_of_app, list_elem_of_singleton. tauto.
Qed.

Lemma elem_of_set_delete (b r : bref) (p : RefSet) :
  r ∈ set_delete b p <-> r ∈ p /\ r <> b.
Proof. unfold set_delete. rewrite list_elem_of_filter. tauto. Qed.

(** ** The cells of a box *)

Lemma cellsRow_dims (g g' : SpatialGrid) :
  width g' = width g -> height g' = height g ->
  forall n maxx cy cx acc,
    SpatialGrid.cellsRow n g' maxx cy cx acc
    = SpatialGrid.cellsRow n g maxx cy cx acc.
Proof.
  intros Hw Hh. induction n as [|n IH]; intros maxx cy cx acc; cbn.
  - reflexivity.
  - rewrite Hw, Hh. destruct (cx <=? maxx); [apply IH|reflexivity].
Qed.

Lemma cellsRows_dims (g g' : SpatialGrid) :
  width g' = width g -> height g' = height g ->
  forall n fuel minx maxx maxy cy acc,
    SpatialGrid.cellsRows n fuel g' minx maxx maxy cy acc
    = SpatialGrid.cellsRows n fuel g minx maxx maxy cy acc.
Proof.
  intros Hw Hh. induction n as [|n IH]; intros fuel minx maxx maxy cy acc; cbn.
  - reflexivity.
  - destruct (cy <=? maxy); [|reflexivity].
    rewrite (cellsRow_dims g g' Hw Hh).
    destruct (SpatialGrid.cellsRow fuel g maxx cy minx acc); auto.
Qed.

(** The cells depend on the dimensions of the grid, not on its content. *)
Lemma cellsOf_partitions (fuel : nat) (g : SpatialGrid) (ps : list RefSet)
    (box : AABB) :
  SpatialGrid.cellsOf fuel (set_partitions ps g) box
  = SpatialGrid.cellsOf fuel g box.
Proof.
  unfold SpatialGrid.cellsOf, SpatialGrid.worldToCell. cbn.
  now apply cellsRows_dims.
Qed.

(** ** Insertion into and removal from the cells of a box *)

Lemma residentIn_insert (ps : list RefSet) (i0 : nat) (p q : RefSet)
    (r : bref) (i : nat) :
  ps !! i0 = Some p ->
  residentIn (<[i0 := q]> ps) r i
  <-> (i = i0 /\ r ∈ q) \/ (i <> i0 /\ residentIn ps r i).
Proof.
  intros Hp. unfold residentIn. destruct (Nat.eq_dec i i0) as [->|Hne].
  - rewrite list_lookup_insert_eq by (eapply lookup_lt_Some; eauto).
    split.
    + intros (p' & [= <-] & Hr). now left.
    + intros [[_ Hr]|[Hn _]]; [eauto|congruence].
  - rewrite list_lookup_insert_ne by congruence. split.
    + intros H. now right.
    + intros [[Heq _]|[_ H]]; [congruence|exact H].
Qed.

Section UpdCells.

Variable b : bref.
Variable v : bool.
Variable f : RefSet -> RefSet.

(** [f] makes the membership of [b] equal to [v] and keeps the others. *)
Hypothesis f_spec :
  forall (p : RefSet) (r : bref),
    r ∈ f p <-> (r <> b /\ r ∈ p) \/ (r = b /\ v = true).

Lemma updCells_spec (cells : list float) :
  forall ps ps',
    updCells f cells ps = Some ps' ->
    List.length ps' = List.length ps /\
    (forall i, i ∈ cellIndexes cells -> i < List.length ps) /\
    (forall r i, r <> b -> residentIn ps' r i <-> residentIn ps r i) /\
    (forall i, i ∈ cellIndexes cells -> residentIn ps' b i <-> v = true) /\
    (forall i, i ∉ cellIndexes cells ->
               residentIn ps' b i <-> residentIn ps b i).
Proof.
  induction cells as [|c cs IH]; intros ps ps' H; cbn in H.
  - injection H as <-. unfold cellIndexes. cbn.
    split; [reflexivity|].
    split; [intros i Hi; now apply elem_of_nil in Hi|].
    split; [tauto|].
    split; [intros i Hi; now apply elem_of_nil in Hi|tauto].
  - unfold cellIndexes. cbn.
    destruct (Num.to_index c) as [i0|] eqn:Hc; [|discriminate].
    destruct (ps !! i0) as [p|] eqn:Hp; [|discriminate].
    fold (cellIndexes cs).
    destruct (IH _ _ H) as (Hlen & Hrange & Hother & Hin & Hout).
    rewrite length_insert in Hlen, Hrange.
    assert (Hi0 : i0 < List.length ps) by (eapply lookup_lt_Some; eauto).
    assert (Hat : forall r, residentIn ps r i0 <-> r ∈ p).
    { intros r. unfold residentIn. rewrite Hp. split.
      - now intros (p' & [= <-] & Hr).
      - eauto. }
    split; [exact Hlen|]. split; [|split; [|split]].
    + intros i [->|Hi]%elem_of_cons; auto.
    + intros r i Hr. rewrite Hother by exact Hr.
      rewrite (residentIn_insert ps i0 p) by exact Hp.
      rewrite f_spec. split.
      * intros [[-> [[_ Hrp]|[Heq _]]]|[_ Hres]];
          [now apply Hat|congruence|exact Hres].
      * intros Hres. destruct (Nat.eq_dec i i0) as [->|Hne].
        -- left. split; [reflexivity|]. left. split; [exact Hr|].
           now apply Hat.
        -- now right.
    + intros i Hi. destruct (decide (i ∈ cellIndexes cs)) as [Hcs|Hcs].
      * now apply Hin.
      * apply elem_of_cons in Hi as [->|Hi]; [|contradiction].
        rewrite Hout by exact Hcs.
        rewrite (residentIn_insert ps i0 p) by exact Hp.
        rewrite f_spec. split.
        -- intros [[_ [[Hn _]|[_ Hv]]]|[Hn _]]; congruence.
        -- intros Hv. left. split; [reflexivity|]. now right.
    + intros i Hi. rewrite not_elem_of_cons in Hi. destruct Hi as [Hne Hcs].
      rewrite Hout by exact Hcs.
      rewrite (residentIn_insert ps i0 p) by exact Hp. split.
      * intros [[Heq _]|[_ Hres]]; [congruence|exact Hres].
      * intros Hres. now right.
Qed.

End UpdCells.

(** Whether the updates succeed depends on the cells and on the length of
    the array only. *)
Lemma updCells_total (f f' : RefSet -> RefSet) (cells : list float) :
  forall ps ps1 ps2,
    updCells f cells ps = Some ps1 ->
    List.length ps2 = List.length ps ->
    exists ps', updCells f' cells ps2 = Some ps'.
Proof.
  induction cells as [|c cs IH]; intros ps ps1 ps2 H Hlen; cbn in *.
  - eauto.
  - destruct (Num.to_index c) as [i0|]; [|discriminate].
    destruct (ps !! i0) as [p|] eqn:Hp; [|discriminate].
    destruct (lookup_lt_is_Some_2 ps2 i0) as [p2 ->].
    { rewrite Hlen. eapply lookup_lt_Some; eauto. }
    eapply IH; [exact H|]. now rewrite !length_insert.
Qed.

Lemma updPartition_run (this : gref) (c : float) (f : RefSet -> RefSet)
    (s : State) :
  SpatialGrid.updPartition this c f s
  = match Num.to_index c with
    | Some i =>
        match partitions (grids s this) !! i with
        | Some p =>
            (Ok tt,
             mkState (body s)
               (upd (grids s) this
                  (set_partitions (<[i := f p]> (partitions (grids s this)))
                     (grids s this)))
               (worlds s))
        | None => (TypeError, s)
        end
    | None => (TypeError, s)
    end.
Proof.
  unfold SpatialGrid.updPartition, bind, getGrid, modGrid, throw.
  destruct (Num.to_index c) as [i|]; [|reflexivity].
  now destruct (partitions (grids s this) !! i).
Qed.

Lemma forEach_updPartition (this : gref) (f : RefSet -> RefSet)
    (cells : list float) :
  forall s,
    match updCells f cells (partitions (grids s this)) with
    | Some ps' =>
        exists s',
          forEach cells (fun c => SpatialGrid.updPartition this c f) s
          = (Ok tt, s') /\ partitionsSet this ps' s s'
    | None =>
        fst (forEach cells (fun c => SpatialGrid.updPartition this c f) s)
        = TypeError
    end.
Proof.
  induction cells as [|c cs IH]; intros s; cbn [updCells forEach].
  - exists s. split; [reflexivity|]. unfold partitionsSet.
    repeat split; try reflexivity. now destruct (grids s this).
  - unfold bind. rewrite updPartition_run.
    destruct (Num.to_index c) as [i0|]; [|reflexivity].
    destruct (partitions (grids s this) !! i0) as [p|]; [|reflexivity].
    match goal with |- context [forEach cs _ ?s1] => set (s1' := s1) end.
    specialize (IH s1'). subst s1'. cbn in IH. rewrite upd_eq in IH.
    cbn in IH.
    destruct (updCells f cs _) as [ps'|]; [|exact IH].
    destruct IH as (s' & Hrun & Hb & Hw & Hg & Ho).
    exists s'. split; [exact Hrun|]. cbn in *.
    unfold partitionsSet. repeat split; try assumption.
    + now rewrite Hg, upd_eq.
    + intros g Hne. rewrite Ho by exact Hne. now rewrite upd_ne.
Qed.

Lemma addBody_touchCells (fuel : nat) (this : gref) (b : bref) :
  SpatialGrid.addBody fuel this b = touchCells fuel this b (set_add b) true.
Proof. reflexivity. Qed.

Lemma removeBody_touchCells (fuel : nat) (this : gref) (b : bref) :
  SpatialGrid.removeBody fuel this b
  = touchCells fuel this b (set_delete b) false.
Proof. reflexivity. Qed.

Lemma touchCells_eq (fuel : nat) (this : gref) (b : bref)
    (f : RefSet -> RefSet) (v : bool) (s : State) :
  touchCells fuel this b f v s
  = match SpatialGrid.cellsOf fuel (grids s this) (aabb (body s b)) with
    | Ok cells =>
        match forEach cells (fun c => SpatialGrid.updPartition this c f) s with
        | (Ok _, s1) => modBody b (set_isInGrid v) s1
        | (TypeError, s1) => (TypeError, s1)
        | (OutOfFuel, s1) => (OutOfFuel, s1)
        end
    | TypeError => (TypeError, s)
    | OutOfFuel => (OutOfFuel, s)
    end.
Proof.
  unfold touchCells, bind, getBody, SpatialGrid.getCellsInAABB.
  destruct (SpatialGrid.cellsOf fuel (grids s this) (aabb (body s b)));
    reflexivity.
Qed.

Lemma touchCells_run (fuel : nat) (this : gref) (b : bref)
    (f : RefSet -> RefSet) (v : bool) (s : State) :
  match SpatialGrid.cellsOf fuel (grids s this) (aabb (body s b)) with
  | Ok cells =>
      match updCells f cells (partitions (grids s this)) with
      | Some ps' =>
          exists s', touchCells fuel this b f v s = (Ok tt, s') /\
                     touched this b v ps' s s'
      | None => fst (touchCells fuel this b f v s) = TypeError
      end
  | TypeError => fst (touchCells fuel this b f v s) = TypeError
  | OutOfFuel => fst (touchCells fuel this b f v s) = OutOfFuel
  end.
Proof.
  rewrite touchCells_eq.
  destruct (SpatialGrid.cellsOf fuel (grids s this) (aabb (body s b)))
    as [cells| |]; [|reflexivity|reflexivity].
  pose proof (forEach_updPartition this f cells s) as H.
  destruct (updCells f cells (partitions (grids s this))) as [ps'|].
  - destruct H as (s1 & -> & Hb & Hw & Hg & Ho).
    unfold modBody. eexists. split; [reflexivity|].
    unfold touched. cbn. rewrite Hb, upd_eq.
    repeat split; try assumption. intros r Hr. now rewrite upd_ne.
  - destruct (forEach cells _ s) as [[[]| |] s1]; cbn in H;
      try discriminate; reflexivity.
Qed.

(** What a normal return of [touchCells] tells. *)
Lemma touchCells_Ok (fuel : nat) (this : gref) (b : bref)
    (f : RefSet -> RefSet) (v : bool) (s s' : State) :
  touchCells fuel this b f v s = (Ok tt, s') ->
  exists cells ps',
    SpatialGrid.cellsOf fuel (grids s this) (aabb (body s b)) = Ok cells /\
    updCells f cells (partitions (grids s this)) = Some ps' /\
    touched this b v ps' s s'.
Proof.
  intros Hrun. pose proof (touchCells_run fuel this b f v s) as H.
  destruct (SpatialGrid.cellsOf fuel (grids s this) (aabb (body s b)))
    as [cells| |] eqn:Hc; try (rewrite Hrun in H; cbn in H; discriminate).
  destruct (updCells f cells (partitions (grids s this))) as [ps'|] eqn:Hu;
    try (rewrite Hrun in H; cbn in H; discriminate).
  destruct H as (s1 & Hrun1 & Ht). rewrite Hrun in Hrun1.
  injection Hrun1 as <-. eauto.
Qed.

Lemma set_add_spec (b : bref) (p : RefSet) (r : bref) :
  r ∈ set_add b p <-> (r <> b /\ r ∈ p) \/ (r = b /\ true = true).
Proof.
  rewrite elem_of_set_add. destruct (Nat.eq_dec r b); tauto.
Qed.

Lemma set_delete_spec (b : bref) (p : RefSet) (r : bref) :
  r ∈ set_delete b p <-> (r <> b /\ r ∈ p) \/ (r = b /\ false = true).
Proof.
  rewrite elem_of_set_delete. split.
  - intros [H1 H2]. now left.
  - intros [[H1 H2]|[_ H]]; [now split|discriminate].
Qed.

(** C7: for a body that is resident in no partition, [addBody] followed by
    [removeBody], with the same box, leaves every partition free of the
    body and its [isInGrid] flag false; the removal returns normally
    whenever the insertion did. *)
Theorem addBody_removeBody_round_trip (fuel : nat) (this : gref) (b : bref)
    (s s1 : State) :
  ~ resident (grids s this) b ->
  SpatialGrid.addBody fuel this b s = (Ok tt, s1) ->
  aabb (body s1 b) = aabb (body s b) /\
  isInGrid (body s1 b) = true /\
  exists s2,
    SpatialGrid.removeBody fuel this b s1 = (Ok tt, s2) /\
    ~ resident (grids s2 this) b /\
    (forall (i : nat) (p : RefSet),
        partitions (grids s2 this) !! i = Some p -> b ∉ p) /\
    isInGrid (body s2 b) = false.
Proof.
  intros Hfree Hadd. rewrite addBody_touchCells in Hadd.
  apply touchCells_Ok in Hadd
    as (cells & ps1 & Hcells & Hupd & Hg1 & _ & _ & Hb1 & _).
  rewrite Hb1. split; [reflexivity|]. split; [reflexivity|].
  destruct (updCells_spec b true (set_add b) (set_add_spec b) cells _ _ Hupd)
    as (Hlen & _ & _ & _ & Hout).
  destruct (updCells_total (set_add b) (set_delete b) cells _ ps1 ps1 Hupd Hlen)
    as (ps2 & Hupd2).
  destruct (updCells_spec b false (set_delete b) (set_delete_spec b)
              cells _ _ Hupd2) as (_ & _ & _ & Hin2 & Hout2).
  pose proof (touchCells_run fuel this b (set_delete b) false s1) as Hrem.
  rewrite Hb1, Hg1, cellsOf_partitions in Hrem. cbn in Hrem.
  rewrite Hcells, Hupd2 in Hrem.
  destruct Hrem as (s2 & Hrun & Hg2 & _ & _ & Hb2 & _).
  exists s2. rewrite removeBody_touchCells. split; [exact Hrun|].
  assert (Hnone : forall i, ~ residentIn ps2 b i).
  { intros i Hres. destruct (decide (i ∈ cellIndexes cells)) as [Hi|Hi].
    - apply (Hin2 i Hi) in Hres. discriminate.
    - apply (Hout2 i Hi), (Hout i Hi) in Hres. apply Hfree. now exists i. }
  rewrite Hg2, Hb2. cbn. split; [|split; [|reflexivity]].
  - intros [i Hres]. exact (Hnone i Hres).
  - intros i p Hp Hin. apply (Hnone i). now exists p.
Qed.

Lemma run_eta {A : Type} (m : M A) (s : State) (a : A) :
  fst (m s) = Ok a -> m s = (Ok a, snd (m s)).
Proof. destruct (m s) as [r s']. cbn. now intros ->. Qed.

Lemma grid44_partitions : partitions Demo.grid44 = replicate 16 [].
Proof. vm_compute. reflexivity. Qed.

Lemma store_free (b0 b1 : PhysicsBody) (g : gref) (r : bref) :
  ~ resident (grids (Demo.store b0 b1) g) r.
Proof.
  intros (i & p & Hp & Hr). cbn in Hp. rewrite grid44_partitions in Hp.
  apply lookup_replicate in Hp as [-> _]. now apply elem_of_nil in Hr.
Qed.

Lemma addBody_removeBody_round_trip_witness :
  ~ resident (grids DemoGrid.fresh 0%nat) 0%nat /\
  partitions (grids (snd (SpatialGrid.addBody 100 0%nat 0%nat DemoGrid.fresh))
                0%nat)
    = [0%nat] :: [0%nat] :: replicate 14 [] /\
  exists s2,
    SpatialGrid.removeBody 100 0%nat 0%nat
      (snd (SpatialGrid.addBody 100 0%nat 0%nat DemoGrid.fresh)) = (Ok tt, s2) /\
    ~ resident (grids s2 0%nat) 0%nat /\
    isInGrid (body s2 0%nat) = false.
Proof.
  split; [apply store_free|]. split; [vm_compute; reflexivity|].
  destruct (addBody_removeBody_round_trip 100 0%nat 0%nat DemoGrid.fresh
              (snd (SpatialGrid.addBody 100 0%nat 0%nat DemoGrid.fresh)))
    as (_ & _ & s2 & Hrun & Hfree & _ & Hflag).
  - apply store_free.
  - apply run_eta. vm_compute. reflexivity.
  - exists s2. auto.
Defined.

(** ** Candidate pairs *)

Lemma foldM_query (this : gref) (cells : list float) :
  forall (acc res : list bref) (s s' : State),
    foldM cells (fun acc c =>
      let* g := getGrid this in
      match SpatialGrid.partitionAt g c with
      | Some partition => ret (acc ++ partition)
      | None => throw
      end) acc s = (Ok res, s') ->
    s' = s /\
    forall r, r ∈ res ->
      r ∈ acc \/
      exists i, i ∈ cellIndexes cells /\ residentAt (grids s this) r i.
Proof.
  induction cells as [|c cs IH]; intros acc res s s' H; cbn in H.
  - inversion H; subst. split; [reflexivity|]. intros r Hr. now left.
  - unfold bind at 1 in H. unfold bind at 1 in H. unfold getGrid at 1 in H.
    unfold SpatialGrid.partitionAt at 1 in H.
    unfold cellIndexes. cbn.
    destruct (Num.to_index c) as [i0|] eqn:Hc; [|discriminate].
    destruct (partitions (grids s this) !! i0) as [p|] eqn:Hp;
      [|discriminate].
    unfold ret at 1 in H. apply IH in H as [-> H]. split; [reflexivity|].
    intros r Hr. apply H in Hr as [Hr|(i & Hi & Hres)].
    + apply elem_of_app in Hr as [Hr|Hr]; [now left|]. right.
      exists i0. split; [apply elem_of_cons; now left|]. now exists p.
    + right. exists i. split; [apply elem_of_cons; now right|exact Hres].
Qed.

Lemma queryAABB_run (fuel : nat) (this : gref) (box : AABB)
    (s s' : State) (res : list bref) :
  SpatialGrid.queryAABB fuel this box s = (Ok res, s') ->
  s' = s /\
  exists cells,
    SpatialGrid.cellsOf fuel (grids s this) box = Ok cells /\
    forall r, r ∈ res ->
      exists i, i ∈ cellIndexes cells /\ residentAt (grids s this) r i.
Proof.
  unfold SpatialGrid.queryAABB. unfold bind at 1.
  unfold SpatialGrid.getCellsInAABB.
  destruct (SpatialGrid.cellsOf fuel (grids s this) box) as [cells| |];
    try discriminate.
  intros H. apply foldM_query in H as [-> H]. split; [reflexivity|].
  exists cells. split; [reflexivity|].
  intros r Hr. apply H in Hr as [Hr|Hr]; [now apply elem_of_nil in Hr|exact Hr].
Qed.

(** A body is removed from the cells of its box just before these cells are
    queried: it is not among the bodies found. *)
Lemma removed_not_found (fuel : nat) (this : gref) (A : bref)
    (s s1 s2 : State) (res : list bref) :
  SpatialGrid.removeBody fuel this A s = (Ok tt, s1) ->
  SpatialGrid.queryAABB fuel this (aabb (body s1 A)) s1 = (Ok res, s2) ->
  A ∉ res.
Proof.
  rewrite removeBody_touchCells. intros Hrem Hq HA.
  apply touchCells_Ok in Hrem
    as (cells & ps1 & Hcells & Hupd & Hg1 & _ & _ & Hb1 & _).
  apply queryAABB_run in Hq as (_ & cells' & Hcells' & Hres).
  rewrite Hb1, Hg1, cellsOf_partitions in Hcells'. cbn in Hcells'.
  rewrite Hcells in Hcells'. injection Hcells' as <-.
  destruct (Hres A HA) as (i & Hi & Hat).
  unfold residentAt in Hat. rewrite Hg1 in Hat. cbn in Hat.
  destruct (updCells_spec A false (set_delete A) (set_delete_spec A)
              cells _ _ Hupd) as (_ & _ & _ & Hin & _).
  apply (Hin i Hi) in Hat. discriminate.
Qed.

Lemma pairWith_distinct (A B : bref) (acc : list Pair) :
  B <> A ->
  hoare (fun _ => distinctPairs acc) (SpatialGrid.pairWith A acc B)
    (fun acc' _ => distinctPairs acc').
Proof.
  intros Hne s acc' s' HI. unfold SpatialGrid.pairWith, bind, getBody, ret.
  destruct (_ =? _).
  - intros H. inversion H; subst. exact HI.
  - unfold modBody. intros H. inversion H; subst.
    intros p [Hp|Hp]%elem_of_app; [now apply HI|].
    apply list_elem_of_singleton in Hp as ->. cbn. congruence.
Qed.

Lemma pairsOf_distinct (fuel : nat) (this : gref) (A : bref)
    (acc : list Pair) :
  hoare (fun _ => distinctPairs acc) (SpatialGrid.pairsOf fuel this acc A)
    (fun acc' _ => distinctPairs acc').
Proof.
  intros s acc' s' HI. unfold SpatialGrid.pairsOf.
  unfold bind at 1. unfold getBody at 1.
  destruct (_isSleeping (body s A)).
  - intros H. inversion H; subst. exact HI.
  - unfold bind at 1.
    destruct (SpatialGrid.removeBody fuel this A s) as [[[]| |] s1] eqn:Hrem;
      try discriminate.
    unfold bind at 1. unfold getBody at 1. unfold bind at 1.
    destruct (SpatialGrid.queryAABB fuel this (aabb (body s1 A)) s1)
      as [[res| |] s2] eqn:Hq; try discriminate.
    pose proof (removed_not_found fuel this A s s1 s2 res Hrem Hq) as Hnot.
    intros H.
    refine (hoare_foldM (fun acc' _ => distinctPairs acc') res
              (SpatialGrid.pairWith A) _ acc s2 acc' s' HI H).
    intros acc0 B HB. apply pairWith_distinct. congruence.
Qed.

(** C10: every pair that [generatePairs] returns has two distinct bodies,
    for every body set and every grid state: a body is removed from the
    cells of its current box before these same cells are queried for it,
    so the query does not find it. *)
Theorem generatePairs_distinct (fuel : nat) (this : gref) (bodies : RefSet)
    (s s' : State) (pairs : list Pair) :
  SpatialGrid.generatePairs fuel this bodies s = (Ok pairs, s') ->
  (forall p, p ∈ pairs -> pairA p <> pairB p) /\
  (forall (A : bref) (s0 s1 s2 : State) (res : list bref),
      SpatialGrid.removeBody fuel this A s0 = (Ok tt, s1) ->
      SpatialGrid.queryAABB fuel this (aabb (body s1 A)) s1 = (Ok res, s2) ->
      A ∉ res).
Proof.
  intros Hrun. split; [|intros A s0 s1 s2 res; apply removed_not_found].
  cut (hoare (fun _ => True) (SpatialGrid.generatePairs fuel this bodies)
         (fun pairs _ => distinctPairs pairs)).
  { intros H. exact (H s pairs s' I Hrun). }
  unfold SpatialGrid.generatePairs.
  eapply hoare_bind with (Q := fun _ _ => True); [easy|]. intros _.
  eapply hoare_bind with (Q := fun _ _ => True); [easy|]. intros g.
  eapply hoare_conseq;
    [| |apply (hoare_foldM (fun acc _ => distinctPairs acc))].
  - intros s0 _ p Hp. now apply elem_of_nil in Hp.
  - auto.
  - intros acc i _.
    eapply hoare_bind with (Q := fun _ _ => distinctPairs acc).
    { intros s0 g0 s0' HI _. exact HI. }
    intros g0. destruct (partitions g0 !! i) as [partition|].
    + apply (hoare_forEachLive (fun acc _ => distinctPairs acc)).
      * intros acc0 s0 cur s0' HI _. exact HI.
      * intros acc0 A. apply pairsOf_distinct.
    + intros s0 a s0' _ H. discriminate.
Qed.

Lemma generatePairs_distinct_witness :
  fst (SpatialGrid.generatePairs 100 0%nat [0%nat; 1%nat] DemoStatic.registered)
    = Ok [mkPair 0%nat 1%nat] /\
  pairA (mkPair 0%nat 1%nat) <> pairB (mkPair 0%nat 1%nat).
Proof.
  assert (H : fst (SpatialGrid.generatePairs 100 0%nat [0%nat; 1%nat]
                     DemoStatic.registered) = Ok [mkPair 0%nat 1%nat])
    by (vm_compute; reflexivity).
  split; [exact H|].
  destruct (generatePairs_distinct 100 0%nat [0%nat; 1%nat]
              DemoStatic.registered _ _ (run_eta _ _ _ H)) as [Hd _].
  apply Hd. apply list_elem_of_singleton. reflexivity.
Defined.

(** ** The [isInGrid] flag and residence in the grid *)

(** The flags match when each of them is the result of looking the body up
    in every partition. *)
Lemma flagMatches_lookup (this : gref) (s : State) :
  (forall r, isInGrid (body s r)
             = existsb (set_has r) (partitions (grids s this))) ->
  flagMatches this s.
Proof.
  intros H r. rewrite H. unfold resident, residentAt, residentIn. split.
  - intros (p & Hp & Hr)%existsb_exists.
    apply list_elem_of_In, list_elem_of_lookup in Hp as [i Hi].
    exists i, p. split; [exact Hi|].
    apply existsb_exists in Hr as (r' & Hin & ->%Nat.eqb_eq).
    now apply list_elem_of_In.
  - intros (i & p & Hp & Hr). apply existsb_exists. exists p. split.
    + apply list_elem_of_In, list_elem_of_lookup. now exists i.
    + apply existsb_exists. exists r. split; [now apply list_elem_of_In|].
      apply Nat.eqb_refl.
Qed.

Lemma store_flagMatches (b0 b1 : PhysicsBody) :
  isInGrid b0 = false -> isInGrid b1 = false ->
  flagMatches 0%nat (Demo.store b0 b1).
Proof.
  intros H0 H1 r. split.
  - intros H. exfalso. destruct r as [|[|r]]; cbn in H; congruence.
  - intros H. now apply store_free in H.
Qed.

Lemma moved_flagMatches : flagMatches 0%nat DemoStale.moved.
Proof.
  apply flagMatches_lookup.
  intros r. destruct r as [|[|r]]; vm_compute; reflexivity.
Qed.

Lemma afterFrame1_flagMatches : flagMatches 0%nat DemoDrift.afterFrame1.
Proof.
  apply flagMatches_lookup.
  intros r. destruct r as [|[|r]]; vm_compute; reflexivity.
Qed.

(** A body in partition 0 whose flag is false. *)
Lemma stale_mismatch (s : State) (r : bref) (p : RefSet) :
  partitions (grids s 0%nat) !! 0%nat = Some p -> r ∈ p ->
  isInGrid (body s r) = false ->
  ~ flagMatches 0%nat s.
Proof.
  intros Hp Hr Hf H. destruct (H r) as [_ H'].
  rewrite H' in Hf; [discriminate|]. now exists 0%nat, p.
Qed.

(** C2 as stated fails: in a state where the flag of every body matches
    its residence, [removeBody] and [generatePairs] return normally and leave
    a body in a partition with [isInGrid = false]; a world reaches such a
    state by [World.step] alone; and [addBody] of a body whose box has no
    cell sets the flag of a body that is in no partition. *)
Lemma flag_mismatch_after_move :
  (flagMatches 0%nat DemoStale.lost /\
   fst (SpatialGrid.addBody 100 0%nat 0%nat DemoStale.lost) = Ok tt /\
   isInGrid (body (snd (SpatialGrid.addBody 100 0%nat 0%nat DemoStale.lost))
               0%nat) = true /\
   ~ resident
       (grids (snd (SpatialGrid.addBody 100 0%nat 0%nat DemoStale.lost)) 0%nat)
       0%nat) /\
  (flagMatches 0%nat DemoStale.moved /\
   fst (SpatialGrid.removeBody 100 0%nat 0%nat DemoStale.moved) = Ok tt /\
   ~ flagMatches 0%nat
       (snd (SpatialGrid.removeBody 100 0%nat 0%nat DemoStale.moved)) /\
   fst (SpatialGrid.generatePairs 100 0%nat [0%nat] DemoStale.moved) = Ok [] /\
   ~ flagMatches 0%nat
       (snd (SpatialGrid.generatePairs 100 0%nat [0%nat] DemoStale.moved))) /\
  (flagMatches 0%nat DemoDrift.afterFrame1 /\
   fst (World.step 100 0%nat 0.016 DemoDrift.afterFrame1) = Ok tt /\
   ~ flagMatches 0%nat
       (snd (World.step 100 0%nat 0.016 DemoDrift.afterFrame1))).
Proof.
  split; [|split].
  - split; [apply store_flagMatches; reflexivity|].
    split; [vm_compute; reflexivity|]. split; [vm_compute; reflexivity|].
    intros (i & p & Hp & Hr).
    assert (Hps : partitions
                    (grids (snd (SpatialGrid.addBody 100 0%nat 0%nat
                                   DemoStale.lost)) 0%nat)
                  = replicate 16 []) by (vm_compute; reflexivity).
    unfold residentIn in Hp. rewrite Hps in Hp.
    apply lookup_replicate in Hp as [-> _]. now apply elem_of_nil in Hr.
  - split; [exact moved_flagMatches|].
    split; [vm_compute; reflexivity|]. split; [|split].
    + apply (stale_mismatch _ 0%nat [0%nat]);
        [vm_compute; reflexivity|now apply list_elem_of_singleton
        |vm_compute; reflexivity].
    + vm_compute. reflexivity.
    + apply (stale_mismatch _ 0%nat [0%nat]);
        [vm_compute; reflexivity|now apply list_elem_of_singleton
        |vm_compute; reflexivity].
  - split; [exact afterFrame1_flagMatches|].
    split; [vm_compute; reflexivity|].
    apply (stale_mismatch _ 1%nat [1%nat]);
      [vm_compute; reflexivity|now apply list_elem_of_singleton
      |vm_compute; reflexivity].
Qed.

Lemma covers_partitions (fuel : nat) (g : SpatialGrid) (ps : list RefSet)
    (box : AABB) (i : nat) :
  covers fuel (set_partitions ps g) box i <-> covers fuel g box i.
Proof. unfold covers. now rewrite cellsOf_partitions. Qed.

Section Touched.

Variable fuel : nat.
Variable this : gref.
Variable b : bref.
Variable v : bool.
Variable f : RefSet -> RefSet.
Hypothesis f_spec :
  forall (p : RefSet) (r : bref),
    r ∈ f p <-> (r <> b /\ r ∈ p) \/ (r = b /\ v = true).

Variables s s' : State.
Variable cells : list float.
Variable ps1 : list RefSet.
Hypothesis Hcells :
  SpatialGrid.cellsOf fuel (grids s this) (aabb (body s b)) = Ok cells.
Hypothesis Hupd : updCells f cells (partitions (grids s this)) = Some ps1.
Hypothesis Htouched : touched this b v ps1 s s'.

Lemma touched_aabb (r : bref) : aabb (body s' r) = aabb (body s r).
Proof.
  destruct Htouched as (_ & _ & _ & Hb & Ho).
  destruct (Nat.eq_dec r b) as [->|Hne]; [now rewrite Hb|now rewrite Ho].
Qed.

Lemma touched_covers (r : bref) (i : nat) :
  covers fuel (grids s' this) (aabb (body s' r)) i
  <-> covers fuel (grids s this) (aabb (body s r)) i.
Proof.
  destruct Htouched as (Hg & _). rewrite Hg, covers_partitions.
  now rewrite touched_aabb.
Qed.

Lemma touched_hasCell (r : bref) :
  hasCell fuel this s r -> hasCell fuel this s' r.
Proof. intros [i Hi]. exists i. now apply touched_covers. Qed.

Lemma touched_resident_other (r : bref) (i : nat) :
  r <> b ->
  residentAt (grids s' this) r i <-> residentAt (grids s this) r i.
Proof.
  intros Hne. destruct Htouched as (Hg & _).
  unfold residentAt. rewrite Hg. cbn.
  destruct (updCells_spec b v f f_spec cells _ _ Hupd)
    as (_ & _ & Hother & _).
  now apply Hother.
Qed.

Lemma touched_resident_self (i : nat) :
  residentWhereCovered fuel this s ->
  residentAt (grids s' this) b i <-> (v = true /\ i ∈ cellIndexes cells).
Proof.
  intros Hcov. destruct Htouched as (Hg & _).
  unfold residentAt. rewrite Hg. cbn.
  destruct (updCells_spec b v f f_spec cells _ _ Hupd)
    as (_ & _ & _ & Hin & Hout).
  destruct (decide (i ∈ cellIndexes cells)) as [Hi|Hi].
  - rewrite (Hin i Hi). tauto.
  - rewrite (Hout i Hi). split; [|tauto].
    intros Hres. apply Hcov in Hres as (cells' & Hc' & Hi').
    rewrite Hcells in Hc'. injection Hc' as <-. contradiction.
Qed.

Lemma touched_gridExact :
  (v = true -> hasCell fuel this s b) ->
  gridExact fuel this s -> gridExact fuel this s'.
Proof.
  intros Hcell [Hflag Hcov]. split.
  - intros r. destruct (Nat.eq_dec r b) as [->|Hne].
    + destruct Htouched as (_ & _ & _ & Hb & _). rewrite Hb. cbn. split.
      * intros Hv. destruct (Hcell Hv) as (i & cells' & Hc' & Hi).
        rewrite Hcells in Hc'. injection Hc' as <-.
        exists i. apply touched_resident_self; auto.
      * intros [i Hres]. now apply touched_resident_self in Hres.
    + destruct Htouched as (_ & _ & _ & _ & Ho). rewrite Ho by exact Hne.
      rewrite (Hflag r). unfold resident.
      split; intros [i Hi]; exists i; now apply (touched_resident_other r i).
  - intros r i Hres. apply touched_covers.
    destruct (Nat.eq_dec r b) as [->|Hne].
    + apply touched_resident_self in Hres as [_ Hi]; [|exact Hcov].
      now exists cells.
    + apply Hcov. now apply touched_resident_other in Hres.
Qed.

End Touched.

Lemma addBody_gridExact (fuel : nat) (this : gref) (b : bref) (s s' : State) :
  gridExact fuel this s -> hasCell fuel this s b ->
  SpatialGrid.addBody fuel this b s = (Ok tt, s') ->
  gridExact fuel this s' /\
  (forall r, hasCell fuel this s r -> hasCell fuel this s' r).
Proof.
  intros Hex Hcell Hrun. rewrite addBody_touchCells in Hrun.
  apply touchCells_Ok in Hrun as (cells & ps1 & Hcells & Hupd & Ht).
  split.
  - eapply (touched_gridExact fuel this b true (set_add b)); eauto.
    apply set_add_spec.
  - intros r. eapply touched_hasCell; eauto.
Qed.

Lemma removeBody_gridExact (fuel : nat) (this : gref) (b : bref)
    (s s' : State) :
  gridExact fuel this s ->
  SpatialGrid.removeBody fuel this b s = (Ok tt, s') ->
  gridExact fuel this s' /\
  (forall r, hasCell fuel this s r -> hasCell fuel this s' r).
Proof.
  intros Hex Hrun. rewrite removeBody_touchCells in Hrun.
  apply touchCells_Ok in Hrun as (cells & ps1 & Hcells & Hupd & Ht).
  split.
  - eapply (touched_gridExact fuel this b false (set_delete b)); eauto.
    + apply set_delete_spec.
    + discriminate.
  - intros r. eapply touched_hasCell; eauto.
Qed.

Section GeneratePairs.

Variable fuel : nat.
Variable this : gref.
Variable bodies : RefSet.

Lemma pairsInv_transfer (s s' : State) :
  (forall r, isInGrid (body s' r) = isInGrid (body s r)) ->
  (forall r, aabb (body s' r) = aabb (body s r)) ->
  grids s' = grids s ->
  (pairsInv fuel this bodies) s -> (pairsInv fuel this bodies) s'.
Proof.
  intros Hflag Hbox Hg [[Hf Hc] Hcell]. unfold pairsInv, gridExact,
    flagMatches, residentWhereCovered, hasCell. rewrite Hg.
  repeat split.
  - rewrite Hflag. apply Hf.
  - rewrite Hflag. apply Hf.
  - intros r i Hres. rewrite Hbox. now apply Hc.
  - intros b Hb. rewrite Hbox. now apply Hcell.
Qed.

Lemma setLastPairId_inv (r : bref) (v : float) :
  hoare (pairsInv fuel this bodies) (modBody r (set_internalLastPairId v)) (fun _ => (pairsInv fuel this bodies)).
Proof.
  intros s [] s' HK H. inversion H; subst.
  apply (pairsInv_transfer s); [| |reflexivity|exact HK];
    intros r'; cbn; upd_cases r' r; reflexivity.
Qed.

Lemma getBody_inv (P : State -> Prop) (r : bref) :
  hoare P (getBody r) (fun _ => P).
Proof. intros s a s' HP H. inversion H; subst. exact HP. Qed.

Lemma getGrid_inv (P : State -> Prop) (r : gref) :
  hoare P (getGrid r) (fun _ => P).
Proof. intros s a s' HP H. inversion H; subst. exact HP. Qed.

Lemma ret_inv {A : Type} (P : State -> Prop) (a : A) :
  hoare P (ret a) (fun _ => P).
Proof. intros s a' s' HP H. inversion H; subst. exact HP. Qed.

Lemma addBody_inv (b : bref) :
  b ∈ bodies ->
  hoare (pairsInv fuel this bodies) (SpatialGrid.addBody fuel this b) (fun _ => (pairsInv fuel this bodies)).
Proof.
  intros Hb s [] s' [Hex Hcell] Hrun.
  destruct (addBody_gridExact fuel this b s s' Hex (Hcell b Hb) Hrun)
    as [Hex' Hcell'].
  split; [exact Hex'|]. intros b' Hb'. apply Hcell', Hcell, Hb'.
Qed.

Lemma removeBody_inv (b : bref) :
  hoare (pairsInv fuel this bodies) (SpatialGrid.removeBody fuel this b) (fun _ => (pairsInv fuel this bodies)).
Proof.
  intros s [] s' [Hex Hcell] Hrun.
  destruct (removeBody_gridExact fuel this b s s' Hex Hrun)
    as [Hex' Hcell'].
  split; [exact Hex'|]. intros b' Hb'. apply Hcell', Hcell, Hb'.
Qed.

Lemma queryAABB_inv (P : State -> Prop) (box : AABB) :
  hoare P (SpatialGrid.queryAABB fuel this box) (fun _ => P).
Proof.
  intros s res s' HP Hrun. now apply queryAABB_run in Hrun as [-> _].
Qed.

Lemma pairWith_inv (A B : bref) (acc : list Pair) :
  hoare (pairsInv fuel this bodies) (SpatialGrid.pairWith A acc B) (fun _ => (pairsInv fuel this bodies)).
Proof.
  unfold SpatialGrid.pairWith.
  eapply hoare_bind; [apply getBody_inv|]. intros a.
  eapply hoare_bind; [apply getBody_inv|]. intros b.
  destruct (_ =? _); [apply ret_inv|].
  eapply hoare_bind; [apply setLastPairId_inv|]. intros u. apply ret_inv.
Qed.

Lemma pairsOf_inv (A : bref) (acc : list Pair) :
  hoare (pairsInv fuel this bodies) (SpatialGrid.pairsOf fuel this acc A) (fun _ => (pairsInv fuel this bodies)).
Proof.
  unfold SpatialGrid.pairsOf.
  eapply hoare_bind; [apply getBody_inv|]. intros a.
  destruct (_isSleeping a); [apply ret_inv|].
  eapply hoare_bind; [apply removeBody_inv|]. intros u.
  eapply hoare_bind; [apply getBody_inv|]. intros a'.
  eapply hoare_bind; [apply queryAABB_inv|]. intros res.
  apply (hoare_foldM (fun _ => (pairsInv fuel this bodies))).
  intros acc' B _. apply pairWith_inv.
Qed.

Lemma generatePairs_inv :
  hoare (pairsInv fuel this bodies) (SpatialGrid.generatePairs fuel this bodies)
    (fun _ => (pairsInv fuel this bodies)).
Proof.
  unfold SpatialGrid.generatePairs.
  eapply hoare_bind.
  { apply hoare_forEach. intros b Hb.
    eapply hoare_bind; [apply setLastPairId_inv|]. intros u.
    eapply hoare_bind; [apply getBody_inv|]. intros bd.
    destruct (isInGrid bd); [apply ret_inv|now apply addBody_inv]. }
  intros u. eapply hoare_bind; [apply getGrid_inv|]. intros g.
  apply (hoare_foldM (fun _ => (pairsInv fuel this bodies))). intros acc i _.
  eapply hoare_bind; [apply getGrid_inv|]. intros g'.
  destruct (partitions g' !! i) as [partition|].
  - apply (hoare_forEachLive (fun _ => (pairsInv fuel this bodies))).
    + intros acc'. eapply hoare_bind; [apply getGrid_inv|]. intros g''.
      apply ret_inv.
    + intros acc' A. apply pairsOf_inv.
  - intros s a s' _ H. discriminate.
Qed.

End GeneratePairs.

(** C2, amended: in a state where the flag of every body matches its
    residence and every body is resident only in cells of its current box,
    [addBody] (of a body whose box has a cell), [removeBody] and
    [generatePairs] (of bodies whose boxes have a cell) lead, when they
    return normally, to a state of the same kind: the flag of every body
    again equals its presence in the partitions. *)
Theorem flag_matches_where_covered (fuel : nat) (this : gref) :
  (forall b s s',
      gridExact fuel this s -> hasCell fuel this s b ->
      SpatialGrid.addBody fuel this b s = (Ok tt, s') ->
      flagMatches this s' /\ residentWhereCovered fuel this s') /\
  (forall b s s',
      gridExact fuel this s ->
      SpatialGrid.removeBody fuel this b s = (Ok tt, s') ->
      flagMatches this s' /\ residentWhereCovered fuel this s') /\
  (forall bodies s pairs s',
      gridExact fuel this s ->
      (forall b, b ∈ bodies -> hasCell fuel this s b) ->
      SpatialGrid.generatePairs fuel this bodies s = (Ok pairs, s') ->
      flagMatches this s' /\ residentWhereCovered fuel this s').
Proof.
  split; [|split].
  - intros b s s' Hex Hcell Hrun.
    now destruct (addBody_gridExact fuel this b s s' Hex Hcell Hrun).
  - intros b s s' Hex Hrun.
    now destruct (removeBody_gridExact fuel this b s s' Hex Hrun).
  - intros bodies s pairs s' Hex Hcell Hrun.
    now destruct (generatePairs_inv fuel this bodies s pairs s'
                    (conj Hex Hcell) Hrun).
Qed.

Lemma store_gridExact (fuel : nat) (b0 b1 : PhysicsBody) :
  isInGrid b0 = false -> isInGrid b1 = false ->
  gridExact fuel 0%nat (Demo.store b0 b1).
Proof.
  intros H0 H1. split; [now apply store_flagMatches|].
  intros r i Hres. exfalso. apply (store_free b0 b1 0%nat r). now exists i.
Qed.

Lemma flag_matches_where_covered_witness :
  gridExact 100 0%nat (Demo.store DemoRemoved.awake DemoRemoved.asleep) /\
  (forall b, b ∈ [0%nat; 1%nat] ->
             hasCell 100 0%nat
               (Demo.store DemoRemoved.awake DemoRemoved.asleep) b) /\
  fst (SpatialGrid.generatePairs 100 0%nat [0%nat; 1%nat]
         (Demo.store DemoRemoved.awake DemoRemoved.asleep))
    = Ok [mkPair 0%nat 1%nat] /\
  flagMatches 0%nat
    (snd (SpatialGrid.generatePairs 100 0%nat [0%nat; 1%nat]
            (Demo.store DemoRemoved.awake DemoRemoved.asleep))) /\
  isInGrid
    (body (snd (SpatialGrid.generatePairs 100 0%nat [0%nat; 1%nat]
                  (Demo.store DemoRemoved.awake DemoRemoved.asleep))) 1%nat)
    = true.
Proof.
  assert (Hex : gridExact 100 0%nat
                  (Demo.store DemoRemoved.awake DemoRemoved.asleep))
    by (apply store_gridExact; reflexivity).
  assert (Hcell : forall b, b ∈ [0%nat; 1%nat] ->
             hasCell 100 0%nat
               (Demo.store DemoRemoved.awake DemoRemoved.asleep) b).
  { intros b Hb. exists 0%nat, [0].
    apply elem_of_cons in Hb as [->|Hb];
      [|apply list_elem_of_singleton in Hb as ->];
      (split; [vm_compute; reflexivity|]);
      apply list_elem_of_singleton; reflexivity. }
  assert (Hrun : fst (SpatialGrid.generatePairs 100 0%nat [0%nat; 1%nat]
                        (Demo.store DemoRemoved.awake DemoRemoved.asleep))
                 = Ok [mkPair 0%nat 1%nat]) by (vm_compute; reflexivity).
  split; [exact Hex|]. split; [exact Hcell|]. split; [exact Hrun|].
  split; [|vm_compute; reflexivity].
  destruct (flag_matches_where_covered 100 0%nat) as (_ & _ & H).
  exact (proj1 (H _ _ _ _ Hex Hcell (run_eta _ _ _ Hrun))).
Defined.

(** ** Waking a body that is still slow *)

(** C9: [wakeUp] clears [isSleeping] and leaves [idleTime] as it is; so a
    non-static body whose [idleTime] is above 1 (which is how it fell
    asleep), once woken, falls asleep again in the next [integrate(dt)] with
    [dt > 0] if its squared speed is still below 0.01, and that call
    changes neither its velocity nor its position. *)
Theorem wakeUp_keeps_idleTime (this : bref) (dt : float) (s : State) :
  isStatic (body s this) = false ->
  (1 <? _idleTime (body s this)) = true ->
  (0 <? dt) = true ->
  (speed2 (body s this) <? 0.01) = true ->
  exists s1 s2,
    PhysicsBody.wakeUp this s = (Ok tt, s1) /\
    body s1 this = set_isSleeping false (body s this) /\
    _isSleeping (body s1 this) = false /\
    _idleTime (body s1 this) = _idleTime (body s this) /\
    PhysicsBody.integrate this dt s1 = (Ok tt, s2) /\
    _isSleeping (body s2 this) = true /\
    velocity (body s2 this) = velocity (body s this) /\
    position (body s2 this) = position (body s this).
Proof.
  intros Hst Hidle Hdt Hslow.
  set (s1 := snd (PhysicsBody.wakeUp this s)).
  assert (Hb1 : body s1 this = set_isSleeping false (body s this)).
  { unfold s1, PhysicsBody.wakeUp, modBody. cbn. apply upd_eq. }
  assert (Hst1 : isStatic (body s1 this) = false) by now rewrite Hb1.
  destruct (integrate_run this dt s1 Hst1) as (s2 & Ht & Hi).
  destruct (sleepTick_run this dt s1) as (s2' & Ht' & Hb2 & _).
  rewrite Ht in Ht'. injection Ht' as <-.
  destruct (ticked_frame dt (body s1 this)) as (Hp & Hv & _ & Hid & Hsl).
  rewrite <- Hb2 in Hp, Hv, Hid, Hsl.
  assert (Hsleep : _isSleeping (body s2 this) = true).
  { rewrite Hsl, Hid. unfold speed2. rewrite Hb1. cbn.
    fold (speed2 (body s this)). rewrite Hslow.
    now rewrite (add_above_one _ _ Hidle Hdt). }
  exists s1, s2. rewrite Hsleep in Hi.
  repeat split; try assumption.
  - now rewrite Hb1.
  - now rewrite Hb1.
  - now rewrite Hv, Hb1.
  - now rewrite Hp, Hb1.
Qed.

Lemma wakeUp_keeps_idleTime_witness :
  isStatic (body (Demo.store DemoWoken.sleeper DemoWoken.sleeper) 0%nat)
    = false /\
  (1 <? _idleTime (body (Demo.store DemoWoken.sleeper DemoWoken.sleeper) 0%nat))
    = true /\
  exists s1 s2,
    PhysicsBody.wakeUp 0%nat (Demo.store DemoWoken.sleeper DemoWoken.sleeper)
      = (Ok tt, s1) /\
    _isSleeping (body s1 0%nat) = false /\
    PhysicsBody.integrate 0%nat 0.016 s1 = (Ok tt, s2) /\
    _isSleeping (body s2 0%nat) = true /\
    position (body s2 0%nat) = mkVector2 5 5.
Proof.
  split; [reflexivity|]. split; [vm_compute; reflexivity|].
  destruct (wakeUp_keeps_idleTime 0%nat 0.016
              (Demo.store DemoWoken.sleeper DemoWoken.sleeper))
    as (s1 & s2 & Hw & _ & Hs1 & _ & Hi & Hs2 & _ & Hp);
    try (vm_compute; reflexivity).
  exists s1, s2. repeat split; assumption.
Defined.

(** ** Sums, differences and products of numbers *)

Lemma SFadd_comm (a b : spec_float) : SFadd prec emax a b = SFadd prec emax b a.
Proof.
  destruct a as [sa|sa| |sa ma ea], b as [sb|sb| |sb mb eb]; cbn;
    try reflexivity; try (destruct sa, sb; reflexivity).
  now rewrite Z.min_comm, Z.add_comm.
Qed.

Lemma add_comm (a b : float) : a + b = b + a.
Proof. apply Prim2SF_inj. rewrite !add_spec. apply SFadd_comm. Qed.

(** The sign of the rounded value is the sign given; the rest does not
    depend on it. *)
Lemma binary_round_abs (s : bool) (m : positive) (e : Z) :
  SFabs (binary_round prec emax s m e)
  = SFabs (binary_round prec emax false m e).
Proof.
  unfold binary_round. destruct (shl_align _ _ _) as [mz ez].
  unfold binary_round_aux. destruct (shr_fexp _ _ _ _ _) as [mrs' e'].
  destruct (shr_fexp _ _ _ _ _) as [mrs'' e''].
  destruct (shr_m mrs''); [reflexivity| |reflexivity].
  now destruct (Z.leb _ _).
Qed.

(** A difference and the opposite difference have the same magnitude. *)
Lemma SFsub_swap (a b : spec_float) :
  SFabs (SFsub prec emax a b) = SFabs (SFsub prec emax b a).
Proof.
  destruct a as [sa|sa| |sa ma ea], b as [sb|sb| |sb mb eb]; cbn - [binary_normalize];
    try reflexivity; try (destruct sa, sb; reflexivity).
  rewrite (Z.min_comm eb ea).
  set (A := cond_Zopp sa _). set (B := cond_Zopp sb _).
  replace (B - A)%Z with (- (A - B))%Z by lia.
  destruct (A - B)%Z as [|p|p]; unfold Z.opp, binary_normalize;
    [reflexivity| |]; rewrite (binary_round_abs true); reflexivity.
Qed.

Lemma SFmul_square_abs (a b : spec_float) :
  SFabs a = SFabs b -> SFmul prec emax a a = SFmul prec emax b b.
Proof.
  destruct a as [sa|sa| |sa ma ea], b as [sb|sb| |sb mb eb]; cbn;
    try discriminate; intros H; try reflexivity;
    try (destruct sa, sb; reflexivity).
  injection H as -> ->. now destruct sa, sb.
Qed.

Lemma square_sub_swap (a b : float) :
  Num.pow2 (a - b) = Num.pow2 (b - a).
Proof.
  unfold Num.pow2. apply Prim2SF_inj. rewrite !mul_spec, !sub_spec.
  apply SFmul_square_abs, SFsub_swap.
Qed.

Lemma circleToCircle_comm (c1Rad : float) (c1Pos : Vector2)
    (c2Rad : float) (c2Pos : Vector2) :
  circleToCircle c1Rad c1Pos c2Rad c2Pos
  = circleToCircle c2Rad c2Pos c1Rad c1Pos.
Proof.
  unfold circleToCircle.
  now rewrite (square_sub_swap (x c1Pos)), (square_sub_swap (y c1Pos)),
    (add_comm c1Rad).
Qed.

(** [circleToCircle] does not depend on the order of the two circles: the
    squares of a difference and of the opposite difference are the same
    number, and so are the two sums of the radii. *)
Theorem circleToCircle_symmetric (c1Rad : float) (c1Pos : Vector2)
    (c2Rad : float) (c2Pos : Vector2) :
  circleToCircle c1Rad c1Pos c2Rad c2Pos
  = circleToCircle c2Rad c2Pos c1Rad c1Pos.
Proof.
  unfold circleToCircle.
  rewrite (square_sub_swap (x c2Pos)), (square_sub_swap (y c2Pos)).
  now rewrite (add_comm c2Rad).
Qed.

(** ** Frame conditions of whole methods *)

Lemma keeps_getCellsInAABB (R : State -> State -> Prop)
    (R_refl : forall s, R s s) (fuel : nat) (this : gref) (box : AABB) :
  keeps R (SpatialGrid.getCellsInAABB fuel this box).
Proof. intros s. apply R_refl. Qed.

(** Walk through a method; [leaf] proves the frame of each update. *)
Ltac keeps_walk refl trans leaf :=
  repeat first
    [ apply (keeps_ret _ refl)
    | apply (keeps_throw _ refl)
    | apply (keeps_getBody _ refl)
    | apply (keeps_getGrid _ refl)
    | apply (keeps_getWorld _ refl)
    | apply (keeps_getCellsInAABB _ refl)
    | apply (keeps_forEach _ refl trans); intros ?
    | apply (keeps_foldM _ refl trans); intros ? ?
    | apply (keeps_forEachLive _ refl trans); [|intros ? ?]
    | apply (keeps_bind _ trans); [|intros ?]
    | match goal with
      | |- keeps _ (if ?c then _ else _) => destruct c
      | |- keeps _ (match ?c with _ => _ end) => destruct c
      end
    | leaf ].

Ltac unfold_methods :=
  unfold World.step, World.stepBroadPhase, World.stepNarrowPhase,
    World.stepResolveStaticCollisions, World.stepResolveCollisions,
    World.stepIntegrate, World.postStep, World.narrowPhasePair,
    World.resolveContact, World.applyImpulse, World.applyFriction,
    World.fixPenetration, World.when, World.modVelocity, World.modPosition,
    SpatialGrid.generatePairs, SpatialGrid.pairsOf, SpatialGrid.pairWith,
    SpatialGrid.queryAABB, SpatialGrid.addBody, SpatialGrid.removeBody,
    SpatialGrid.updPartition, PhysicsBody.integrate, PhysicsBody.advance,
    PhysicsBody.worldGravity, PhysicsBody.sleepTick, PhysicsBody.wakeUp,
    PhysicsBody.applyForce.

Lemma sameSetup_refl (b : PhysicsBody) : sameSetup b b.
Proof. repeat split. Qed.

Lemma sameSetup_trans (b1 b2 b3 : PhysicsBody) :
  sameSetup b1 b2 -> sameSetup b2 b3 -> sameSetup b1 b3.
Proof. unfold sameSetup. intuition congruence. Qed.

Lemma sameLayout_refl (g : SpatialGrid) : sameLayout g g.
Proof. repeat split. Qed.

Lemma sameLayout_trans (g1 g2 g3 : SpatialGrid) :
  sameLayout g1 g2 -> sameLayout g2 g3 -> sameLayout g1 g3.
Proof. unfold sameLayout. intuition congruence. Qed.

Lemma sameRoster_refl (w : World) : sameRoster w w.
Proof. repeat split. Qed.

Lemma sameRoster_trans (w1 w2 w3 : World) :
  sameRoster w1 w2 -> sameRoster w2 w3 -> sameRoster w1 w3.
Proof. unfold sameRoster. intuition congruence. Qed.

Lemma configKept_refl (s : State) : configKept s s.
Proof.
  split; [|split]; intros r;
    [apply sameSetup_refl|apply sameLayout_refl|apply sameRoster_refl].
Qed.

Lemma configKept_trans (s1 s2 s3 : State) :
  configKept s1 s2 -> configKept s2 s3 -> configKept s1 s3.
Proof.
  intros (Hb & Hg & Hw) (Hb' & Hg' & Hw'). split; [|split]; intros r.
  - eapply sameSetup_trans; eauto.
  - eapply sameLayout_trans; eauto.
  - eapply sameRoster_trans; eauto.
Qed.

Lemma config_modBody (r : bref) (f : PhysicsBody -> PhysicsBody) :
  (forall b, sameSetup b (f b)) -> keeps configKept (modBody r f).
Proof.
  intros Hf s. split; [|split]; intros r'; cbn.
  - upd_cases r' r; [apply Hf|apply sameSetup_refl].
  - apply sameLayout_refl.
  - apply sameRoster_refl.
Qed.

Lemma config_modGrid (r : gref) (f : SpatialGrid -> SpatialGrid) :
  (forall g, sameLayout g (f g)) -> keeps configKept (modGrid r f).
Proof.
  intros Hf s. split; [|split]; intros r'; cbn.
  - apply sameSetup_refl.
  - upd_cases r' r; [apply Hf|apply sameLayout_refl].
  - apply sameRoster_refl.
Qed.

Lemma config_modWorld (r : wref) (f : World -> World) :
  (forall w, sameRoster w (f w)) -> keeps configKept (modWorld r f).
Proof.
  intros Hf s. split; [|split]; intros r'; cbn.
  - apply sameSetup_refl.
  - apply sameLayout_refl.
  - upd_cases r' r; [apply Hf|apply sameRoster_refl].
Qed.

Lemma sameLayout_insert (g : SpatialGrid) (i : nat) (p : RefSet) :
  sameLayout g (set_partitions (<[i := p]> (partitions g)) g).
Proof. repeat split. cbn. apply length_insert. Qed.

Ltac config_leaf :=
  first
    [ apply config_modBody; intros ?; repeat split; reflexivity
    | apply config_modGrid; intros ?; apply sameLayout_insert
    | apply config_modWorld; intros ?; repeat split; reflexivity ].

Lemma integrate_configKept (this : bref) (dt : float) :
  keeps configKept (PhysicsBody.integrate this dt).
Proof.
  unfold_methods.
  keeps_walk configKept_refl configKept_trans config_leaf.
Qed.

Lemma applyForce_configKept (this : bref) (force : Vector2) :
  keeps configKept (PhysicsBody.applyForce this force).
Proof.
  unfold_methods.
  keeps_walk configKept_refl configKept_trans config_leaf.
Qed.

Lemma step_configKept (fuel : nat) (this : wref) (dt : float) :
  keeps configKept (World.step fuel this dt).
Proof.
  unfold_methods.
  keeps_walk configKept_refl configKept_trans config_leaf.
Qed.

(** Whether it returns or throws, a frame leaves every body its identifier,
    world, mass, inverse mass, shape, friction, restitution, drag and its
    static and sensor flags; every grid its dimensions and the number of
    its partitions; every world its bodies, grid and gravity. *)
Theorem step_keeps_configuration (fuel : nat) (this : wref) (dt : float)
    (s : State) :
  configKept s (snd (World.step fuel this dt s)).
Proof.
  revert s. change (keeps configKept (World.step fuel this dt)).
  unfold_methods.
  keeps_walk configKept_refl configKept_trans config_leaf.
Qed.

Lemma sameButGridFields_refl (b : PhysicsBody) : sameButGridFields b b.
Proof. reflexivity. Qed.

Lemma gridFrame_refl (this : gref) (s : State) : gridFrame this s s.
Proof.
  split; [|split; [|split]]; auto using sameLayout_refl.
  intros r. reflexivity.
Qed.

Lemma gridFrame_trans (this : gref) (s1 s2 s3 : State) :
  gridFrame this s1 s2 -> gridFrame this s2 s3 -> gridFrame this s1 s3.
Proof.
  intros (Hb & Hl & Hg & Hw) (Hb' & Hl' & Hg' & Hw').
  split; [|split; [|split]].
  - intros r. unfold sameButGridFields in *. now rewrite Hb', Hb.
  - eapply sameLayout_trans; eauto.
  - intros g Hne. now rewrite Hg', Hg.
  - intros w. now rewrite Hw', Hw.
Qed.

Lemma gridFrame_modBody (this : gref) (r : bref)
    (f : PhysicsBody -> PhysicsBody) :
  (forall b, sameButGridFields b (f b)) ->
  keeps (gridFrame this) (modBody r f).
Proof.
  intros Hf s. split; [|split; [|split]]; cbn; auto using sameLayout_refl.
  intros r'. upd_cases r' r; [apply Hf|reflexivity].
Qed.

Lemma gridFrame_modGrid (this : gref) (f : SpatialGrid -> SpatialGrid) :
  (forall g, sameLayout g (f g)) -> keeps (gridFrame this) (modGrid this f).
Proof.
  intros Hf s. split; [|split; [|split]]; cbn; auto.
  - intros r. reflexivity.
  - upd_simpl. apply Hf.
  - intros g Hne. now upd_simpl.
Qed.

Ltac grid_leaf :=
  first
    [ apply gridFrame_modBody; intros ?; reflexivity
    | apply gridFrame_modGrid; intros ?; apply sameLayout_insert ].

Ltac grid_walk this :=
  keeps_walk (gridFrame_refl this) (gridFrame_trans this) grid_leaf.

(** [generatePairs] changes, of the bodies, only [isInGrid] and
    [_internalLastPairId], and of its grid only the members of the
    partitions; other grids and the worlds are left as they are.  This
    holds on a normal return and on a throw. *)
Lemma removeBody_gridFrame (fuel : nat) (this : gref) (b : bref) :
  keeps (gridFrame this) (SpatialGrid.removeBody fuel this b).
Proof. unfold_methods. grid_walk this. Qed.

Lemma addBody_gridFrame (fuel : nat) (this : gref) (b : bref) :
  keeps (gridFrame this) (SpatialGrid.addBody fuel this b).
Proof. unfold_methods. grid_walk this. Qed.

Lemma queryAABB_gridFrame (fuel : nat) (this : gref) (box : AABB) :
  keeps (gridFrame this) (SpatialGrid.queryAABB fuel this box).
Proof. unfold_methods. grid_walk this. Qed.

Lemma pairWith_gridFrame (this : gref) (A B : bref) (acc : list Pair) :
  keeps (gridFrame this) (SpatialGrid.pairWith A acc B).
Proof. unfold_methods. grid_walk this. Qed.

Lemma generatePairs_gridFrame (fuel : nat) (this : gref) (bodies : RefSet) :
  keeps (gridFrame this) (SpatialGrid.generatePairs fuel this bodies).
Proof. unfold_methods. grid_walk this. Qed.

(** Whether it returns or throws, [generatePairs] changes nothing but the
    fields [isInGrid] and [_internalLastPairId] of bodies and the content
    of the partitions of its own grid: positions, velocities, boxes and
    sleep flags, the other grids and every world are as before. *)
Theorem generatePairs_frame (fuel : nat) (this : gref) (bodies : RefSet)
    (s : State) :
  gridFrame this s (snd (SpatialGrid.generatePairs fuel this bodies s)).
Proof.
  revert s.
  change (keeps (gridFrame this)
            (SpatialGrid.generatePairs fuel this bodies)).
  unfold_methods. grid_walk this.
Qed.

(** ** The first body of a pair *)

Lemma hoare_frame {A : Type} (R : State -> State -> Prop)
    (R_trans : forall s1 s2 s3, R s1 s2 -> R s2 s3 -> R s1 s3)
    (s0 : State) (Q : Prop) (m : M A) :
  keeps R m ->
  hoare (fun s1 => R s0 s1 /\ Q) m (fun _ s1 => R s0 s1 /\ Q).
Proof.
  intros Hk s a s' [HR HQ] Hrun. split; [|exact HQ].
  eapply R_trans; [exact HR|]. specialize (Hk s). now rewrite Hrun in Hk.
Qed.

Lemma sameButGridFields_isSleeping (b b' : PhysicsBody) :
  sameButGridFields b b' -> _isSleeping b' = _isSleeping b.
Proof. intros H. exact (f_equal _isSleeping H). Qed.

Lemma pairWith_awake (this : gref) (s0 : State) (A B : bref)
    (acc : list Pair) :
  _isSleeping (body s0 A) = false ->
  hoare (fun s1 => gridFrame this s0 s1 /\ allAwake s0 acc)
    (SpatialGrid.pairWith A acc B)
    (fun acc' s1 => gridFrame this s0 s1 /\ allAwake s0 acc').
Proof.
  intros HA s acc' s' [HR HI] Hrun. split.
  - eapply gridFrame_trans; [exact HR|].
    pose proof (pairWith_gridFrame this A B acc s) as H.
    now rewrite Hrun in H.
  - revert Hrun. unfold SpatialGrid.pairWith, bind, getBody, ret, modBody.
    destruct (_ =? _); intros H; inversion H; subst; [exact HI|].
    intros p [Hp|Hp]%elem_of_app; [now apply HI|].
    now apply list_elem_of_singleton in Hp as ->.
Qed.

Lemma pairsOf_awake (fuel : nat) (this : gref) (s0 : State) (A : bref)
    (acc : list Pair) :
  hoare (fun s1 => gridFrame this s0 s1 /\ allAwake s0 acc)
    (SpatialGrid.pairsOf fuel this acc A)
    (fun acc' s1 => gridFrame this s0 s1 /\ allAwake s0 acc').
Proof.
  intros s acc' s' [HR HI]. unfold SpatialGrid.pairsOf.
  unfold bind at 1. unfold getBody at 1.
  destruct (_isSleeping (body s A)) eqn:HA.
  - intros H. inversion H; subst. now split.
  - assert (HA0 : _isSleeping (body s0 A) = false).
    { destruct HR as [Hb _].
      now rewrite <- (sameButGridFields_isSleeping _ _ (Hb A)). }
    intros Hrun.
    match type of Hrun with
    | ?m s = _ =>
        cut (hoare (fun s1 => gridFrame this s0 s1 /\ allAwake s0 acc) m
               (fun acc' s1 => gridFrame this s0 s1 /\ allAwake s0 acc'));
        [intros Hh; exact (Hh s acc' s' (conj HR HI) Hrun)|]
    end.
    eapply hoare_bind.
    { apply (hoare_frame _ (gridFrame_trans this)), removeBody_gridFrame. }
    intros u. eapply hoare_bind; [apply getBody_inv|]. intros a.
    eapply hoare_bind.
    { apply (hoare_frame _ (gridFrame_trans this)), queryAABB_gridFrame. }
    intros res.
    apply (hoare_foldM
             (fun acc' s1 => gridFrame this s0 s1 /\ allAwake s0 acc')).
    intros acc0 B _. now apply pairWith_awake.
Qed.

(** Every pair that [generatePairs] returns has a first body that is
    awake, before the call and after it: a sleeping body is skipped in the
    loop over the partitions, so two sleeping bodies are never paired. *)
Theorem generatePairs_first_awake (fuel : nat) (this : gref)
    (bodies : RefSet) (s s' : State) (pairs : list Pair) :
  SpatialGrid.generatePairs fuel this bodies s = (Ok pairs, s') ->
  forall p, p ∈ pairs ->
    _isSleeping (body s (pairA p)) = false /\
    _isSleeping (body s' (pairA p)) = false.
Proof.
  intros Hrun.
  cut (hoare (fun s1 => gridFrame this s s1 /\ allAwake s [])
         (SpatialGrid.generatePairs fuel this bodies)
         (fun pairs s1 => gridFrame this s s1 /\ allAwake s pairs)).
  { intros H. destruct (H s pairs s') as [[Hb _] HI]; [|exact Hrun|].
    - split; [apply gridFrame_refl|]. intros p Hp.
      now apply elem_of_nil in Hp.
    - intros p Hp. split; [now apply HI|].
      rewrite (sameButGridFields_isSleeping _ _ (Hb (pairA p))).
      now apply HI. }
  unfold SpatialGrid.generatePairs.
  eapply hoare_bind.
  { apply (hoare_frame _ (gridFrame_trans this)).
    unfold_methods. grid_walk this. }
  intros u. eapply hoare_bind; [apply getGrid_inv|]. intros g.
  apply (hoare_foldM
           (fun acc s1 => gridFrame this s s1 /\ allAwake s acc)).
  intros acc i _.
  eapply hoare_bind; [apply getGrid_inv|]. intros g'.
  destruct (partitions g' !! i) as [partition|].
  - apply (hoare_forEachLive
             (fun acc s1 => gridFrame this s s1 /\ allAwake s acc)).
    + intros acc'. eapply hoare_bind; [apply getGrid_inv|]. intros g''.
      apply ret_inv.
    + intros acc' A. apply pairsOf_awake.
  - intros s1 a s1' _ H. discriminate.
Qed.

(** ** The boxes after the broad phase *)

Lemma keeps_weaken {A : Type} (R R' : State -> State -> Prop) (m : M A) :
  (forall s s', R s s' -> R' s s') -> keeps R m -> keeps R' m.
Proof. intros H Hk s. apply H, Hk. Qed.

Lemma boxed_boxed (b : PhysicsBody) : boxed (boxed b) = boxed b.
Proof. unfold boxed. destruct b as [? ? ? ? ? ? ? ? [r|] ? ? ? ? ? ? ? ?]; reflexivity. Qed.

Lemma set_has_true (r : bref) (l : RefSet) : set_has r l = true <-> r ∈ l.
Proof.
  unfold set_has. rewrite existsb_exists. split.
  - intros (r' & Hin & ->%Nat.eqb_eq). now apply list_elem_of_In.
  - intros H. exists r. split; [now apply list_elem_of_In|apply Nat.eqb_refl].
Qed.

(** A loop that applies an idempotent update [g] to each body of a list. *)
Lemma forEach_bodies (g : PhysicsBody -> PhysicsBody) (f : bref -> M unit) :
  (forall b, g (g b) = g b) ->
  (forall a s, exists s1,
      f a s = (Ok tt, s1) /\ grids s1 = grids s /\ worlds s1 = worlds s /\
      forall r, body s1 r = upd (body s) a (g (body s a)) r) ->
  forall l s, exists s',
    forEach l f s = (Ok tt, s') /\
    grids s' = grids s /\ worlds s' = worlds s /\
    forall r, body s' r = if set_has r l then g (body s r) else body s r.
Proof.
  intros Hg Hf. induction l as [|a l IH]; intros s.
  - exists s. repeat split.
  - cbn [forEach]. unfold bind.
    destruct (Hf a s) as (s1 & -> & Hg1 & Hw1 & Hb1).
    destruct (IH s1) as (s' & -> & Hg' & Hw' & Hb').
    exists s'. split; [reflexivity|]. split; [congruence|].
    split; [congruence|]. intros r. rewrite Hb', !Hb1.
    unfold set_has at 2. cbn [existsb]. fold (set_has r l).
    upd_cases r a.
    + rewrite Nat.eqb_refl. cbn. rewrite Hg. now destruct (set_has a l).
    + apply Nat.eqb_neq in n as ->. reflexivity.
Qed.

Lemma updateBoxes_run (l : RefSet) (s : State) :
  exists s',
    forEach l (fun body =>
      let* b := getBody body in
      match shape b with
      | Circle radius =>
          modBody body (fun b =>
            set_aabb
              (mkAABB (mkVector2 (x (position b) - radius)
                                 (y (position b) - radius))
                      (mkVector2 (x (position b) + radius)
                                 (y (position b) + radius))) b)
      | OtherShape => ret tt
      end) s = (Ok tt, s') /\
    grids s' = grids s /\ worlds s' = worlds s /\
    forall r, body s' r = if set_has r l then boxed (body s r) else body s r.
Proof.
  apply (forEach_bodies boxed); [apply boxed_boxed|].
  intros a s0. unfold bind, getBody, boxed, circleBox.
  destruct (shape (body s0 a)) eqn:Hsh; eexists;
    (split; [reflexivity|]); cbn; repeat split; intros r;
    upd_cases r a; rewrite ?Hsh; reflexivity.
Qed.

Lemma sameButGridFields_box (b b' : PhysicsBody) :
  sameButGridFields b b' ->
  position b' = position b /\ aabb b' = aabb b /\ shape b' = shape b.
Proof.
  intros H. split; [exact (f_equal position H)|].
  split; [exact (f_equal aabb H)|exact (f_equal shape H)].
Qed.

Lemma bodywise_sameButGridFields_trans (s1 s2 s3 : State) :
  bodywise sameButGridFields s1 s2 -> bodywise sameButGridFields s2 s3 ->
  bodywise sameButGridFields s1 s3.
Proof. intros H12 H23 r. unfold sameButGridFields in *. now rewrite H23, H12. Qed.

(** After the broad phase, on a normal return or a throw, every body of the
    world that has a circle has the box of that circle around its position,
    and every other body has the box it had; no position has changed. *)
Theorem stepBroadPhase_boxes (fuel : nat) (this : wref) (dt : float)
    (s : State) (r : bref) :
  position (body (snd (World.stepBroadPhase fuel this dt s)) r)
    = position (body s r) /\
  aabb (body (snd (World.stepBroadPhase fuel this dt s)) r)
    = if set_has r (bodies (worlds s this))
      then match shape (body s r) with
           | Circle radius => circleBox (position (body s r)) radius
           | OtherShape => aabb (body s r)
           end
      else aabb (body s r).
Proof.
  destruct (updateBoxes_run (bodies (worlds s this)) s)
    as (s1 & Hrun & Hg & Hw & Hb).
  assert (E : World.stepBroadPhase fuel this dt s
              = (let* w := getWorld this in
                 let* pairs :=
                   SpatialGrid.generatePairs fuel (grid w) (bodies w) in
                 modWorld this (set_collisionPairs pairs)) s1).
  { unfold World.stepBroadPhase. unfold bind at 1. unfold getWorld at 1.
    unfold bind at 1. now rewrite Hrun. }
  rewrite E. clear E.
  match goal with
  | |- context [snd (?m s1)] =>
      assert (Hk : keeps (bodywise sameButGridFields) m)
  end.
  { apply (keeps_bind _ bodywise_sameButGridFields_trans);
      [apply keeps_getWorld; intros ? ?; reflexivity|intros w].
    apply (keeps_bind _ bodywise_sameButGridFields_trans).
    - eapply keeps_weaken; [|apply generatePairs_gridFrame].
      intros s2 s3 H. exact (proj1 H).
    - intros pairs. apply keeps_modWorld. reflexivity. }
  specialize (Hk s1 r). apply sameButGridFields_box in Hk as (Hp & Ha & _).
  rewrite Hp, Ha, Hb.
  destruct (set_has r (bodies (worlds s this))); [|now split].
  unfold boxed. destruct (shape (body s r)); split; reflexivity.
Qed.

(** ** Integration with and without a world *)

Lemma advance_unbound (this : bref) (dt : float) (s : State) :
  world (body s this) = None ->
  exists s',
    PhysicsBody.advance this dt s = (TypeError, s') /\
    body s' this = set_velocity (dragged dt (body s this)) (body s this) /\
    (forall r, r <> this -> body s' r = body s r) /\
    grids s' = grids s /\ worlds s' = worlds s.
Proof.
  intros Hw. unfold PhysicsBody.advance, PhysicsBody.worldGravity.
  unfold bind, modBody, getBody, getWorld, throw. cbn [body grids worlds].
  rewrite !upd_eq. cbn [world set_velocity]. rewrite Hw.
  eexists. split; [reflexivity|]. cbn [body grids worlds].
  rewrite !upd_eq. repeat split.
  intros r Hr. now rewrite !upd_ne.
Qed.

Lemma advance_bound (this : bref) (dt : float) (s : State) (w : wref) :
  world (body s this) = Some w ->
  exists s',
    PhysicsBody.advance this dt s = (Ok tt, s') /\
    body s' this = advanced dt (gravity (worlds s w)) (body s this) /\
    (forall r, r <> this -> body s' r = body s r) /\
    grids s' = grids s /\ worlds s' = worlds s.
Proof.
  intros Hw. unfold PhysicsBody.advance, PhysicsBody.worldGravity.
  unfold bind, modBody, getBody, getWorld, ret. cbn [body grids worlds].
  rewrite !upd_eq. cbn [world set_velocity set_position]. rewrite Hw.
  cbn [body grids worlds]. rewrite !upd_eq.
  cbn [world set_velocity set_position]. rewrite Hw.
  eexists. split; [reflexivity|]. cbn [body grids worlds].
  rewrite !upd_eq. repeat split.
  intros r Hr. now rewrite !upd_ne.
Qed.

Lemma ticked_setup (dt : float) (b : PhysicsBody) :
  world (ticked dt b) = world b /\ linearDrag (ticked dt b) = linearDrag b.
Proof.
  unfold ticked. destruct (speed2 b <? SLEEP_VELOCITY_THRESHOLD);
    match goal with |- context [if ?c then _ else _] => destruct c end;
    cbn; auto.
Qed.

(** A body that was never added to a world has no [world]: [integrate]
    returns normally when the body is static or asleep after the sleep
    check, and otherwise throws a [TypeError] at [this.world.gravity], when
    the drag has been applied to the velocity and the position has not been
    touched. *)
Theorem integrate_without_world (this : bref) (dt : float) (s : State) :
  world (body s this) = None ->
  fst (PhysicsBody.integrate this dt s)
    = (if isStatic (body s this) || _isSleeping (ticked dt (body s this))
       then Ok tt else TypeError) /\
  (isStatic (body s this) || _isSleeping (ticked dt (body s this)) = false ->
   velocity (body (snd (PhysicsBody.integrate this dt s)) this)
     = dragged dt (body s this) /\
   position (body (snd (PhysicsBody.integrate this dt s)) this)
     = position (body s this)).
Proof.
  intros Hw. destruct (isStatic (body s this)) eqn:Hst.
  - split; [|discriminate]. unfold PhysicsBody.integrate, bind, getBody, ret.
    now rewrite Hst.
  - destruct (integrate_run this dt s Hst) as (s1 & Ht & ->).
    destruct (sleepTick_run this dt s) as (s1' & Ht' & Hb & _).
    rewrite Ht in Ht'. injection Ht' as <-. rewrite Hb. cbn [orb].
    destruct (_isSleeping (ticked dt (body s this))) eqn:Hsl.
    + split; [reflexivity|discriminate].
    + destruct (ticked_setup dt (body s this)) as [Hw' Hd].
      destruct (advance_unbound this dt s1) as (s2 & -> & Hb2 & _).
      { rewrite Hb. congruence. }
      split; [reflexivity|]. intros _. cbn [snd]. rewrite Hb2, Hb. cbn.
      destruct (ticked_frame dt (body s this)) as (Hp & Hv & _).
      unfold dragged. now rewrite Hv, Hd, Hp.
Qed.

(** A body that is not static, is awake after the sleep check and is
    bound to world [w]: [integrate] returns normally; the velocity is
    scaled by [1 - linearDrag * dt], then the gravity of [w] times [dt] is
    added, and the position advances by [dt] times this new velocity.  No
    other body changes. *)
Theorem integrate_with_world (this : bref) (dt : float) (s : State)
    (w : wref) :
  isStatic (body s this) = false ->
  _isSleeping (ticked dt (body s this)) = false ->
  world (body s this) = Some w ->
  exists s',
    PhysicsBody.integrate this dt s = (Ok tt, s') /\
    body s' this
      = advanced dt (gravity (worlds s w)) (ticked dt (body s this)) /\
    (forall r, r <> this -> body s' r = body s r).
Proof.
  intros Hst Hsl Hw.
  destruct (integrate_run this dt s Hst) as (s1 & Ht & ->).
  destruct (sleepTick_run this dt s) as (s1' & Ht' & Hb & Ho & _ & Hws).
  rewrite Ht in Ht'. injection Ht' as <-. rewrite Hb, Hsl.
  destruct (ticked_setup dt (body s this)) as [Hw' _].
  destruct (advance_bound this dt s1 w) as (s2 & -> & Hb2 & Ho2 & _).
  { rewrite Hb. congruence. }
  exists s2. split; [reflexivity|]. split.
  - now rewrite Hb2, Hb, Hws.
  - intros r Hr. now rewrite Ho2, Ho.
Qed.

Lemma integrate_bound_ok (this : bref) (dt : float) (s : State) :
  world (body s this) <> None ->
  fst (PhysicsBody.integrate this dt s) = Ok tt.
Proof.
  intros Hw. destruct (isStatic (body s this)) eqn:Hst.
  - unfold PhysicsBody.integrate, bind, getBody, ret. now rewrite Hst.
  - destruct (integrate_run this dt s Hst) as (s1 & Ht & ->).
    destruct (sleepTick_run this dt s) as (s1' & Ht' & Hb & _).
    rewrite Ht in Ht'. injection Ht' as <-.
    destruct (_isSleeping (body s1 this)); [reflexivity|].
    destruct (world (body s this)) as [w|] eqn:Hw'; [|congruence].
    destruct (advance_bound this dt s1 w) as (s2 & -> & _); [|reflexivity].
    rewrite Hb. destruct (ticked_setup dt (body s this)) as [-> _].
    exact Hw'.
Qed.

Lemma forEach_integrate_ok (dt : float) (l : list bref) :
  forall s, (forall b, b ∈ l -> world (body s b) <> None) ->
            fst (forEach l (fun b => PhysicsBody.integrate b dt) s) = Ok tt.
Proof.
  induction l as [|a l IH]; intros s Hl; [reflexivity|].
  cbn [forEach]. unfold bind.
  assert (Ha : fst (PhysicsBody.integrate a dt s) = Ok tt).
  { apply integrate_bound_ok, Hl, elem_of_cons. now left. }
  pose proof (integrate_configKept a dt s) as (Hc & _).
  destruct (PhysicsBody.integrate a dt s) as [[[]| |] s1];
    cbn [fst snd] in *; try discriminate Ha.
  apply IH. intros b Hb. destruct (Hc b) as (_ & -> & _).
  apply Hl, elem_of_cons. now right.
Qed.

Lemma allBound_configKept (w : wref) (s s' : State) :
  configKept s s' -> allBound w s -> allBound w s'.
Proof.
  intros (Hb & _ & Hw) H b Hin. destruct (Hw w) as (Hbs & _).
  destruct (Hb b) as (_ & -> & _). apply H. now rewrite <- Hbs.
Qed.

(** When every body of a world is bound to some world, [stepIntegrate]
    returns normally: [this.world.gravity] is defined for each of them.
    The methods of a world keep it so: after [addBody] or [removeBody] on
    any world and after a frame of any world, every body of the world is
    still bound.  A new world, with no bodies, starts so. *)
Theorem stepIntegrate_never_throws (fuel : nat) (this w : wref) (b : bref)
    (dt : float) (s : State) :
  allBound this s ->
  fst (World.stepIntegrate this dt s) = Ok tt /\
  allBound this (snd (World.addBody w b s)) /\
  allBound this (snd (World.removeBody w b s)) /\
  allBound this (snd (World.step fuel w dt s)).
Proof.
  intros H. split; [|split; [|split]].
  - unfold World.stepIntegrate, bind, getWorld.
    pose proof (forEach_integrate_ok dt (bodies (worlds s this)) s H) as Hok.
    now destruct (forEach _ _ s) as [[[]| |] s1].
  - destruct (World_addBody_run w b s) as (s' & -> & Hb & Ho & _ & Hw & Hwo).
    intros r Hr. cbn [snd] in *. destruct (Nat.eq_dec r b) as [->|Hne].
    + now rewrite Hb.
    + rewrite Ho by exact Hne. apply H.
      destruct (Nat.eq_dec this w) as [->|Hw'].
      * rewrite Hw in Hr. cbn in Hr.
        apply elem_of_set_add in Hr as [Hr|Hr]; [exact Hr|contradiction].
      * now rewrite Hwo in Hr.
  - destruct (World_removeBody_run w b s)
      as (s' & -> & Hb & Ho & _ & Hw & Hwo).
    intros r Hr. cbn [snd] in *. destruct (Nat.eq_dec r b) as [->|Hne].
    + now rewrite Hb.
    + rewrite Ho by exact Hne. apply H.
      destruct (Nat.eq_dec this w) as [->|Hw'].
      * rewrite Hw in Hr. cbn in Hr.
        now apply elem_of_set_delete in Hr as [Hr _].
      * now rewrite Hwo in Hr.
  - eapply allBound_configKept; [apply step_configKept|exact H].
Qed.

(** ** Not-a-number *)

Lemma Prim2SF_nan : Prim2SF nan = S754_nan.
Proof. reflexivity. Qed.

Lemma is_nan_eq (v : float) : is_nan v = true -> v = nan.
Proof.
  unfold is_nan. rewrite FloatAxioms.eqb_spec. intros H. apply Prim2SF_inj.
  rewrite Prim2SF_nan. unfold SFeqb, SFcompare in H.
  destruct (Prim2SF v) as [sv|sv| |sv m e]; try reflexivity; exfalso.
  - discriminate.
  - destruct sv; discriminate.
  - rewrite Z.compare_refl in H.
    rewrite Pos.compare_cont_refl in H. destruct sv; discriminate.
Qed.

Lemma mul_nan_l (v : float) : nan * v = nan.
Proof. apply Prim2SF_inj. now rewrite mul_spec, Prim2SF_nan. Qed.

Lemma mul_nan_r (v : float) : v * nan = nan.
Proof.
  apply Prim2SF_inj. rewrite mul_spec, Prim2SF_nan.
  now destruct (Prim2SF v).
Qed.

Lemma add_nan_l (v : float) : nan + v = nan.
Proof. apply Prim2SF_inj. now rewrite add_spec, Prim2SF_nan. Qed.

Lemma add_nan_r (v : float) : v + nan = nan.
Proof.
  apply Prim2SF_inj. rewrite add_spec, Prim2SF_nan.
  now destruct (Prim2SF v).
Qed.

Lemma sub_nan_r (v : float) : v - nan = nan.
Proof.
  apply Prim2SF_inj. rewrite sub_spec, Prim2SF_nan.
  now destruct (Prim2SF v).
Qed.

Lemma div_nan_l (v : float) : nan / v = nan.
Proof. apply Prim2SF_inj. now rewrite div_spec, Prim2SF_nan. Qed.

Lemma floor_nan : Num.floor nan = nan.
Proof. reflexivity. Qed.

Lemma leb_nan_l (v : float) : (nan <=? v) = false.
Proof. now rewrite leb_spec, Prim2SF_nan. Qed.

Lemma leb_nan_r (v : float) : (v <=? nan) = false.
Proof. rewrite leb_spec, Prim2SF_nan. now destruct (Prim2SF v). Qed.

(** A finite number minus itself is [+0]. *)
Lemma sub_diag (v : float) : is_finite v = true -> v - v = 0.
Proof.
  unfold is_finite, is_nan, is_infinity. rewrite !FloatAxioms.eqb_spec, abs_spec.
  intros H. apply Prim2SF_inj. rewrite sub_spec.
  change (Prim2SF 0) with (S754_zero false).
  change (Prim2SF infinity) with (S754_infinity false) in H.
  destruct (Prim2SF v) as [sv|sv| |sv m e]; cbn in H.
  - now destruct sv.
  - rewrite orb_true_r in H. discriminate.
  - discriminate.
  - unfold SF64sub, SFsub. cbv zeta. now rewrite Z.sub_diag.
Qed.

(** ** Two circles at the same place *)

(** Two circles with the same finite centre and a positive sum of radii:
    the distance is 0, the pair is in contact, and the normal, the
    normalised zero vector, is [(NaN, NaN)]; so is the contact point. *)
Theorem narrowPhase_coincident (this : wref) (pair : Pair) (s : State)
    (rA rB : float) :
  shape (body s (pairA pair)) = Circle rA ->
  shape (body s (pairB pair)) = Circle rB ->
  position (body s (pairA pair)) = position (body s (pairB pair)) ->
  is_finite (x (position (body s (pairA pair)))) = true ->
  is_finite (y (position (body s (pairA pair)))) = true ->
  (0 <? rA + rB) = true ->
  _contacts (worlds (snd (World.narrowPhasePair this pair s)) this)
  = _contacts (worlds s this)
    ++ [mkContact (pairA pair) (pairB pair) (mkVector2 nan nan)
          (rA + rB - 0) (mkVector2 nan nan)].
Proof.
  intros HA HB Hpos Hx Hy Hr.
  unfold World.narrowPhasePair, bind, getBody. rewrite HA, HB, <- Hpos.
  rewrite !(sub_diag _ Hx), !(sub_diag _ Hy).
  change (sqrt (Num.pow2 0 + Num.pow2 0)) with 0. rewrite Hr.
  change (Vector2.normalize (mkVector2 0 0)) with (mkVector2 nan nan).
  cbn [x y]. rewrite !mul_nan_l, !add_nan_r.
  unfold modWorld, PhysicsBody.wakeUp, modBody. cbn. now rewrite upd_eq.
Qed.

(** ** A contact whose normal is not a number *)

Lemma corrected_velocity (c : Contact) (h : bref -> PhysicsBody) (r : bref) :
  velocity (corrected c h r) = velocity (h r).
Proof.
  unfold corrected.
  destruct (isStatic (h (bodyA c))); destruct (isStatic (h (bodyB c)));
    try reflexivity.
  - upd_cases r (bodyB c); reflexivity.
  - upd_cases r (bodyA c); reflexivity.
  - upd_cases r (bodyB c); [|upd_cases r (bodyA c); reflexivity].
    cbn. upd_cases (bodyB c) (bodyA c); reflexivity.
Qed.

Lemma pushedBack_nan (corr inv : float) (p : Vector2) :
  pushedBack (mkVector2 nan nan) corr inv p = mkVector2 nan nan.
Proof. unfold pushedBack. cbn. now rewrite !mul_nan_l, !sub_nan_r. Qed.

Lemma pushedForth_nan (corr inv : float) (p : Vector2) :
  pushedForth (mkVector2 nan nan) corr inv p = mkVector2 nan nan.
Proof. unfold pushedForth. cbn. now rewrite !mul_nan_l, !add_nan_r. Qed.

Lemma corrected_nan (c : Contact) (h : bref -> PhysicsBody) (r : bref) :
  normal c = mkVector2 nan nan ->
  r = bodyA c \/ r = bodyB c -> isStatic (h r) = false ->
  position (corrected c h r) = mkVector2 nan nan.
Proof.
  intros Hn Hr Hst. unfold corrected. rewrite Hn.
  destruct (isStatic (h (bodyA c))) eqn:HA;
    destruct (isStatic (h (bodyB c))) eqn:HB.
  - destruct Hr as [-> | ->]; congruence.
  - destruct Hr as [-> | ->]; [congruence|]. upd_simpl. cbn.
    apply pushedForth_nan.
  - destruct Hr as [-> | ->]; [|congruence]. upd_simpl. cbn.
    apply pushedBack_nan.
  - destruct (Nat.eq_dec r (bodyB c)) as [->|Hne].
    + upd_simpl. cbn. apply pushedForth_nan.
    + destruct Hr as [-> | ->]; [|contradiction]. upd_simpl. cbn.
      apply pushedBack_nan.
Qed.

(** Resolving a contact whose normal is [(NaN, NaN)], of bodies that are
    not both static: no velocity changes (the comparison of the relative
    velocity along the normal with 0 is false), and the positional
    correction sets the position of each body of the contact that is not
    static to [(NaN, NaN)]. *)
Theorem resolveContact_nan_normal (c : Contact) (s : State) :
  normal c = mkVector2 nan nan ->
  isStatic (body s (bodyA c)) && isStatic (body s (bodyB c)) = false ->
  fst (World.resolveContact c s) = Ok tt /\
  (forall r, velocity (body (snd (World.resolveContact c s)) r)
             = velocity (body s r)) /\
  (forall r, r = bodyA c \/ r = bodyB c -> isStatic (body s r) = false ->
             position (body (snd (World.resolveContact c s)) r)
             = mkVector2 nan nan).
Proof.
  intros Hn Hst.
  destruct (fixPenetration_run c s) as (s' & Hrun & _ & _ & Hb).
  assert (E : World.resolveContact c s = (Ok tt, s')).
  { unfold World.resolveContact. unfold bind at 1 2.
    unfold getBody at 1 2. rewrite Hst, Hn. unfold Vector2.dot. cbn [x y].
    rewrite !mul_nan_r, add_nan_l. change (nan <? 0) with false.
    unfold World.when at 1. unfold bind at 1. unfold ret at 1.
    exact Hrun. }
  rewrite E. cbn [fst snd].
  split; [reflexivity|]. split.
  - intros r. rewrite Hb. apply corrected_velocity.
  - intros r Hr Hs. rewrite Hb. now apply corrected_nan.
Qed.

(** ** Boxes without cells and boxes with too many *)

Lemma cellsRow_stuck (n : nat) (g : SpatialGrid) (maxx cy cx : float) :
  cx + 1 = cx -> (cx <=? maxx) = true ->
  forall acc, SpatialGrid.cellsRow n g maxx cy cx acc = OutOfFuel.
Proof.
  intros Hfix Hle. induction n as [|n IH]; intros acc; [reflexivity|].
  cbn [SpatialGrid.cellsRow]. rewrite Hle, Hfix. apply IH.
Qed.

Lemma cellsRow_no_throw (n : nat) (g : SpatialGrid) (maxx cy : float) :
  forall cx acc, SpatialGrid.cellsRow n g maxx cy cx acc <> TypeError.
Proof.
  induction n as [|n IH]; intros cx acc; [discriminate|].
  cbn [SpatialGrid.cellsRow]. destruct (cx <=? maxx); [apply IH|discriminate].
Qed.

Lemma cellsRows_stuck (n fuel : nat) (g : SpatialGrid)
    (minx maxx maxy cy : float) :
  (cy <=? maxy) = true ->
  cy + 1 = cy \/ (minx + 1 = minx /\ (minx <=? maxx) = true) ->
  forall acc,
    SpatialGrid.cellsRows n fuel g minx maxx maxy cy acc = OutOfFuel.
Proof.
  intros Hle Hfix. induction n as [|n IH]; intros acc; [reflexivity|].
  cbn [SpatialGrid.cellsRows]. rewrite Hle.
  destruct Hfix as [Hy|[Hx Hlx]].
  - destruct (SpatialGrid.cellsRow fuel g maxx cy minx acc) as [acc'| |] eqn:E;
      [|now apply cellsRow_no_throw in E|reflexivity].
    rewrite Hy. apply IH.
  - now rewrite cellsRow_stuck.
Qed.


Lemma cellsOf_nan (fuel : nat) (g : SpatialGrid) (box : AABB) :
  fuel <> 0%nat ->
  is_nan (y (min box)) || is_nan (y (max box)) = true ->
  SpatialGrid.cellsOf fuel g box = Ok [].
Proof.
  intros Hf Hnan. destruct fuel as [|n]; [contradiction|].
  unfold SpatialGrid.cellsOf, SpatialGrid.worldToCell. cbn [x y].
  cbn [SpatialGrid.cellsRows].
  apply orb_true_iff in Hnan as [->%is_nan_eq| ->%is_nan_eq];
    rewrite div_nan_l, floor_nan.
  - now rewrite leb_nan_l.
  - now rewrite leb_nan_r.
Qed.

(** A box with a [y] coordinate that is not a number, as the box of a body
    whose position is not a number, has no cell: a query of it finds
    nothing, and [addBody] returns normally, has put the body into no
    partition and has set [isInGrid]. *)
Theorem nan_box_has_no_cell (fuel : nat) (this : gref) (b : bref)
    (s : State) :
  fuel <> 0%nat ->
  is_nan (y (min (aabb (body s b)))) || is_nan (y (max (aabb (body s b))))
    = true ->
  fst (SpatialGrid.getCellsInAABB fuel this (aabb (body s b)) s) = Ok [] /\
  fst (SpatialGrid.queryAABB fuel this (aabb (body s b)) s) = Ok [] /\
  fst (SpatialGrid.addBody fuel this b s) = Ok tt /\
  grids (snd (SpatialGrid.addBody fuel this b s)) = grids s /\
  isInGrid (body (snd (SpatialGrid.addBody fuel this b s)) b) = true.
Proof.
  intros Hf Hnan. pose proof (cellsOf_nan fuel (grids s this) _ Hf Hnan) as H.
  unfold SpatialGrid.addBody, SpatialGrid.queryAABB,
    bind, getBody, SpatialGrid.getCellsInAABB.
  rewrite H. cbn. rewrite upd_eq. repeat split.
Qed.

(** ** The narrow phase and the order of a pair *)

Lemma narrowPhasePair_contacts (this : wref) (pair : Pair) (s : State) :
  _contacts (worlds (snd (World.narrowPhasePair this pair s)) this)
  = match shape (body s (pairA pair)), shape (body s (pairB pair)) with
    | Circle rA, Circle rB =>
        if circleToCircle rA (position (body s (pairA pair)))
                          rB (position (body s (pairB pair)))
        then _contacts (worlds s this)
             ++ [circleContact (pairA pair) (pairB pair)
                   (body s (pairA pair)) (body s (pairB pair)) rA rB]
        else _contacts (worlds s this)
    | _, _ => _contacts (worlds s this)
    end.
Proof.
  unfold World.narrowPhasePair, bind, getBody, circleToCircle.
  destruct (shape (body s (pairA pair))) as [rA|];
    destruct (shape (body s (pairB pair))) as [rB|]; try reflexivity.
  destruct (ltb _ (rA + rB)); [|reflexivity].
  unfold modWorld, PhysicsBody.wakeUp, modBody. cbn. now rewrite upd_eq.
Qed.

(** For two bodies with circles, the narrow phase adds a contact for the
    pair exactly when [circleToCircle] holds of the two circles, and then
    exactly one; whether it does, and the penetration of the contact, are
    the same for the pair in the other order. *)
Theorem narrowPhase_order_independent (this : wref) (A B : bref) (s : State)
    (rA rB : float) :
  shape (body s A) = Circle rA -> shape (body s B) = Circle rB ->
  _contacts (worlds (snd (World.narrowPhasePair this (mkPair A B) s)) this)
    = _contacts (worlds s this)
      ++ (if circleToCircle rA (position (body s A)) rB (position (body s B))
          then [circleContact A B (body s A) (body s B) rA rB] else []) /\
  _contacts (worlds (snd (World.narrowPhasePair this (mkPair B A) s)) this)
    = _contacts (worlds s this)
      ++ (if circleToCircle rA (position (body s A)) rB (position (body s B))
          then [circleContact B A (body s B) (body s A) rB rA] else []) /\
  penetration (circleContact A B (body s A) (body s B) rA rB)
    = penetration (circleContact B A (body s B) (body s A) rB rA).
Proof.
  intros HA HB. rewrite !narrowPhasePair_contacts. cbn [pairA pairB].
  rewrite HA, HB, (circleToCircle_comm rB).
  split; [|split].
  - destruct (circleToCircle _ _ _ _); [reflexivity|now rewrite app_nil_r].
  - destruct (circleToCircle _ _ _ _); [reflexivity|now rewrite app_nil_r].
  - unfold circleContact, centerDistance. cbn [penetration].
    now rewrite (square_sub_swap (x (position (body s A)))),
      (square_sub_swap (y (position (body s A)))), (add_comm rA).
Qed.

(** ** The lists of a world after a frame *)

Lemma postStep_run (this : wref) (s : State) :
  exists s', World.postStep this s = (Ok tt, s') /\
    _collisionPairs (worlds s' this) = [] /\ _contacts (worlds s' this) = [].
Proof.
  unfold World.postStep, bind, modWorld. eexists. split; [reflexivity|].
  cbn. now rewrite !upd_eq.
Qed.

(** A frame that returns normally leaves the list of pairs and the list of
    contacts of its world empty. *)
Theorem step_clears_lists (fuel : nat) (this : wref) (dt : float)
    (s s' : State) :
  World.step fuel this dt s = (Ok tt, s') ->
  _collisionPairs (worlds s' this) = [] /\ _contacts (worlds s' this) = [].
Proof.
  unfold World.step. unfold bind.
  repeat match goal with
         | |- context [match ?m s with _ => _ end] =>
             destruct (m s) as [[[]| |] ?s]; try discriminate
         | |- context [match ?m ?s0 with _ => _ end] =>
             destruct (m s0) as [[[]| |] ?s]; try discriminate
         end.
  match goal with
  | |- World.postStep this ?s0 = _ -> _ =>
      destruct (postStep_run this s0) as (sf & -> & H)
  end.
  intros E. now inversion E; subst.
Qed.

(** ** A frame of a world without bodies *)

Lemma foldM_idle {A B : Type} (l : list A) (f : B -> A -> M B) (b : B)
    (s : State) :
  (forall a, a ∈ l -> f b a s = (Ok b, s)) -> foldM l f b s = (Ok b, s).
Proof.
  induction l as [|a l IH]; intros H; [reflexivity|].
  cbn [foldM]. unfold bind. rewrite H by (apply elem_of_cons; now left).
  apply IH. intros a' Ha'. apply H, elem_of_cons. now right.
Qed.

Lemma generatePairs_empty (fuel : nat) (this : gref) (s : State) :
  (forall i p, partitions (grids s this) !! i = Some p -> p = []) ->
  SpatialGrid.generatePairs fuel this [] s = (Ok [], s).
Proof.
  intros Hempty. unfold SpatialGrid.generatePairs. cbn [forEach].
  unfold bind at 1. unfold ret at 1. unfold bind at 1. unfold getGrid at 1.
  apply foldM_idle. intros i Hi. unfold bind, getGrid.
  apply elem_of_seq in Hi as [_ Hi]. cbn in Hi.
  destruct (lookup_lt_is_Some_2 (partitions (grids s this)) i Hi) as [p Hp].
  rewrite Hp. now rewrite (Hempty i p Hp).
Qed.

(** A frame of a world that has no bodies and no contacts left, on a grid
    whose partitions are all empty: it returns normally with any bound on
    the loops of the grid, and changes nothing but the two lists of the
    world, which it leaves empty. *)
Theorem step_empty_world (fuel : nat) (this : wref) (dt : float)
    (s : State) :
  bodies (worlds s this) = [] ->
  _contacts (worlds s this) = [] ->
  (forall i p,
      partitions (grids s (grid (worlds s this))) !! i = Some p -> p = []) ->
  exists s',
    World.step fuel this dt s = (Ok tt, s') /\
    (forall r, body s' r = body s r) /\
    (forall g, grids s' g = grids s g) /\
    (forall w, w <> this -> worlds s' w = worlds s w) /\
    worlds s' this = set_contacts [] (set_collisionPairs [] (worlds s this)).
Proof.
  intros Hb Hc Hp.
  assert (E : World.stepBroadPhase fuel this dt s
              = (Ok tt, mkState (body s) (grids s)
                          (upd (worlds s) this
                             (set_collisionPairs [] (worlds s this))))).
  { unfold World.stepBroadPhase, bind, getWorld. rewrite Hb. cbn [forEach].
    unfold ret at 1. cbv beta iota. rewrite Hb.
    now rewrite (generatePairs_empty fuel _ s Hp). }
  unfold World.step. unfold bind at 1. rewrite E.
  unfold World.stepNarrowPhase, World.stepResolveStaticCollisions,
    World.stepResolveCollisions, World.stepIntegrate, World.postStep,
    bind, getWorld, modWorld, ret.
  cbn. repeat (progress (rewrite ?upd_eq, ?Hc, ?Hb; cbn)).
  eexists. split; [reflexivity|]. cbn. rewrite !upd_eq. repeat split.
  intros w Hw. now rewrite !upd_ne.
Qed.

(** ** The bodies of a world as a set *)

Lemma set_add_elem (b : bref) (l : RefSet) : b ∈ l -> set_add b l = l.
Proof. intros H. unfold set_add. now apply set_has_true in H as ->. Qed.

Lemma set_delete_absent (b : bref) (l : RefSet) :
  b ∉ l -> set_delete b l = l.
Proof.
  intros H. unfold set_delete, RefSet. induction l as [|a l IH]; [reflexivity|].
  rewrite filter_cons. apply not_elem_of_cons in H as [Hne Hl].
  destruct (decide (a <> b)) as [_|Hn]; [now rewrite IH|].
  exfalso. apply Hn. congruence.
Qed.

Lemma set_delete_add (b : bref) (l : RefSet) :
  b ∉ l -> set_delete b (set_add b l) = l.
Proof.
  intros H. unfold set_add.
  destruct (set_has b l) eqn:E; [now apply set_has_true in E|].
  pose proof (set_delete_absent b l H) as Hd.
  unfold set_delete, RefSet in *. rewrite filter_app, Hd, filter_cons.
  destruct (decide (b <> b)) as [Hn|_]; [contradiction|].
  now rewrite filter_nil, app_nil_r.
Qed.

(** The [bodies] of a world behave as a set in insertion order: after
    [addBody] the body is a member and the others are as before; after
    [removeBody] it is not; adding a member again changes nothing;
    removing a body that is not a member changes nothing; and adding a new
    body and removing it gives the collection back, in the same order. *)
Theorem World_bodies_set (this : wref) (b : bref) (s : State) :
  (forall r, r ∈ bodies (worlds (snd (World.addBody this b s)) this)
             <-> r ∈ bodies (worlds s this) \/ r = b) /\
  (forall r, r ∈ bodies (worlds (snd (World.removeBody this b s)) this)
             <-> r ∈ bodies (worlds s this) /\ r <> b) /\
  (b ∈ bodies (worlds s this) ->
   bodies (worlds (snd (World.addBody this b s)) this)
   = bodies (worlds s this)) /\
  (b ∉ bodies (worlds s this) ->
   bodies (worlds (snd (World.removeBody this b s)) this)
   = bodies (worlds s this) /\
   bodies (worlds (snd (World.removeBody this b
                          (snd (World.addBody this b s)))) this)
   = bodies (worlds s this)).
Proof.
  destruct (World_addBody_run this b s) as (s1 & E1 & _ & _ & _ & Hw1 & _).
  destruct (World_removeBody_run this b s) as (s2 & E2 & _ & _ & _ & Hw2 & _).
  destruct (World_removeBody_run this b s1)
    as (s3 & E3 & _ & _ & _ & Hw3 & _).
  rewrite E1, E2. cbn [snd]. rewrite E3. cbn [snd].
  rewrite Hw3, Hw1, Hw2. cbn [bodies set_bodies].
  split; [|split; [|split]].
  - intros r. apply elem_of_set_add.
  - intros r. apply elem_of_set_delete.
  - apply set_add_elem.
  - intros H. split; [now apply set_delete_absent|now apply set_delete_add].
Qed.

(** ** What a query finds *)

Lemma foldM_query_complete (this : gref) (cells : list float) :
  forall (acc res : list bref) (s s' : State),
    foldM cells (fun acc c =>
      let* g := getGrid this in
      match SpatialGrid.partitionAt g c with
      | Some partition => ret (acc ++ partition)
      | None => throw
      end) acc s = (Ok res, s') ->
    forall r,
      r ∈ acc \/
      (exists i, i ∈ cellIndexes cells /\ residentAt (grids s this) r i) ->
      r ∈ res.
Proof.
  induction cells as [|c cs IH]; intros acc res s s' H r Hr; cbn in H.
  - inversion H; subst. destruct Hr as [Hr|(i & Hi & _)]; [exact Hr|].
    now apply elem_of_nil in Hi.
  - unfold bind at 1 in H. unfold bind at 1 in H. unfold getGrid at 1 in H.
    unfold SpatialGrid.partitionAt at 1 in H.
    unfold cellIndexes in Hr. cbn in Hr.
    destruct (Num.to_index c) as [i0|] eqn:Hc; [|discriminate].
    destruct (partitions (grids s this) !! i0) as [p|] eqn:Hp;
      [|discriminate].
    unfold ret at 1 in H. apply (IH _ _ _ _ H).
    destruct Hr as [Hr|(i & Hi & Hres)].
    + left. apply elem_of_app. now left.
    + apply elem_of_cons in Hi as [->|Hi].
      * left. apply elem_of_app. right.
        destruct Hres as (p' & Hp' & Hin).
        rewrite Hp in Hp'. now injection Hp' as <-.
      * right. exists i. split; [exact Hi|exact Hres].
Qed.

(** [queryAABB] changes nothing, and when it returns, the bodies it
    returns are exactly the members of the partitions of the cells of the
    box. *)
Theorem queryAABB_finds_residents (fuel : nat) (this : gref) (box : AABB)
    (s s' : State) (res : list bref) :
  SpatialGrid.queryAABB fuel this box s = (Ok res, s') ->
  s' = s /\
  forall r, r ∈ res <->
    exists i, covers fuel (grids s this) box i /\
              residentAt (grids s this) r i.
Proof.
  intros Hrun. destruct (queryAABB_run _ _ _ _ _ _ Hrun) as (-> & cells & Hc & Hs).
  split; [reflexivity|]. intros r. split.
  - intros Hr. destruct (Hs r Hr) as (i & Hi & Hres).
    exists i. split; [|exact Hres]. now exists cells.
  - intros (i & (cells' & Hc' & Hi) & Hres).
    rewrite Hc in Hc'. injection Hc' as <-.
    revert Hrun. unfold SpatialGrid.queryAABB. unfold bind at 1.
    unfold SpatialGrid.getCellsInAABB. rewrite Hc. intros Hrun.
    apply (foldM_query_complete _ _ _ _ _ _ Hrun). right. now exists i.
Qed.

(** ** The sensor flag is not read *)

Lemma sensorBlind_ret {A : Type} (a : A) : sensorBlind (ret a).
Proof. intros s s' H. now split. Qed.

Lemma sensorBlind_throw {A : Type} : sensorBlind (@throw A).
Proof. intros s s' H. now split. Qed.

Lemma sensorBlind_bind {A B : Type} (m : M A) (k : A -> M B) :
  sensorBlind m -> (forall a, sensorBlind (k a)) -> sensorBlind (bind m k).
Proof.
  intros Hm Hk s s' H. unfold bind. destruct (Hm s s' H) as [Hr Hs].
  destruct (m s) as [[a| |] s1], (m s') as [[a'| |] s1']; cbn in Hr, Hs;
    try discriminate; try (now split).
  injection Hr as <-. now apply Hk.
Qed.

(** Reading a body and going on without looking at its sensor flag. *)
Lemma sensorBlind_getBody {B : Type} (r : bref) (k : PhysicsBody -> M B) :
  (forall b, k (set_isSensor false b) = k b) ->
  (forall b, sensorBlind (k b)) ->
  sensorBlind (bind (getBody r) k).
Proof.
  intros Hk Hb s s' H. unfold bind, getBody.
  destruct H as (Hbody & Hg & Hw).
  rewrite <- (Hk (body s' r)), (Hbody r), Hk.
  apply Hb. now split.
Qed.

Lemma sensorBlind_getGrid (r : gref) : sensorBlind (getGrid r).
Proof.
  intros s s' H. split; [|exact H]. cbn. destruct H as (_ & Hg & _).
  now rewrite Hg.
Qed.

Lemma sensorBlind_getWorld (r : wref) : sensorBlind (getWorld r).
Proof.
  intros s s' H. split; [|exact H]. cbn. destruct H as (_ & _ & Hw).
  now rewrite Hw.
Qed.

Lemma sensorBlind_getCellsInAABB (fuel : nat) (this : gref) (box : AABB) :
  sensorBlind (SpatialGrid.getCellsInAABB fuel this box).
Proof.
  intros s s' H. split; [|exact H]. cbn. destruct H as (_ & Hg & _).
  now rewrite Hg.
Qed.

Lemma sensorBlind_modBody (r : bref) (f : PhysicsBody -> PhysicsBody) :
  (forall b b', sameButSensor b b' -> sameButSensor (f b) (f b')) ->
  sensorBlind (modBody r f).
Proof.
  intros Hf s s' (Hb & Hg & Hw). split; [reflexivity|].
  split; [|now split]. intros r'. cbn. upd_cases r' r; [|apply Hb].
  apply Hf, Hb.
Qed.

Lemma sensorBlind_modGrid (r : gref) (f : SpatialGrid -> SpatialGrid) :
  sensorBlind (modGrid r f).
Proof.
  intros s s' (Hb & Hg & Hw). split; [reflexivity|].
  split; [exact Hb|]. split; [|exact Hw].
  intros g. cbn. upd_cases g r; [now rewrite Hg|apply Hg].
Qed.

Lemma sensorBlind_modWorld (r : wref) (f : World -> World) :
  sensorBlind (modWorld r f).
Proof.
  intros s s' (Hb & Hg & Hw). split; [reflexivity|].
  split; [exact Hb|]. split; [exact Hg|].
  intros w. cbn. upd_cases w r; [now rewrite Hw|apply Hw].
Qed.

Lemma sensorBlind_forEach {A : Type} (l : list A) (f : A -> M unit) :
  (forall a, sensorBlind (f a)) -> sensorBlind (forEach l f).
Proof.
  intros Hf. induction l as [|a l IH]; cbn.
  - apply sensorBlind_ret.
  - apply sensorBlind_bind; [apply Hf|intros _; exact IH].
Qed.

Lemma sensorBlind_foldM {A B : Type} (l : list A) (f : B -> A -> M B) :
  (forall b a, sensorBlind (f b a)) -> forall b, sensorBlind (foldM l f b).
Proof.
  intros Hf. induction l as [|a l IH]; intros b; cbn.
  - apply sensorBlind_ret.
  - apply sensorBlind_bind; [apply Hf|intros b'; apply IH].
Qed.

Lemma sensorBlind_forEachLive {B : Type} (l : RefSet) (live : M RefSet)
    (f : B -> bref -> M B) :
  sensorBlind live -> (forall b a, sensorBlind (f b a)) ->
  forall b, sensorBlind (forEachLive l live f b).
Proof.
  intros Hl Hf. induction l as [|a l IH]; intros b; cbn.
  - apply sensorBlind_ret.
  - apply sensorBlind_bind; [exact Hl|intros cur].
    apply sensorBlind_bind; [|intros b'; apply IH].
    destruct (set_has a cur); [apply Hf|apply sensorBlind_ret].
Qed.

(** An update of the fields of a body that does not look at the flag. *)
Ltac sensor_update :=
  let b := fresh "b" in
  let b' := fresh "b'" in
  let H := fresh "H" in
  intros b b' H; destruct b, b'; unfold sameButSensor in *;
  cbn in H |- *; injection H; intros; subst; reflexivity.

Ltac sensor_walk :=
  repeat first
    [ apply sensorBlind_ret
    | apply sensorBlind_throw
    | apply sensorBlind_getGrid
    | apply sensorBlind_getWorld
    | apply sensorBlind_getCellsInAABB
    | apply sensorBlind_modGrid
    | apply sensorBlind_modWorld
    | apply sensorBlind_modBody; sensor_update
    | apply sensorBlind_forEach; intros ?
    | apply sensorBlind_foldM; intros ? ?
    | apply sensorBlind_forEachLive; [|intros ? ?]
    | apply sensorBlind_getBody;
      [ let b := fresh "b" in intros b; destruct b; reflexivity | intros ? ]
    | apply sensorBlind_bind; [|intros ?]
    | match goal with
      | |- sensorBlind (if ?c then _ else _) => destruct c
      | |- sensorBlind (match ?c with _ => _ end) => destruct c
      end ].

(** No method reads [isSensor]: a frame run from two states that differ
    only in sensor flags returns or throws alike and leaves two states
    that differ only in sensor flags.  A body marked as a sensor collides
    and is pushed like any other. *)
Theorem step_ignores_isSensor (fuel : nat) (this : wref) (dt : float)
    (s s' : State) :
  sensorEq s s' ->
  fst (World.step fuel this dt s) = fst (World.step fuel this dt s') /\
  sensorEq (snd (World.step fuel this dt s))
           (snd (World.step fuel this dt s')).
Proof.
  revert s s'. change (sensorBlind (World.step fuel this dt)).
  unfold_methods. sensor_walk.
Qed.

(** ** The bodies that stay in the grid *)

Section Sweep.

Variable fuel : nat.
Variable this : gref.
Variable bodies : RefSet.
Variable s0 : State.

Lemma sweepInv_weaken (Phi Psi : bref -> nat -> Prop) (s : State) :
  (forall r j, Phi r j -> Psi r j) ->
  sweepInv fuel this bodies s0 Phi s -> sweepInv fuel this bodies s0 Psi s.
Proof.
  intros H (HI & HS & HR). split; [exact HI|]. split; [exact HS|].
  intros r j Hres. apply H, HR, Hres.
Qed.

(** After [removeBody], the body is in no partition. *)
Lemma removeBody_sweep (Phi : bref -> nat -> Prop) (b : bref) :
  hoare (sweepInv fuel this bodies s0 Phi) (SpatialGrid.removeBody fuel this b)
    (fun _ => sweepInv fuel this bodies s0 (fun r j => Phi r j /\ r <> b)).
Proof.
  intros s [] s' (HI & HS & HR) Hrun. split; [|split].
  - exact (removeBody_inv fuel this bodies b s tt s' HI Hrun).
  - intros r. pose proof (removeBody_gridFrame fuel this b s) as (Hb & _).
    rewrite Hrun in Hb. cbn [snd] in Hb.
    rewrite (sameButGridFields_isSleeping _ _ (Hb r)). apply HS.
  - rewrite removeBody_touchCells in Hrun.
    apply touchCells_Ok in Hrun as (cells & ps1 & Hcells & Hupd & Ht).
    intros r j Hres. destruct (Nat.eq_dec r b) as [->|Hne].
    + apply (touched_resident_self fuel this b false (set_delete b)
               (set_delete_spec b) s s' cells ps1 Hcells Hupd Ht) in Hres.
      * destruct Hres as [Hf _]. discriminate.
      * apply HI.
    + split; [|exact Hne]. apply HR.
      now apply (touched_resident_other this b false (set_delete b)
                   (set_delete_spec b) s s' cells ps1 Hupd Ht) in Hres.
Qed.

Lemma pairWith_sweep (Phi : bref -> nat -> Prop) (A B : bref)
    (acc : list Pair) :
  hoare (sweepInv fuel this bodies s0 Phi) (SpatialGrid.pairWith A acc B)
    (fun _ => sweepInv fuel this bodies s0 Phi).
Proof.
  intros s acc' s' (HI & HS & HR) Hrun. split; [|split].
  - exact (pairWith_inv fuel this bodies A B acc s acc' s' HI Hrun).
  - intros r. pose proof (pairWith_gridFrame this A B acc s) as (Hb & _).
    rewrite Hrun in Hb. cbn [snd] in Hb.
    rewrite (sameButGridFields_isSleeping _ _ (Hb r)). apply HS.
  - revert Hrun. unfold SpatialGrid.pairWith, bind, getBody, ret, modBody.
    destruct (_ =? _); intros H; inversion H; subst; exact HR.
Qed.

(** The body of the loop over a partition: afterwards the body, if it is
    still in a partition, is asleep. *)
Lemma pairsOf_sweep (Phi : bref -> nat -> Prop) (A : bref)
    (acc : list Pair) :
  hoare (sweepInv fuel this bodies s0 Phi) (SpatialGrid.pairsOf fuel this acc A)
    (fun _ => sweepInv fuel this bodies s0 (fun r j =>
       Phi r j /\ (r = A -> _isSleeping (body s0 A) = true))).
Proof.
  intros s acc' s' HInv. unfold SpatialGrid.pairsOf.
  unfold bind at 1. unfold getBody at 1.
  destruct (_isSleeping (body s A)) eqn:HA.
  - intros H. inversion H; subst.
    apply (sweepInv_weaken Phi); [|exact HInv].
    intros r j HP. split; [exact HP|]. intros _.
    destruct HInv as (_ & HS & _). now rewrite <- (HS A).
  - intros Hrun.
    match type of Hrun with
    | ?m s = _ =>
        cut (hoare (sweepInv fuel this bodies s0 Phi) m
               (fun _ => sweepInv fuel this bodies s0 (fun r j => Phi r j /\ r <> A)));
        [intros Hh; apply (sweepInv_weaken (fun r j => Phi r j /\ r <> A));
         [|exact (Hh s acc' s' HInv Hrun)]|]
    end.
    { intros r j [HP Hne]. split; [exact HP|]. contradiction. }
    eapply hoare_bind; [apply removeBody_sweep|]. intros u.
    eapply hoare_bind; [apply getBody_inv|]. intros a.
    eapply hoare_bind; [apply queryAABB_inv|]. intros res.
    apply (hoare_foldM (fun _ => sweepInv fuel this bodies s0 (fun r j => Phi r j /\ r <> A))).
    intros acc0 B _. apply pairWith_sweep.
Qed.

(** The loop over the members of partition [i]. *)
Lemma forEachLive_sweep (i : nat) (Phi : bref -> nat -> Prop) :
  forall (l vis : list bref) (acc : list Pair),
    hoare
      (sweepInv fuel this bodies s0 (fun r j => Phi r j /\
              (j = i -> r ∈ vis -> _isSleeping (body s0 r) = true)))
      (forEachLive l
         (let* g := getGrid this in ret (default [] (partitions g !! i)))
         (SpatialGrid.pairsOf fuel this) acc)
      (fun _ => sweepInv fuel this bodies s0 (fun r j => Phi r j /\
              (j = i -> r ∈ vis ++ l -> _isSleeping (body s0 r) = true))).
Proof.
  induction l as [|a l IH]; intros vis acc.
  - cbn. intros s acc' s' HInv H. inversion H; subst.
    now rewrite app_nil_r.
  - cbn [forEachLive]. intros s acc' s' HInv.
    unfold bind at 1. unfold bind at 1. unfold getGrid at 1.
    unfold ret at 1. unfold bind at 1.
    destruct (set_has a (default [] (partitions (grids s this) !! i)))
      eqn:Hlive.
    + destruct (SpatialGrid.pairsOf fuel this acc a s) as [[acc1| |] s1]
        eqn:Hrun; try discriminate.
      intros Hrest.
      pose proof (pairsOf_sweep _ a acc s acc1 s1 HInv Hrun) as H1.
      replace (vis ++ a :: l) with ((vis ++ [a]) ++ l)
        by now rewrite <- app_assoc.
      apply (IH (vis ++ [a]) acc1 s1 acc' s'); [|exact Hrest].
      apply (sweepInv_weaken
               (fun r j =>
                  (Phi r j /\
                   (j = i -> r ∈ vis -> _isSleeping (body s0 r) = true)) /\
                  (r = a -> _isSleeping (body s0 a) = true)));
        [|exact H1].
      intros r j [[HP Hv] Ha]. split; [exact HP|].
      intros Hj [Hr|Hr]%elem_of_app; [now apply Hv|].
      apply list_elem_of_singleton in Hr. subst r. now apply Ha.
    + unfold ret at 1. intros Hrest.
      replace (vis ++ a :: l) with ((vis ++ [a]) ++ l)
        by now rewrite <- app_assoc.
      apply (IH (vis ++ [a]) acc s acc' s'); [|exact Hrest].
      destruct HInv as (HI & HS & HR). split; [exact HI|].
      split; [exact HS|]. intros r j Hres.
      destruct (HR r j Hres) as [HP Hv]. split; [exact HP|].
      intros Hj [Hr|Hr]%elem_of_app; [now apply Hv|].
      apply list_elem_of_singleton in Hr. subst r j. exfalso.
      destruct Hres as (p & Hp & Hin). unfold RefSet in *.
      rewrite Hp in Hlive. change (set_has a p = false) in Hlive.
      apply set_has_true in Hin. congruence.
Qed.

(** The loop over the partitions. *)
Lemma foldM_sweep :
  forall (l done : list nat) (acc : list Pair),
    hoare
      (sweepInv fuel this bodies s0
         (fun r j => j ∈ done -> _isSleeping (body s0 r) = true))
      (foldM l (fun acc i =>
         let* g := getGrid this in
         match partitions g !! i with
         | Some partition =>
             forEachLive partition
               (let* g := getGrid this in
                ret (default [] (partitions g !! i)))
               (SpatialGrid.pairsOf fuel this) acc
         | None => throw
         end) acc)
      (fun _ =>
         sweepInv fuel this bodies s0
           (fun r j => j ∈ done ++ l -> _isSleeping (body s0 r) = true)).
Proof.
  induction l as [|i l IH]; intros done acc.
  - cbn. intros s acc' s' HInv H. inversion H; subst.
    now rewrite app_nil_r.
  - cbn [foldM]. intros s acc' s' HInv.
    unfold bind at 1. unfold bind at 1. unfold getGrid at 1.
    destruct (partitions (grids s this) !! i) as [part|] eqn:Hpart;
      [|discriminate].
    destruct (forEachLive part _ (SpatialGrid.pairsOf fuel this) acc s)
      as [[acc1| |] s1] eqn:Hrun; try discriminate.
    intros Hrest.
    replace (done ++ i :: l) with ((done ++ [i]) ++ l)
      by now rewrite <- app_assoc.
    apply (IH (done ++ [i]) acc1 s1 acc' s'); [|exact Hrest].
    pose proof (forEachLive_sweep i
                  (fun r j =>
                     (j ∈ done -> _isSleeping (body s0 r) = true) /\
                     (j = i -> r ∈ part))
                  part [] acc s acc1 s1) as H1.
    apply (sweepInv_weaken
             (fun r j =>
                ((j ∈ done -> _isSleeping (body s0 r) = true) /\
                 (j = i -> r ∈ part)) /\
                (j = i -> r ∈ [] ++ part ->
                 _isSleeping (body s0 r) = true))).
    + intros r j [[Hd Hp] Hv] [Hj|Hj]%elem_of_app; [now apply Hd|].
      apply list_elem_of_singleton in Hj. subst j.
      apply Hv; [reflexivity|]. now apply Hp.
    + apply H1; [|exact Hrun].
      destruct HInv as (HI & HS & HR). split; [exact HI|].
      split; [exact HS|]. intros r j Hres. split; [split|].
      * apply HR, Hres.
      * intros ->. destruct Hres as (p & Hp & Hin). unfold RefSet in *.
        rewrite Hpart in Hp. now injection Hp as <-.
      * intros _ Hin. now apply elem_of_nil in Hin.
Qed.

End Sweep.

(** The loop over the partitions keeps their number. *)
Lemma foldM_sweep_length (fuel : nat) (this : gref) (l : list nat)
    (acc : list Pair) (s : State) (pairs : list Pair) (s' : State) :
  foldM l (fun acc i =>
    let* g := getGrid this in
    match partitions g !! i with
    | Some partition =>
        forEachLive partition
          (let* g := getGrid this in ret (default [] (partitions g !! i)))
          (SpatialGrid.pairsOf fuel this) acc
    | None => throw
    end) acc s = (Ok pairs, s') ->
  List.length (partitions (grids s' this))
  = List.length (partitions (grids s this)).
Proof.
  intros Hrun.
  match type of Hrun with
  | ?m s = _ => assert (Hk : keeps (gridFrame this) m)
  end.
  { unfold_methods. grid_walk this. }
  specialize (Hk s). rewrite Hrun in Hk.
  destruct Hk as (_ & (_ & _ & _ & Hlen) & _). exact Hlen.
Qed.

Lemma hoare_and_frame {A : Type} (P : State -> Prop)
    (R : State -> State -> Prop)
    (R_trans : forall s1 s2 s3, R s1 s2 -> R s2 s3 -> R s1 s3)
    (s0 : State) (m : M A) :
  hoare P m (fun _ => P) -> keeps R m ->
  hoare (fun s => P s /\ R s0 s) m (fun _ s => P s /\ R s0 s).
Proof.
  intros Hh Hk s a s' [HP HR] Hrun. split; [eapply Hh; eauto|].
  eapply R_trans; [exact HR|]. specialize (Hk s). now rewrite Hrun in Hk.
Qed.

(** The first loop of [generatePairs]. *)
Lemma insertAll_inv (fuel : nat) (this : gref) (bodies : RefSet)
    (s0 : State) :
  hoare (fun s => pairsInv fuel this bodies s /\ gridFrame this s0 s)
    (forEach bodies (fun body =>
       modBody body (set_internalLastPairId (-1)) ;;
       let* b := getBody body in
       if isInGrid b then ret tt else SpatialGrid.addBody fuel this body))
    (fun _ s => pairsInv fuel this bodies s /\ gridFrame this s0 s).
Proof.
  apply hoare_forEach. intros b Hb.
  apply (hoare_and_frame _ _ (gridFrame_trans this)).
  - eapply hoare_bind; [apply setLastPairId_inv|]. intros u.
    eapply hoare_bind; [apply getBody_inv|]. intros bd.
    destruct (isInGrid bd); [apply ret_inv|now apply addBody_inv].
  - unfold_methods. grid_walk this.
Qed.

(** When [generatePairs] returns, the bodies in the partitions are
    asleep, and the flags match. *)
Lemma generatePairs_residents_asleep (fuel : nat) (this : gref)
    (bodies : RefSet) (s s' : State) (pairs : list Pair) :
  gridExact fuel this s ->
  (forall b, b ∈ bodies -> hasCell fuel this s b) ->
  SpatialGrid.generatePairs fuel this bodies s = (Ok pairs, s') ->
  forall r, resident (grids s' this) r ->
            _isSleeping (body s' r) = true /\ flagMatches this s'.
Proof.
  intros Hex Hcell Hrun.
  revert Hrun. unfold SpatialGrid.generatePairs. unfold bind at 1.
  destruct (forEach bodies _ s) as [[[]| |] s1] eqn:H1; try discriminate.
  unfold bind at 1. unfold getGrid at 1. intros Hrun.
  destruct (insertAll_inv fuel this bodies s s tt s1) as [HI1 HF1];
    [split; [now split|apply gridFrame_refl]|exact H1|].
  assert (Hinv1 : sweepInv fuel this bodies s
                    (fun r j => j ∈ [] ->
                                _isSleeping (body s r) = true) s1).
  { split; [exact HI1|]. split.
    - intros r. destruct HF1 as (Hb & _).
      apply (sameButGridFields_isSleeping _ _ (Hb r)).
    - intros r j _ Hin. now apply elem_of_nil in Hin. }
  pose proof (foldM_sweep fuel this bodies s _ [] [] s1 pairs s' Hinv1 Hrun)
    as (HI' & HS' & HR').
  intros r [j Hj]. split; [|apply HI'].
  rewrite (HS' r). apply (HR' r j Hj). cbn [app].
  apply elem_of_seq. split; [lia|]. cbn.
  destruct Hj as (p & Hp & _). apply lookup_lt_Some in Hp.
  pose proof (foldM_sweep_length fuel this _ [] s1 pairs s' Hrun) as Hlen.
  lia.
Qed.


(** ** Arithmetic on numbers with an integer value *)

Section IntegerNumbers.

Local Open Scope Z_scope.

Lemma digits2_shift (p : positive) (k : Z) (M : positive) :
  0 <= k -> Z.pos M = Z.pos p * 2 ^ k ->
  Z.pos (digits2_pos M) = Z.pos (digits2_pos p) + k.
Proof.
  intros Hk HM. apply digits2_unique. rewrite HM.
  pose proof (digits2_bounds p) as [Hlo Hhi].
  assert (Hd : 1 <= Z.pos (digits2_pos p)) by lia.
  replace (Z.pos (digits2_pos p) + k - 1)
    with (Z.pos (digits2_pos p) - 1 + k) by lia.
  rewrite !Z.pow_add_r by lia.
  assert (Hp : 0 < 2 ^ k) by (apply Z.pow_pos_nonneg; lia).
  split; [apply Z.mul_le_mono_nonneg_r; lia|apply Z.mul_lt_mono_pos_r; lia].
Qed.

Lemma digits2_small (p : positive) :
  Z.pos p < 2 ^ 53 -> 1 <= Z.pos (digits2_pos p) <= 53.
Proof.
  intros Hp. pose proof (digits2_bounds p) as [Hlo _]. split; [lia|].
  destruct (Z_le_gt_dec (Z.pos (digits2_pos p)) 53) as [H|H]; [exact H|].
  exfalso. assert (H' : 2 ^ 53 <= 2 ^ (Z.pos (digits2_pos p) - 1))
    by (apply Z.pow_le_mono_r; lia).
  lia.
Qed.

Lemma intMant_val (p : positive) :
  Z.pos p < 2 ^ 53 ->
  Z.pos (intMant p) = Z.pos p * 2 ^ (53 - Z.pos (digits2_pos p)) /\
  Z.pos (digits2_pos (intMant p)) = 53.
Proof.
  intros Hp. pose proof (digits2_small p Hp) as Hd.
  assert (Hpow : 0 < 2 ^ (53 - Z.pos (digits2_pos p)))
    by (apply Z.pow_pos_nonneg; lia).
  assert (Hv : Z.pos (intMant p)
               = Z.pos p * 2 ^ (53 - Z.pos (digits2_pos p))).
  { unfold intMant. rewrite Z2Pos.id; [reflexivity|]. lia. }
  split; [exact Hv|].
  rewrite (digits2_shift p (53 - Z.pos (digits2_pos p)) _ ltac:(lia) Hv).
  lia.
Qed.

Lemma shr_1_double (k : Z) :
  0 <= k ->
  shr_1 (Build_shr_record (2 * k) false false) = Build_shr_record k false false.
Proof. intros Hk. destruct k as [|p|p]; [reflexivity|reflexivity|lia]. Qed.

Lemma iter_shr_1_exact (p : positive) :
  forall q, 0 <= q ->
    SpecFloat.iter_pos shr_1 p (Build_shr_record (q * 2 ^ Z.pos p) false false)
    = Build_shr_record q false false.
Proof.
  induction p as [p IH|p IH|]; intros q Hq; cbn [SpecFloat.iter_pos].
  - rewrite pow2_xI.
    replace (q * (2 * (2 ^ Z.pos p * 2 ^ Z.pos p)))
      with (2 * (q * 2 ^ Z.pos p * 2 ^ Z.pos p)) by lia.
    assert (Hp : 0 < 2 ^ Z.pos p) by (apply Z.pow_pos_nonneg; lia).
    rewrite shr_1_double by nia.
    rewrite IH by nia. now rewrite IH.
  - rewrite pow2_xO.
    replace (q * (2 ^ Z.pos p * 2 ^ Z.pos p))
      with (q * 2 ^ Z.pos p * 2 ^ Z.pos p) by lia.
    assert (Hp : 0 < 2 ^ Z.pos p) by (apply Z.pow_pos_nonneg; lia).
    rewrite IH by nia. now rewrite IH.
  - change (2 ^ 1) with 2. replace (q * 2) with (2 * q) by lia.
    now apply shr_1_double.
Qed.

Lemma shr_exact (q e n : Z) :
  0 <= n -> 0 <= q ->
  shr (Build_shr_record (q * 2 ^ n) false false) e n
  = (Build_shr_record q false false, e + n).
Proof.
  intros Hn Hq. destruct n as [|p|p]; cbn [shr].
  - now rewrite Z.pow_0_r, Z.mul_1_r, Z.add_0_r.
  - now rewrite iter_shr_1_exact.
  - lia.
Qed.

(** Rounding a mantissa of at least 53 digits whose value is an integer
    below [2^53]: the result is that integer. *)
Lemma binary_round_aux_int (s : bool) (M p : positive) (k : Z) :
  0 <= k -> Z.pos M = Z.pos p * 2 ^ k -> Z.pos p < 2 ^ 53 ->
  53 <= Z.pos (digits2_pos M) ->
  binary_round_aux prec emax s (Z.pos M) (- k) loc_Exact
  = S754_finite s (intMant p) (intExp p).
Proof.
  intros Hk HM Hp HdM.
  pose proof (digits2_shift p k M Hk HM) as Hd.
  pose proof (digits2_small p Hp) as Hdp.
  destruct (intMant_val p Hp) as [Hmv Hmd].
  set (dp := Z.pos (digits2_pos p)) in *.
  set (n := dp + k - 53).
  assert (Hn : 0 <= n <= k) by (unfold n; lia).
  unfold binary_round_aux, shr_fexp. cbn [Zdigits2]. rewrite Hd.
  replace (fexp prec emax (dp + k + - k) - - k) with n
    by (unfold n, fexp, SpecFloat.emin, prec, emax; lia).
  cbn [shr_record_of_loc].
  assert (HMq : Z.pos M = Z.pos (intMant p) * 2 ^ n).
  { rewrite HM, Hmv, <- Z.mul_assoc, <- Z.pow_add_r by lia.
    f_equal. f_equal. unfold n. lia. }
  rewrite HMq, shr_exact by lia.
  cbn [shr_m loc_of_shr_record round_nearest_even Zdigits2]. rewrite Hmd.
  replace (fexp prec emax (53 + (- k + n)) - (- k + n)) with 0
    by (unfold n, fexp, SpecFloat.emin, prec, emax; lia).
  cbn [shr shr_m].
  replace (- k + n <=? emax - prec) with true
    by (symmetry; apply Z.leb_le; unfold emax, prec, n; lia).
  unfold intExp. fold dp. f_equal. unfold n. lia.
Qed.

(** The same for any mantissa, which is first shifted to 53 digits. *)
Lemma binary_round_int (s : bool) (M p : positive) (k : Z) :
  0 <= k -> Z.pos M = Z.pos p * 2 ^ k -> Z.pos p < 2 ^ 53 ->
  binary_round prec emax s M (- k) = S754_finite s (intMant p) (intExp p).
Proof.
  intros Hk HM Hp.
  pose proof (digits2_shift p k M Hk HM) as Hd.
  pose proof (digits2_small p Hp) as Hdp.
  set (dp := Z.pos (digits2_pos p)) in *.
  unfold binary_round. rewrite Hd.
  replace (fexp prec emax (dp + k + - k)) with (dp - 53)
    by (unfold fexp, SpecFloat.emin, prec, emax; lia).
  unfold shl_align.
  destruct (dp - 53 - - k) as [|d|d] eqn:Hsh.
  - apply (binary_round_aux_int s M p k Hk HM Hp). lia.
  - apply (binary_round_aux_int s M p k Hk HM Hp). lia.
  - replace (dp - 53) with (- (53 - dp)) by lia.
    change (Pos.iter xO M d) with (shift_pos d M).
    apply (binary_round_aux_int s _ p (53 - dp)); [lia| |exact Hp|].
    + rewrite shift_pos_correct, Z.pow_pos_fold, HM.
      replace (53 - dp) with (k + Z.pos d) by lia.
      rewrite Z.pow_add_r by lia. lia.
    + rewrite (digits2_shift p (53 - dp) (shift_pos d M)); [fold dp; lia|lia|].
      rewrite shift_pos_correct, Z.pow_pos_fold, HM.
      replace (53 - dp) with (k + Z.pos d) by lia.
      rewrite Z.pow_add_r by lia. lia.
Qed.

Lemma binary_normalize_int (S k : Z) :
  0 <= k -> Z.abs S < 2 ^ 53 ->
  binary_normalize prec emax (S * 2 ^ k) (- k) false = intSF S.
Proof.
  intros Hk HS. assert (Hp : 0 < 2 ^ k) by (apply Z.pow_pos_nonneg; lia).
  destruct S as [|q|q]; [reflexivity| |].
  - destruct (Z.pos q * 2 ^ k) as [|M|M] eqn:HM; try lia.
    cbn [binary_normalize intSF]. apply (binary_round_int _ M q k); lia.
  - destruct (Z.neg q * 2 ^ k) as [|M|M] eqn:HM; try lia.
    cbn [binary_normalize intSF]. apply (binary_round_int _ M q k); lia.
Qed.

(** The aligned mantissa of an integer is the integer, scaled. *)
Lemma intSF_aligned (p : positive) (ez : Z) :
  Z.pos p < 2 ^ 53 -> ez <= intExp p ->
  Z.pos (fst (shl_align (intMant p) (intExp p) ez)) = Z.pos p * 2 ^ (- ez).
Proof.
  intros Hp Hez. rewrite shl_align_value by exact Hez.
  destruct (intMant_val p Hp) as [-> _].
  pose proof (digits2_small p Hp) as Hd. unfold intExp in *.
  rewrite <- Z.mul_assoc, <- Z.pow_add_r by lia. f_equal. f_equal. lia.
Qed.

Lemma intExp_nonpos (p : positive) : Z.pos p < 2 ^ 53 -> intExp p <= 0.
Proof. intros Hp. pose proof (digits2_small p Hp). unfold intExp. lia. Qed.

Lemma SFadd_int (x y : Z) :
  Z.abs x < 2 ^ 53 -> Z.abs y < 2 ^ 53 -> Z.abs (x + y) < 2 ^ 53 ->
  SFadd prec emax (intSF x) (intSF y) = intSF (x + y).
Proof.
  intros Hx Hy Hxy.
  destruct x as [|p|p]; destruct y as [|q|q]; try reflexivity;
    cbn [intSF SFadd]; cbv zeta;
    set (ez := Z.min (intExp p) (intExp q));
    pose proof (intExp_nonpos p ltac:(lia)) as Hep;
    pose proof (intExp_nonpos q ltac:(lia)) as Heq;
    rewrite (intSF_aligned p ez) by (unfold ez; lia);
    rewrite (intSF_aligned q ez) by (unfold ez; lia);
    cbn [cond_Zopp]; replace ez with (- (- ez)) at 3 by lia.
  - rewrite <- Z.mul_add_distr_r. apply binary_normalize_int; lia.
  - replace (Z.pos p * 2 ^ (- ez) + - (Z.pos q * 2 ^ (- ez)))
      with ((Z.pos p + Z.neg q) * 2 ^ (- ez)) by lia.
    apply binary_normalize_int; lia.
  - replace (- (Z.pos p * 2 ^ (- ez)) + Z.pos q * 2 ^ (- ez))
      with ((Z.neg p + Z.pos q) * 2 ^ (- ez)) by lia.
    apply binary_normalize_int; lia.
  - replace (- (Z.pos p * 2 ^ (- ez)) + - (Z.pos q * 2 ^ (- ez)))
      with ((Z.neg p + Z.neg q) * 2 ^ (- ez)) by lia.
    apply binary_normalize_int; lia.
Qed.

Lemma SFsub_int (x y : Z) :
  Z.abs x < 2 ^ 53 -> Z.abs y < 2 ^ 53 -> Z.abs (x - y) < 2 ^ 53 ->
  SFsub prec emax (intSF x) (intSF y) = intSF (x - y).
Proof.
  intros Hx Hy Hxy.
  destruct x as [|p|p]; destruct y as [|q|q]; try reflexivity;
    cbn [intSF SFsub]; cbv zeta;
    set (ez := Z.min (intExp p) (intExp q));
    pose proof (intExp_nonpos p ltac:(lia)) as Hep;
    pose proof (intExp_nonpos q ltac:(lia)) as Heq;
    rewrite (intSF_aligned p ez) by (unfold ez; lia);
    rewrite (intSF_aligned q ez) by (unfold ez; lia);
    cbn [cond_Zopp]; replace ez with (- (- ez)) at 3 by lia.
  - replace (Z.pos p * 2 ^ (- ez) - Z.pos q * 2 ^ (- ez))
      with ((Z.pos p - Z.pos q) * 2 ^ (- ez)) by lia.
    apply binary_normalize_int; lia.
  - replace (Z.pos p * 2 ^ (- ez) - - (Z.pos q * 2 ^ (- ez)))
      with ((Z.pos p - Z.neg q) * 2 ^ (- ez)) by lia.
    apply binary_normalize_int; lia.
  - replace (- (Z.pos p * 2 ^ (- ez)) - Z.pos q * 2 ^ (- ez))
      with ((Z.neg p - Z.pos q) * 2 ^ (- ez)) by lia.
    apply binary_normalize_int; lia.
  - replace (- (Z.pos p * 2 ^ (- ez)) - - (Z.pos q * 2 ^ (- ez)))
      with ((Z.neg p - Z.neg q) * 2 ^ (- ez)) by lia.
    apply binary_normalize_int; lia.
Qed.

Lemma digits2_mul (p q : positive) :
  Z.pos (digits2_pos p) + Z.pos (digits2_pos q) - 1
  <= Z.pos (digits2_pos (p * q)).
Proof.
  pose proof (digits2_bounds p) as [Hp _].
  pose proof (digits2_bounds q) as [Hq _].
  pose proof (digits2_bounds (p * q)) as [_ Hpq].
  set (dp := Z.pos (digits2_pos p)) in *.
  set (dq := Z.pos (digits2_pos q)) in *.
  assert (H : 2 ^ (dp - 1 + (dq - 1)) < 2 ^ Z.pos (digits2_pos (p * q))).
  { rewrite Z.pow_add_r by (unfold dp, dq; lia).
    rewrite Pos2Z.inj_mul in Hpq.
    assert (H1 : 0 < 2 ^ (dp - 1))
      by (apply Z.pow_pos_nonneg; unfold dp; lia).
    assert (H2 : 0 < 2 ^ (dq - 1))
      by (apply Z.pow_pos_nonneg; unfold dq; lia).
    nia. }
  apply Z.pow_lt_mono_r_iff in H; lia.
Qed.

Lemma SFmul_int (x y : Z) :
  0 <= x -> 0 <= y -> x * y < 2 ^ 53 ->
  SFmul prec emax (intSF x) (intSF y) = intSF (x * y).
Proof.
  intros Hx Hy Hxy.
  destruct x as [|p|p]; destruct y as [|q|q]; try reflexivity; try lia.
  cbn [intSF SFmul xorb Z.mul].
  assert (Hp : Z.pos p < 2 ^ 53) by nia.
  assert (Hq : Z.pos q < 2 ^ 53) by nia.
  pose proof (digits2_small p Hp) as Hdp.
  pose proof (digits2_small q Hq) as Hdq.
  destruct (intMant_val p Hp) as [Hmp _].
  destruct (intMant_val q Hq) as [Hmq _].
  set (k := 106 - Z.pos (digits2_pos p) - Z.pos (digits2_pos q)).
  replace (intExp p + intExp q) with (- k) by (unfold k, intExp; lia).
  assert (HM : Z.pos (intMant p * intMant q) = Z.pos (p * q) * 2 ^ k).
  { rewrite !Pos2Z.inj_mul, Hmp, Hmq.
    replace k with (53 - Z.pos (digits2_pos p) + (53 - Z.pos (digits2_pos q)))
      by (unfold k; lia).
    rewrite Z.pow_add_r by lia. lia. }
  apply (binary_round_aux_int _ _ (p * q) k); [unfold k; lia|exact HM|lia|].
  rewrite (digits2_shift (p * q) k _ ltac:(unfold k; lia) HM).
  pose proof (digits2_mul p q). unfold k. lia.
Qed.

Lemma intMant_compare (p q : positive) :
  Z.pos p < 2 ^ 53 -> Z.pos q < 2 ^ 53 -> intExp p = intExp q ->
  Pos.compare_cont Eq (intMant p) (intMant q) = (Z.pos p ?= Z.pos q).
Proof.
  intros Hp Hq He. rewrite Pos.compare_cont_spec.
  assert (Hsw : forall c, Pos.switch_Eq Eq c = c) by (now intros [| |]).
  rewrite Hsw.
  change (intMant p ?= intMant q)%positive
    with (Z.pos (intMant p) ?= Z.pos (intMant q)).
  destruct (intMant_val p Hp) as [-> _].
  destruct (intMant_val q Hq) as [-> _].
  unfold intExp in He.
  replace (Z.pos (digits2_pos q)) with (Z.pos (digits2_pos p)) by lia.
  pose proof (digits2_small p Hp) as Hd.
  assert (Hpow : 0 < 2 ^ (53 - Z.pos (digits2_pos p)))
    by (apply Z.pow_pos_nonneg; lia).
  destruct (Z.compare_spec (Z.pos p) (Z.pos q)) as [E|E|E].
  - apply Z.compare_eq_iff. now rewrite E.
  - apply Z.compare_lt_iff. nia.
  - apply Z.compare_gt_iff. nia.
Qed.

Lemma intExp_lt (p q : positive) :
  intExp p < intExp q -> Z.pos p < Z.pos q.
Proof.
  unfold intExp. intros H.
  pose proof (digits2_bounds p) as [_ Hp].
  pose proof (digits2_bounds q) as [Hq _].
  assert (H' : 2 ^ Z.pos (digits2_pos p) <= 2 ^ (Z.pos (digits2_pos q) - 1))
    by (apply Z.pow_le_mono_r; lia).
  lia.
Qed.

Lemma SFcompare_pos (p q : positive) :
  Z.pos p < 2 ^ 53 -> Z.pos q < 2 ^ 53 ->
  match (intExp p ?= intExp q) with
  | Eq => Pos.compare_cont Eq (intMant p) (intMant q)
  | Lt => Lt
  | Gt => Gt
  end = (Z.pos p ?= Z.pos q).
Proof.
  intros Hp Hq. destruct (Z.compare_spec (intExp p) (intExp q)) as [He|He|He].
  - now apply intMant_compare.
  - symmetry. apply Z.compare_lt_iff. now apply intExp_lt.
  - symmetry. apply Z.compare_gt_iff. now apply intExp_lt.
Qed.

Lemma SFcompare_int (x y : Z) :
  Z.abs x < 2 ^ 53 -> Z.abs y < 2 ^ 53 ->
  SFcompare (intSF x) (intSF y) = Some (x ?= y).
Proof.
  intros Hx Hy.
  destruct x as [|p|p]; destruct y as [|q|q]; try reflexivity;
    cbn [intSF SFcompare]; f_equal.
  - apply SFcompare_pos; lia.
  - destruct (Z.compare_spec (intExp p) (intExp q)) as [He|He|He].
    + rewrite intMant_compare by (lia || exact He). reflexivity.
    + symmetry. apply Z.compare_gt_iff. apply intExp_lt in He. lia.
    + symmetry. apply Z.compare_lt_iff. apply intExp_lt in He. lia.
Qed.

End IntegerNumbers.

Lemma Prim2SF_of_Z (p : positive) :
  (Z.pos p < 2 ^ 53)%Z ->
  Prim2SF (Num.of_Z (Z.pos p)) = S754_finite false (intMant p) (intExp p).
Proof.
  intros Hp. unfold Num.of_Z. rewrite of_uint63_spec, Uint63.of_Z_spec.
  rewrite Z.mod_small.
  - cbn [binary_normalize]. change 0%Z with (- 0)%Z.
    apply (binary_round_int false p p 0); [lia|lia|exact Hp].
  - split; [lia|]. eapply Z.lt_trans; [exact Hp|]. reflexivity.
Qed.

Lemma Prim2SF_ZF (z : Z) :
  (Z.abs z < 2 ^ 53)%Z -> Prim2SF (ZF z) = intSF z.
Proof.
  intros Hz. destruct z as [|p|p]; cbn [ZF intSF].
  - reflexivity.
  - apply Prim2SF_of_Z. lia.
  - rewrite opp_spec, Prim2SF_of_Z by lia. reflexivity.
Qed.

Lemma ZF_add (x y : Z) :
  (Z.abs x < 2 ^ 53)%Z -> (Z.abs y < 2 ^ 53)%Z ->
  (Z.abs (x + y) < 2 ^ 53)%Z ->
  ZF x + ZF y = ZF (x + y).
Proof.
  intros Hx Hy Hxy. apply Prim2SF_inj.
  rewrite add_spec, !Prim2SF_ZF by assumption. now apply SFadd_int.
Qed.

Lemma ZF_sub (x y : Z) :
  (Z.abs x < 2 ^ 53)%Z -> (Z.abs y < 2 ^ 53)%Z ->
  (Z.abs (x - y) < 2 ^ 53)%Z ->
  ZF x - ZF y = ZF (x - y).
Proof.
  intros Hx Hy Hxy. apply Prim2SF_inj.
  rewrite sub_spec, !Prim2SF_ZF by assumption. now apply SFsub_int.
Qed.

Lemma ZF_mul (x y : Z) :
  (0 <= x < 2 ^ 53)%Z -> (0 <= y < 2 ^ 53)%Z -> (x * y < 2 ^ 53)%Z ->
  ZF x * ZF y = ZF (x * y).
Proof.
  intros Hx Hy Hxy. apply Prim2SF_inj.
  rewrite mul_spec, !Prim2SF_ZF by nia. apply SFmul_int; lia.
Qed.

Lemma ZF_ltb (x y : Z) :
  (Z.abs x < 2 ^ 53)%Z -> (Z.abs y < 2 ^ 53)%Z ->
  (ZF x <? ZF y) = (x <? y)%Z.
Proof.
  intros Hx Hy. rewrite ltb_spec, !Prim2SF_ZF by assumption.
  unfold SFltb. rewrite SFcompare_int by assumption.
  unfold Z.ltb. now destruct (x ?= y)%Z.
Qed.

Lemma ZF_leb (x y : Z) :
  (Z.abs x < 2 ^ 53)%Z -> (Z.abs y < 2 ^ 53)%Z ->
  (ZF x <=? ZF y) = (x <=? y)%Z.
Proof.
  intros Hx Hy. rewrite leb_spec, !Prim2SF_ZF by assumption.
  unfold SFleb. rewrite SFcompare_int by assumption.
  unfold Z.leb. now destruct (x ?= y)%Z.
Qed.

Lemma ZF_not_nan (x : Z) : (Z.abs x < 2 ^ 53)%Z -> is_nan (ZF x) = false.
Proof.
  intros Hx. unfold is_nan.
  rewrite FloatAxioms.eqb_spec, !Prim2SF_ZF by assumption.
  unfold SFeqb. rewrite SFcompare_int by assumption.
  now rewrite Z.compare_refl.
Qed.

Lemma ZF_min (x y : Z) :
  (Z.abs x < 2 ^ 53)%Z -> (Z.abs y < 2 ^ 53)%Z ->
  Num.min (ZF x) (ZF y) = ZF (Z.min x y).
Proof.
  intros Hx Hy. unfold Num.min.
  rewrite !ZF_not_nan, !ZF_ltb by assumption. cbn [orb].
  destruct (Z.ltb_spec x y) as [H|H].
  - now rewrite Z.min_l by lia.
  - destruct (Z.ltb_spec y x) as [H'|H'].
    + now rewrite Z.min_r by lia.
    + assert (x = y) by lia. subst y. rewrite Z.min_id.
      now destruct (get_sign (ZF x)).
Qed.

Lemma ZF_max (x y : Z) :
  (Z.abs x < 2 ^ 53)%Z -> (Z.abs y < 2 ^ 53)%Z ->
  Num.max (ZF x) (ZF y) = ZF (Z.max x y).
Proof.
  intros Hx Hy. unfold Num.max.
  rewrite !ZF_not_nan, !ZF_ltb by assumption. cbn [orb].
  destruct (Z.ltb_spec x y) as [H|H].
  - now rewrite Z.max_r by lia.
  - destruct (Z.ltb_spec y x) as [H'|H'].
    + now rewrite Z.max_l by lia.
    + assert (x = y) by lia. subst y. rewrite Z.max_id.
      now destruct (get_sign (ZF x)).
Qed.

Lemma ZF_to_index (n : Z) :
  (0 <= n < 2 ^ 53)%Z -> Num.to_index (ZF n) = Some (Z.to_nat n).
Proof.
  intros Hn. unfold Num.to_index. rewrite Prim2SF_ZF by lia.
  destruct n as [|p|p]; [reflexivity| |lia]. cbn [intSF].
  destruct (intMant_val p ltac:(lia)) as [Hm _].
  pose proof (digits2_small p ltac:(lia)) as Hd. unfold intExp.
  destruct (Z.leb_spec 0 (Z.pos (digits2_pos p) - 53)) as [H0|H0].
  - replace (Z.pos (digits2_pos p) - 53)%Z with 0%Z by lia.
    rewrite Z.shiftl_0_r, Hm.
    replace (53 - Z.pos (digits2_pos p))%Z with 0%Z by lia.
    now rewrite Z.pow_0_r, Z.mul_1_r.
  - rewrite Z.shiftr_div_pow2, Z.shiftl_mul_pow2 by lia.
    replace (- (Z.pos (digits2_pos p) - 53))%Z
      with (53 - Z.pos (digits2_pos p))%Z by lia.
    rewrite Hm, Z.div_mul
      by (apply Z.pow_nonzero; lia).
    now rewrite Z.eqb_refl.
Qed.

(** ** The cells of a box whose corners lie in cells with integer
    coordinates *)

Lemma Zrange_nil (lo hi : Z) : (hi < lo)%Z -> Zrange lo hi = [].
Proof.
  intros H. unfold Zrange. now replace (Z.to_nat (hi - lo + 1)) with 0%nat by lia.
Qed.

Lemma Zrange_cons (lo hi : Z) :
  (lo <= hi)%Z -> Zrange lo hi = lo :: Zrange (lo + 1) hi.
Proof.
  intros H. unfold Zrange.
  replace (Z.to_nat (hi - lo + 1)) with (S (Z.to_nat (hi - (lo + 1) + 1)))
    by lia.
  cbn [seq map]. f_equal; [lia|].
  rewrite <- seq_shift, map_map. apply map_ext. intros i. lia.
Qed.

Lemma clamp_range (n v : Z) : (0 < n)%Z -> (0 <= clamp n v < n)%Z.
Proof. unfold clamp. lia. Qed.

Lemma cellIndex_range (W H cx cy : Z) :
  (0 < W)%Z -> (0 < H)%Z -> (0 <= cellIndex W H cx cy < W * H)%Z.
Proof.
  intros HW HH. unfold cellIndex.
  pose proof (clamp_range W cx HW). pose proof (clamp_range H cy HH). nia.
Qed.

Section GridCells.

Variable g : SpatialGrid.
Variables W H : Z.
Hypothesis g_width : width g = ZF W.
Hypothesis g_height : height g = ZF H.
Hypothesis W_pos : (0 < W)%Z.
Hypothesis H_pos : (0 < H)%Z.
Hypothesis WH_small : (W * H < 2 ^ 53)%Z.

Lemma clamp_ZF (n v : Z) :
  (0 < n < 2 ^ 53)%Z -> (Z.abs v < 2 ^ 53)%Z ->
  Num.max 0 (Num.min (ZF n - 1) (ZF v)) = ZF (clamp n v).
Proof.
  intros Hn Hv. change 1 with (ZF 1). change 0 with (ZF 0).
  rewrite ZF_sub, ZF_min, ZF_max by lia. reflexivity.
Qed.

Lemma cell_ZF (cx cy : Z) :
  (Z.abs cx < 2 ^ 53)%Z -> (Z.abs cy < 2 ^ 53)%Z ->
  Num.max 0 (Num.min (width g - 1) (ZF cx))
  + Num.max 0 (Num.min (height g - 1) (ZF cy)) * width g
  = ZF (cellIndex W H cx cy).
Proof.
  intros Hx Hy. rewrite g_width, g_height.
  assert (HW : (W < 2 ^ 53)%Z) by nia.
  assert (HH : (H < 2 ^ 53)%Z) by nia.
  rewrite !clamp_ZF by lia.
  pose proof (clamp_range W cx W_pos). pose proof (clamp_range H cy H_pos).
  rewrite ZF_mul by nia. rewrite ZF_add by nia. reflexivity.
Qed.

Lemma cellsRow_int (c cy : Z) :
  (Z.abs c <= 2 ^ 52)%Z -> (Z.abs cy < 2 ^ 53)%Z ->
  forall (n : nat) (cx : Z) (acc : list float),
    (- 2 ^ 52 <= cx <= 2 ^ 52 + 1)%Z ->
    (Z.max 0 (c - cx + 1) < Z.of_nat n)%Z ->
    SpatialGrid.cellsRow n g (ZF c) (ZF cy) (ZF cx) acc
    = Ok (acc ++ map (fun x => ZF (cellIndex W H x cy)) (Zrange cx c)).
Proof.
  intros Hc Hcy. induction n as [|n IH]; intros cx acc Hcx Hn; [lia|].
  cbn [SpatialGrid.cellsRow]. rewrite ZF_leb by lia.
  destruct (Z.leb_spec cx c) as [Hle|Hgt].
  - rewrite cell_ZF by lia. change 1 with (ZF 1). rewrite ZF_add by lia.
    rewrite IH by lia. rewrite (Zrange_cons cx c Hle). cbn [map].
    now rewrite <- app_assoc.
  - rewrite Zrange_nil by lia. cbn [map]. now rewrite app_nil_r.
Qed.

Lemma cellsRows_int (a c d : Z) (fuel : nat) :
  (Z.abs a <= 2 ^ 52)%Z -> (Z.abs c <= 2 ^ 52)%Z -> (Z.abs d <= 2 ^ 52)%Z ->
  (Z.max 0 (c - a + 1) < Z.of_nat fuel)%Z ->
  forall (n : nat) (cy : Z) (acc : list float),
    (- 2 ^ 52 <= cy <= 2 ^ 52 + 1)%Z ->
    (Z.max 0 (d - cy + 1) < Z.of_nat n)%Z ->
    SpatialGrid.cellsRows n fuel g (ZF a) (ZF c) (ZF d) (ZF cy) acc
    = Ok (acc ++ map ZF (cellsBetween W H a cy c d)).
Proof.
  intros Ha Hc Hd Hfuel.
  induction n as [|n IH]; intros cy acc Hcy Hn; [lia|].
  cbn [SpatialGrid.cellsRows]. rewrite ZF_leb by lia.
  unfold cellsBetween.
  destruct (Z.leb_spec cy d) as [Hle|Hgt].
  - rewrite (cellsRow_int c cy) by lia.
    change 1 with (ZF 1). rewrite ZF_add by lia.
    rewrite IH by lia. unfold cellsBetween.
    rewrite (Zrange_cons cy d Hle). cbn [map concat].
    now rewrite map_app, map_map, <- app_assoc.
  - rewrite (Zrange_nil cy d) by lia. cbn [map concat].
    now rewrite app_nil_r.
Qed.

Lemma cellsOf_int (fuel : nat) (box : AABB) (a b c d : Z) :
  SpatialGrid.worldToCell g (min box) = mkVector2 (ZF a) (ZF b) ->
  SpatialGrid.worldToCell g (max box) = mkVector2 (ZF c) (ZF d) ->
  (Z.abs a <= 2 ^ 52)%Z -> (Z.abs b <= 2 ^ 52)%Z ->
  (Z.abs c <= 2 ^ 52)%Z -> (Z.abs d <= 2 ^ 52)%Z ->
  (Z.max 0 (c - a + 1) < Z.of_nat fuel)%Z ->
  (Z.max 0 (d - b + 1) < Z.of_nat fuel)%Z ->
  SpatialGrid.cellsOf fuel g box = Ok (map ZF (cellsBetween W H a b c d)).
Proof.
  intros Hmin Hmax Ha Hb Hc Hd Hfx Hfy. unfold SpatialGrid.cellsOf.
  rewrite Hmin, Hmax. cbn [x y].
  rewrite (cellsRows_int a c d fuel) by lia. reflexivity.
Qed.

Lemma cellsBetween_range (a b c d z : Z) :
  z ∈ cellsBetween W H a b c d -> (0 <= z < W * H)%Z.
Proof.
  unfold cellsBetween. intros Hz.
  apply list_elem_of_In, in_concat in Hz as (row & Hrow & Hz).
  apply in_map_iff in Hrow as (cy & <- & _).
  apply in_map_iff in Hz as (cx & <- & _).
  now apply cellIndex_range.
Qed.

Lemma cells_valid (a b c d : Z) (cell : float) :
  cell ∈ map ZF (cellsBetween W H a b c d) ->
  exists i, Num.to_index cell = Some i /\ (i < Z.to_nat (W * H))%nat.
Proof.
  intros Hcell. apply list_elem_of_In, in_map_iff in Hcell as (z & <- & Hz).
  apply list_elem_of_In, cellsBetween_range in Hz.
  exists (Z.to_nat z). split; [apply ZF_to_index; lia|lia].
Qed.

End GridCells.

Lemma updCells_valid (f : RefSet -> RefSet) (cells : list float) :
  forall ps,
    (forall c, c ∈ cells ->
       exists i, Num.to_index c = Some i /\ (i < List.length ps)%nat) ->
    exists ps', updCells f cells ps = Some ps'.
Proof.
  induction cells as [|c cs IH]; intros ps Hv; cbn [updCells]; [eauto|].
  destruct (Hv c) as (i & -> & Hi); [apply elem_of_cons; now left|].
  destruct (lookup_lt_is_Some_2 ps i Hi) as [p ->].
  apply IH. intros c' Hc'. rewrite length_insert.
  apply Hv, elem_of_cons. now right.
Qed.

Lemma foldM_query_total (this : gref) (cells : list float) (s : State) :
  (forall c, c ∈ cells ->
     exists i, Num.to_index c = Some i /\
               (i < List.length (partitions (grids s this)))%nat) ->
  forall acc, exists res,
    foldM cells (fun acc c =>
      let* g := getGrid this in
      match SpatialGrid.partitionAt g c with
      | Some partition => ret (acc ++ partition)
      | None => throw
      end) acc s = (Ok res, s).
Proof.
  induction cells as [|c cs IH]; intros Hv acc; cbn [foldM]; [now eexists|].
  unfold bind at 1. unfold bind at 1. unfold getGrid at 1.
  unfold SpatialGrid.partitionAt.
  destruct (Hv c) as (i & -> & Hi); [apply elem_of_cons; now left|].
  destruct (lookup_lt_is_Some_2 _ i Hi) as [p ->]. unfold ret at 1.
  apply IH. intros c' Hc'. apply Hv, elem_of_cons. now right.
Qed.


Lemma cellsOf_safe (fuel : nat) (g : SpatialGrid) (W H : Z) (box : AABB) :
  gridOf W H g -> inCells fuel g box ->
  exists cells,
    SpatialGrid.cellsOf fuel g box = Ok cells /\
    forall cell, cell ∈ cells ->
      exists i, Num.to_index cell = Some i /\
                (i < List.length (partitions g))%nat.
Proof.
  intros (Hw & Hh & HW & HH & HWH & Hlen)
    (a & b & c & d & Hmin & Hmax & (Ha & Hb & Hc & Hd) & Hfx & Hfy).
  assert (HWH' : (W * H < 2 ^ 53)%Z) by lia.
  exists (map ZF (cellsBetween W H a b c d)). split.
  - now apply (cellsOf_int _ W H).
  - intros cell Hcell. rewrite Hlen.
    now apply (cells_valid W H HW HH HWH' a b c d).
Qed.

Lemma touchCells_safe (fuel : nat) (this : gref) (r : bref)
    (f : RefSet -> RefSet) (v : bool) (s : State) (W H : Z) :
  gridOf W H (grids s this) ->
  inCells fuel (grids s this) (aabb (body s r)) ->
  fst (touchCells fuel this r f v s) = Ok tt.
Proof.
  intros Hg Hbox. destruct (cellsOf_safe fuel _ W H _ Hg Hbox)
    as (cells & Hcells & Hvalid).
  pose proof (touchCells_run fuel this r f v s) as Hrun.
  rewrite Hcells in Hrun.
  destruct (updCells_valid f _ _ Hvalid) as [ps' Hps].
  rewrite Hps in Hrun. now destruct Hrun as (s' & -> & _).
Qed.

Lemma queryAABB_safe (fuel : nat) (this : gref) (box : AABB) (s : State)
    (W H : Z) :
  gridOf W H (grids s this) -> inCells fuel (grids s this) box ->
  exists res, SpatialGrid.queryAABB fuel this box s = (Ok res, s).
Proof.
  intros Hg Hbox. destruct (cellsOf_safe fuel _ W H _ Hg Hbox)
    as (cells & Hcells & Hvalid).
  unfold SpatialGrid.queryAABB. unfold bind at 1.
  unfold SpatialGrid.getCellsInAABB. rewrite Hcells.
  apply (foldM_query_total this _ s Hvalid []).
Qed.


(** [new SpatialGrid(cellSize, W, H)] for whole numbers [W] and [H] whose
    product is an array length: the grid has [W * H] partitions, each
    empty. *)
Theorem new_SpatialGrid_partitions (cellSize : float) (W H : Z) :
  (0 <= W)%Z -> (0 <= H)%Z -> (W * H < 2 ^ 32)%Z ->
  (W < 2 ^ 53)%Z -> (H < 2 ^ 53)%Z ->
  Demo.new_SpatialGrid cellSize (ZF W) (ZF H)
  = Some (mkSpatialGrid (ZF W) (ZF H) cellSize
            (replicate (Z.to_nat (W * H)) [])).
Proof.
  intros HW HH HWH HW' HH'. unfold Demo.new_SpatialGrid.
  rewrite ZF_mul by lia. rewrite ZF_to_index by lia. reflexivity.
Qed.

(** ** Methods that return *)

Lemma returns_conseq {A : Type} (P P' : State -> Prop) (m : M A)
    (Q Q' : A -> State -> Prop) :
  (forall s, P' s -> P s) -> (forall a s, Q a s -> Q' a s) ->
  returns P m Q -> returns P' m Q'.
Proof.
  intros HP HQ H s Hs. destruct (H s (HP s Hs)) as (a & s' & E & Hq).
  exists a, s'. split; [exact E|]. now apply HQ.
Qed.

Lemma returns_ret {A : Type} (P : State -> Prop) (a : A) :
  returns P (ret a) (fun _ => P).
Proof. intros s Hs. now exists a, s. Qed.

Lemma returns_bind {A B : Type} (P : State -> Prop)
    (Q : A -> State -> Prop) (R : B -> State -> Prop) (m : M A)
    (k : A -> M B) :
  returns P m Q -> (forall a, returns (Q a) (k a) R) ->
  returns P (bind m k) R.
Proof.
  intros Hm Hk s Hs. destruct (Hm s Hs) as (a & s1 & E & Hq).
  destruct (Hk a s1 Hq) as (b & s2 & E2 & Hr).
  exists b, s2. split; [|exact Hr]. unfold bind. now rewrite E.
Qed.

Lemma returns_getBody (P : State -> Prop) (r : bref) :
  returns P (getBody r) (fun b s => P s /\ b = body s r).
Proof. intros s Hs. now exists (body s r), s. Qed.

Lemma returns_getGrid (P : State -> Prop) (r : gref) :
  returns P (getGrid r) (fun g s => P s /\ g = grids s r).
Proof. intros s Hs. now exists (grids s r), s. Qed.

Lemma returns_getWorld (P : State -> Prop) (r : wref) :
  returns P (getWorld r) (fun w s => P s /\ w = worlds s r).
Proof. intros s Hs. now exists (worlds s r), s. Qed.

Lemma returns_forEach {A : Type} (P : State -> Prop) (l : list A)
    (f : A -> M unit) :
  (forall a, a ∈ l -> returns P (f a) (fun _ => P)) ->
  returns P (forEach l f) (fun _ => P).
Proof.
  induction l as [|a l IH]; intros Hf; cbn [forEach].
  - apply returns_ret.
  - eapply returns_bind; [apply Hf, elem_of_cons; now left|].
    intros u. apply IH. intros a' Ha'. apply Hf, elem_of_cons. now right.
Qed.

Lemma returns_foldM {A B : Type} (P : State -> Prop) (l : list A)
    (f : B -> A -> M B) :
  (forall b a, a ∈ l -> returns P (f b a) (fun _ => P)) ->
  forall b, returns P (foldM l f b) (fun _ => P).
Proof.
  induction l as [|a l IH]; intros Hf b; cbn [foldM].
  - apply returns_ret.
  - eapply returns_bind; [apply Hf, elem_of_cons; now left|].
    intros b'. apply IH. intros b0 a' Ha'. apply Hf, elem_of_cons.
    now right.
Qed.

Lemma returns_forEachLive {B : Type} (P : State -> Prop) (l : RefSet)
    (live : M RefSet) (f : B -> bref -> M B) :
  returns P live (fun _ => P) ->
  (forall b a, returns P (f b a) (fun _ => P)) ->
  forall b, returns P (forEachLive l live f b) (fun _ => P).
Proof.
  intros Hl Hf. induction l as [|a l IH]; intros b; cbn [forEachLive].
  - apply returns_ret.
  - eapply returns_bind; [exact Hl|]. intros cur.
    eapply returns_bind; [|intros b'; apply IH].
    destruct (set_has a cur); [apply Hf|apply returns_ret].
Qed.

Lemma total_ret {A : Type} (a : A) : total (ret a).
Proof. apply returns_ret. Qed.

Lemma total_bind {A B : Type} (m : M A) (k : A -> M B) :
  total m -> (forall a, total (k a)) -> total (bind m k).
Proof. intros Hm Hk. eapply returns_bind; [exact Hm|]. intros a. apply Hk. Qed.

Lemma total_getBody (r : bref) : total (getBody r).
Proof. intros s _. now eexists _, _. Qed.

Lemma total_getWorld (r : wref) : total (getWorld r).
Proof. intros s _. now eexists _, _. Qed.

Lemma total_modBody (r : bref) (f : PhysicsBody -> PhysicsBody) :
  total (modBody r f).
Proof. intros s _. now eexists _, _. Qed.

Lemma total_modWorld (r : wref) (f : World -> World) :
  total (modWorld r f).
Proof. intros s _. now eexists _, _. Qed.

Lemma total_forEach {A : Type} (l : list A) (f : A -> M unit) :
  (forall a, total (f a)) -> total (forEach l f).
Proof. intros Hf. apply returns_forEach. intros a _. apply Hf. Qed.

Ltac total_walk :=
  repeat first
    [ apply total_ret
    | apply total_getBody
    | apply total_getWorld
    | apply total_modBody
    | apply total_modWorld
    | apply total_forEach; intros ?
    | apply total_bind; [|intros ?]
    | match goal with
      | |- total (if ?c then _ else _) => destruct c
      | |- total (match ?c with _ => _ end) => destruct c
      end ].

(** The narrow phase and the resolution of the contacts have no
    operation that can throw, and no loop without a bound. *)
Lemma stepNarrowPhase_total (this : wref) (dt : float) :
  total (World.stepNarrowPhase this dt).
Proof.
  unfold World.stepNarrowPhase, World.narrowPhasePair, PhysicsBody.wakeUp.
  total_walk.
Qed.

Lemma stepResolveCollisions_total (this : wref) (dt : float) :
  total (World.stepResolveCollisions this dt).
Proof.
  unfold World.stepResolveCollisions, World.resolveContact,
    World.applyImpulse, World.applyFriction, World.fixPenetration,
    World.when, World.modVelocity, World.modPosition.
  total_walk.
Qed.

Lemma postStep_total (this : wref) : total (World.postStep this).
Proof. unfold World.postStep. total_walk. Qed.

(** ** A frame that returns *)

Lemma worldToCell_cellSize (g g' : SpatialGrid) (v : Vector2) :
  cellSize g' = cellSize g ->
  SpatialGrid.worldToCell g' v = SpatialGrid.worldToCell g v.
Proof. intros H. unfold SpatialGrid.worldToCell. now rewrite H. Qed.

Lemma gridSafe_frame (fuel : nat) (this : gref) (W H : Z) (s s' : State) :
  gridFrame this s s' -> gridSafe fuel this W H s -> gridSafe fuel this W H s'.
Proof.
  intros (Hb & (Hw & Hh & Hc & Hl) & _)
    ((Hgw & Hgh & HW & HH & HWH & Hlen) & Hbox).
  split.
  - unfold gridOf. rewrite Hw, Hh, Hl. auto 10.
  - intros r. destruct (Hbox r) as (a & b & c & d & Hmin & Hmax & Hrest).
    exists a, b, c, d.
    destruct (sameButGridFields_box _ _ (Hb r)) as (_ & -> & _).
    rewrite !(worldToCell_cellSize _ _ _ Hc). auto.
Qed.

Section SafeGrid.

Variable fuel : nat.
Variable this : gref.
Variables W H : Z.

(** A method of the grid that returns from the safe states. *)
Lemma returns_safe {A : Type} (m : M A) :
  keeps (gridFrame this) m ->
  (forall s, gridSafe fuel this W H s -> exists a, fst (m s) = Ok a) ->
  returns (gridSafe fuel this W H) m (fun _ => gridSafe fuel this W H).
Proof.
  intros Hk Hok s Hs. destruct (Hok s Hs) as [a Ha].
  specialize (Hk s). destruct (m s) as [r s'] eqn:E. cbn in Ha, Hk.
  subst r. exists a, s'. split; [reflexivity|].
  eapply gridSafe_frame; [exact Hk|apply Hs].
Qed.

Lemma returns_drop {A : Type} (P E : State -> Prop) (m : M A) :
  returns P m (fun _ => P) ->
  returns (fun s => P s /\ E s) m (fun _ => P).
Proof.
  intros Hm. eapply returns_conseq; [| |exact Hm]; [now intros s [Hs _]|auto].
Qed.

Lemma addBody_returns (r : bref) :
  returns (gridSafe fuel this W H) (SpatialGrid.addBody fuel this r)
    (fun _ => gridSafe fuel this W H).
Proof.
  apply returns_safe; [apply addBody_gridFrame|].
  intros s [Hg Hbox]. exists tt. rewrite addBody_touchCells.
  now apply (touchCells_safe _ _ _ _ _ _ W H).
Qed.

Lemma removeBody_returns (r : bref) :
  returns (gridSafe fuel this W H) (SpatialGrid.removeBody fuel this r)
    (fun _ => gridSafe fuel this W H).
Proof.
  apply returns_safe; [apply removeBody_gridFrame|].
  intros s [Hg Hbox]. exists tt. rewrite removeBody_touchCells.
  now apply (touchCells_safe _ _ _ _ _ _ W H).
Qed.

Lemma pairWith_returns (A B : bref) (acc : list Pair) :
  returns (gridSafe fuel this W H) (SpatialGrid.pairWith A acc B)
    (fun _ => gridSafe fuel this W H).
Proof.
  apply returns_safe; [apply pairWith_gridFrame|].
  intros s _. unfold SpatialGrid.pairWith, bind, getBody, ret, modBody.
  destruct (_ =? _); now eexists.
Qed.

Lemma pairsOf_returns (A : bref) (acc : list Pair) :
  returns (gridSafe fuel this W H) (SpatialGrid.pairsOf fuel this acc A)
    (fun _ => gridSafe fuel this W H).
Proof.
  unfold SpatialGrid.pairsOf.
  eapply returns_bind; [apply returns_getBody|]. intros a.
  destruct (_isSleeping a); [apply returns_drop, returns_ret|].
  eapply returns_bind; [apply returns_drop, removeBody_returns|].
  intros u. eapply returns_bind; [apply returns_getBody|]. intros a'.
  eapply (returns_bind _ (fun _ => gridSafe fuel this W H)).
  - intros s [[Hg Hbox] ->].
    destruct (queryAABB_safe fuel this _ s W H Hg (Hbox A)) as [res E].
    exists res, s. split; [exact E|]. exact (conj Hg Hbox).
  - intros res. apply returns_foldM. intros acc' B _.
    apply pairWith_returns.
Qed.

Lemma generatePairs_returns (bodies : RefSet) :
  returns (gridSafe fuel this W H)
    (SpatialGrid.generatePairs fuel this bodies)
    (fun _ => gridSafe fuel this W H).
Proof.
  unfold SpatialGrid.generatePairs.
  eapply returns_bind.
  { apply returns_forEach. intros b _.
    eapply returns_bind.
    { apply returns_safe; [grid_walk this|]. intros s _. now exists tt. }
    intros u. eapply returns_bind; [apply returns_getBody|]. intros bd.
    destruct (isInGrid bd);
      [apply returns_drop, returns_ret|apply returns_drop, addBody_returns]. }
  intros u. eapply returns_bind; [apply returns_getGrid|]. intros g.
  intros s [Hs ->].
  cut (returns (gridSafe fuel this W H)
         (foldM (seq 0 (List.length (partitions (grids s this))))
            (fun acc i =>
               let* g := getGrid this in
               match partitions g !! i with
               | Some partition =>
                   forEachLive partition
                     (let* g := getGrid this in
                      ret (default [] (partitions g !! i)))
                     (SpatialGrid.pairsOf fuel this) acc
               | None => throw
               end) []) (fun _ => gridSafe fuel this W H)).
  { intros Hr. exact (Hr s Hs). }
  apply returns_foldM. intros acc i Hi s1 Hs1.
  unfold bind at 1. unfold getGrid at 1.
  apply elem_of_seq in Hi as [_ Hi]. cbn in Hi.
  assert (Hlen : List.length (partitions (grids s1 this))
                 = List.length (partitions (grids s this))).
  { destruct Hs as [(_ & _ & _ & _ & _ & ->) _].
    now destruct Hs1 as [(_ & _ & _ & _ & _ & ->) _]. }
  destruct (lookup_lt_is_Some_2 (partitions (grids s1 this)) i) as [p ->];
    [lia|].
  apply (returns_forEachLive (gridSafe fuel this W H));
    [|intros; apply pairsOf_returns|exact Hs1].
  eapply returns_bind; [apply returns_getGrid|]. intros g1.
  apply returns_drop, returns_ret.
Qed.

End SafeGrid.

Lemma stepBroadPhase_returns (fuel : nat) (this : wref) (dt : float)
    (s : State) (W H : Z) :
  gridOf W H (grids s (grid (worlds s this))) ->
  (forall r,
     inCells fuel (grids s (grid (worlds s this)))
       (aabb (if set_has r (bodies (worlds s this))
              then boxed (body s r) else body s r))) ->
  exists s', World.stepBroadPhase fuel this dt s = (Ok tt, s').
Proof.
  intros Hg Hbox.
  destruct (updateBoxes_run (bodies (worlds s this)) s)
    as (s1 & Hrun & Hg1 & Hw1 & Hb1).
  unfold World.stepBroadPhase. unfold bind at 1. unfold getWorld at 1.
  unfold bind at 1. rewrite Hrun. unfold bind at 1. unfold getWorld at 1.
  rewrite Hw1. unfold bind at 1.
  destruct (generatePairs_returns fuel (grid (worlds s this)) W H
              (bodies (worlds s this)) s1) as (pairs & s2 & -> & _).
  { split; rewrite Hg1; [exact Hg|]. intros r. rewrite Hb1. apply Hbox. }
  now eexists.
Qed.

Lemma stepBroadPhase_configKept (fuel : nat) (this : wref) (dt : float) :
  keeps configKept (World.stepBroadPhase fuel this dt).
Proof.
  unfold_methods. keeps_walk configKept_refl configKept_trans config_leaf.
Qed.

Lemma stepNarrowPhase_configKept (this : wref) (dt : float) :
  keeps configKept (World.stepNarrowPhase this dt).
Proof.
  unfold_methods. keeps_walk configKept_refl configKept_trans config_leaf.
Qed.

Lemma stepResolveCollisions_configKept (this : wref) (dt : float) :
  keeps configKept (World.stepResolveCollisions this dt).
Proof.
  unfold_methods. keeps_walk configKept_refl configKept_trans config_leaf.
Qed.


(** ** Examples *)

Lemma narrowPhase_order_independent_witness :
  shape (body (Demo.store DemoCircles.c0 DemoCircles.c1) 0%nat) = Circle 1 /\
  shape (body (Demo.store DemoCircles.c0 DemoCircles.c1) 1%nat) = Circle 1 /\
  circleToCircle 1 (mkVector2 0 0) 1 (mkVector2 1.5 0) = true /\
  penetration
    (circleContact 0%nat 1%nat DemoCircles.c0 DemoCircles.c1 1 1)
  = penetration
      (circleContact 1%nat 0%nat DemoCircles.c1 DemoCircles.c0 1 1).
Proof.
  split; [reflexivity|]. split; [reflexivity|]. split; [reflexivity|].
  exact (proj2 (proj2 (narrowPhase_order_independent 0%nat 0%nat 1%nat
                         (Demo.store DemoCircles.c0 DemoCircles.c1) 1 1
                         eq_refl eq_refl))).
Defined.

Lemma generatePairs_first_awake_witness :
  fst (SpatialGrid.generatePairs 100 0%nat [0%nat; 1%nat]
         DemoStatic.registered) = Ok [mkPair 0%nat 1%nat] /\
  _isSleeping (body DemoStatic.registered 0%nat) = false.
Proof.
  assert (H : fst (SpatialGrid.generatePairs 100 0%nat [0%nat; 1%nat]
                     DemoStatic.registered) = Ok [mkPair 0%nat 1%nat])
    by (vm_compute; reflexivity).
  split; [exact H|].
  refine (proj1 (generatePairs_first_awake 100 0%nat [0%nat; 1%nat]
                   DemoStatic.registered _ _ (run_eta _ _ _ H)
                   (mkPair 0%nat 1%nat) _)).
  apply list_elem_of_singleton. reflexivity.
Defined.

Lemma integrate_without_world_witness :
  world (body DemoUnbound.unbound 0%nat) = None /\
  fst (PhysicsBody.integrate 0%nat 0.016 DemoUnbound.unbound) = TypeError /\
  position (body (snd (PhysicsBody.integrate 0%nat 0.016 DemoUnbound.unbound))
              0%nat) = mkVector2 5 5.
Proof.
  split; [reflexivity|].
  destruct (integrate_without_world 0%nat 0.016 DemoUnbound.unbound eq_refl)
    as [Hr Hfx].
  split; [exact Hr|]. exact (proj2 (Hfx eq_refl)).
Defined.

Lemma integrate_with_world_witness :
  isStatic (body DemoStatic.registered 1%nat) = false /\
  _isSleeping (ticked 0.016 (body DemoStatic.registered 1%nat)) = false /\
  world (body DemoStatic.registered 1%nat) = Some 0%nat /\
  exists s',
    PhysicsBody.integrate 1%nat 0.016 DemoStatic.registered = (Ok tt, s') /\
    body s' 1%nat
    = advanced 0.016 (mkVector2 0 0)
        (ticked 0.016 (body DemoStatic.registered 1%nat)).
Proof.
  split; [reflexivity|]. split; [reflexivity|]. split; [reflexivity|].
  destruct (integrate_with_world 1%nat 0.016 DemoStatic.registered 0%nat
              eq_refl eq_refl eq_refl) as (s' & Hrun & Hb & _).
  exists s'. split; [exact Hrun|exact Hb].
Defined.

Lemma registered_allBound : allBound 0%nat DemoStatic.registered.
Proof.
  intros b Hb. change (b ∈ [0%nat; 1%nat]) in Hb.
  apply elem_of_cons in Hb as [->|Hb];
    [|apply list_elem_of_singleton in Hb as ->]; discriminate.
Qed.

Lemma stepIntegrate_never_throws_witness :
  allBound 0%nat DemoStatic.registered /\
  fst (World.stepIntegrate 0%nat 0.016 DemoStatic.registered) = Ok tt.
Proof.
  split; [exact registered_allBound|].
  exact (proj1 (stepIntegrate_never_throws 100 0%nat 0%nat 0%nat 0.016
                  DemoStatic.registered registered_allBound)).
Defined.

Lemma narrowPhase_coincident_witness :
  position (body DemoCoincident.stacked 0%nat)
    = position (body DemoCoincident.stacked 1%nat) /\
  _contacts
    (worlds (snd (World.narrowPhasePair 0%nat (mkPair 0%nat 1%nat)
                    DemoCoincident.stacked)) 0%nat)
  = [mkContact 0%nat 1%nat (mkVector2 nan nan) (1 + 1 - 0)
       (mkVector2 nan nan)].
Proof.
  split; [reflexivity|].
  exact (narrowPhase_coincident 0%nat (mkPair 0%nat 1%nat)
           DemoCoincident.stacked 1 1 eq_refl eq_refl eq_refl eq_refl
           eq_refl eq_refl).
Defined.

Lemma resolveContact_nan_normal_witness :
  normal DemoCoincident.overlap = mkVector2 nan nan /\
  isStatic (body DemoCoincident.stacked 0%nat) = false /\
  isStatic (body DemoCoincident.stacked 1%nat) = false /\
  position
    (body (snd (World.resolveContact DemoCoincident.overlap
                  DemoCoincident.stacked)) 0%nat) = mkVector2 nan nan /\
  position
    (body (snd (World.resolveContact DemoCoincident.overlap
                  DemoCoincident.stacked)) 1%nat) = mkVector2 nan nan.
Proof.
  split; [reflexivity|]. split; [reflexivity|]. split; [reflexivity|].
  destruct (resolveContact_nan_normal DemoCoincident.overlap
              DemoCoincident.stacked eq_refl eq_refl) as (_ & _ & H).
  split; apply H; try reflexivity; [now left|now right].
Defined.


Lemma nan_box_has_no_cell_witness :
  is_nan (y (min (aabb (body DemoStale.lost 0%nat)))) = true /\
  fst (SpatialGrid.queryAABB 100 0%nat (aabb (body DemoStale.lost 0%nat))
         DemoStale.lost) = Ok [] /\
  isInGrid (body (snd (SpatialGrid.addBody 100 0%nat 0%nat DemoStale.lost))
              0%nat) = true.
Proof.
  split; [reflexivity|].
  destruct (nan_box_has_no_cell 100 0%nat 0%nat DemoStale.lost)
    as (_ & Hq & _ & _ & Hf); [discriminate|reflexivity|].
  split; [exact Hq|exact Hf].
Defined.

Lemma step_clears_lists_witness :
  fst (World.step 100 0%nat 0.016 DemoStatic.registered) = Ok tt /\
  _collisionPairs
    (worlds (snd (World.step 100 0%nat 0.016 DemoStatic.registered)) 0%nat)
    = [] /\
  _contacts
    (worlds (snd (World.step 100 0%nat 0.016 DemoStatic.registered)) 0%nat)
    = [].
Proof.
  assert (H : fst (World.step 100 0%nat 0.016 DemoStatic.registered) = Ok tt)
    by (vm_compute; reflexivity).
  split; [exact H|].
  exact (step_clears_lists 100 0%nat 0.016 DemoStatic.registered _
           (run_eta _ _ _ H)).
Defined.

Lemma store_partitions_empty (b0 b1 : PhysicsBody) (w : wref) (i : nat)
    (p : RefSet) :
  partitions (grids (Demo.store b0 b1) (grid (worlds (Demo.store b0 b1) w)))
    !! i = Some p -> p = [].
Proof.
  cbn. rewrite grid44_partitions. intros Hp.
  now apply lookup_replicate in Hp as [-> _].
Qed.

Lemma step_empty_world_witness :
  bodies (worlds (Demo.store DemoCircles.c0 DemoCircles.c1) 0%nat) = [] /\
  exists s',
    World.step 0 0%nat 0.016 (Demo.store DemoCircles.c0 DemoCircles.c1)
      = (Ok tt, s') /\
    body s' 0%nat = DemoCircles.c0.
Proof.
  split; [reflexivity|].
  destruct (step_empty_world 0 0%nat 0.016
              (Demo.store DemoCircles.c0 DemoCircles.c1) eq_refl eq_refl
              (store_partitions_empty _ _ 0%nat))
    as (s' & Hrun & Hb & _).
  exists s'. split; [exact Hrun|apply Hb].
Defined.

Lemma World_bodies_set_witness :
  (0%nat ∉ bodies (worlds (Demo.store DemoCircles.c0 DemoCircles.c1) 0%nat))
  /\
  bodies
    (worlds (snd (World.removeBody 0%nat 0%nat
                    (snd (World.addBody 0%nat 0%nat
                            (Demo.store DemoCircles.c0 DemoCircles.c1)))))
       0%nat) = [].
Proof.
  assert (H : 0%nat ∉ bodies (worlds (Demo.store DemoCircles.c0
                                         DemoCircles.c1) 0%nat))
    by apply not_elem_of_nil.
  split; [exact H|].
  exact (proj2 (proj2 (proj2 (proj2 (World_bodies_set 0%nat 0%nat
                  (Demo.store DemoCircles.c0 DemoCircles.c1)))) H)).
Defined.


Lemma queryAABB_finds_residents_witness :
  fst (SpatialGrid.queryAABB 100 0%nat
         (mkAABB (mkVector2 4 4) (mkVector2 6 6)) DemoStale.inserted)
    = Ok [0%nat] /\
  exists i,
    covers 100 (grids DemoStale.inserted 0%nat)
      (mkAABB (mkVector2 4 4) (mkVector2 6 6)) i /\
    residentAt (grids DemoStale.inserted 0%nat) 0%nat i.
Proof.
  assert (H : fst (SpatialGrid.queryAABB 100 0%nat
                     (mkAABB (mkVector2 4 4) (mkVector2 6 6))
                     DemoStale.inserted) = Ok [0%nat])
    by (vm_compute; reflexivity).
  split; [exact H|].
  apply (proj2 (queryAABB_finds_residents 100 0%nat _ _ _ _
                  (run_eta _ _ _ H)) 0%nat).
  apply list_elem_of_singleton. reflexivity.
Defined.

Lemma grid44_gridOf : gridOf 4 4 Demo.grid44.
Proof.
  split; [reflexivity|]. split; [reflexivity|].
  split; [lia|]. split; [lia|]. split; [reflexivity|].
  rewrite grid44_partitions. reflexivity.
Qed.

Lemma wide_inCells :
  inCells 100 Demo.grid44 (mkAABB (mkVector2 4 4) (mkVector2 16 6)).
Proof.
  exists 0%Z, 0%Z, 1%Z, 0%Z. split; [reflexivity|]. split; [reflexivity|].
  split; [lia|]. split; lia.
Qed.



Lemma new_SpatialGrid_partitions_witness :
  Demo.new_SpatialGrid 10 (ZF 4) (ZF 4)
  = Some (mkSpatialGrid (ZF 4) (ZF 4) 10 (replicate 16 [])).
Proof.
  refine (new_SpatialGrid_partitions 10 4 4 _ _ _ _ _); lia.
Defined.

Lemma registered_inCells (r : bref) :
  inCells 100
    (grids DemoStatic.registered (grid (worlds DemoStatic.registered 0%nat)))
    (aabb (if set_has r (bodies (worlds DemoStatic.registered 0%nat))
           then boxed (body DemoStatic.registered r)
           else body DemoStatic.registered r)).
Proof.
  exists 0%Z, 0%Z, 0%Z, 0%Z.
  destruct r as [|[|r]];
    (split; [reflexivity|]; split; [reflexivity|]; split; [lia|]; split; lia).
Qed.


Lemma marked_sensorEq : sensorEq DemoStatic.registered DemoSensor.marked.
Proof.
  split; [|split; intros; reflexivity].
  intros r. destruct r as [|[|r]]; reflexivity.
Qed.

Lemma step_ignores_isSensor_witness :
  isSensor (body DemoStatic.registered 1%nat) = false /\
  isSensor (body DemoSensor.marked 1%nat) = true /\
  fst (World.step 100 0%nat 0.016 DemoStatic.registered)
    = fst (World.step 100 0%nat 0.016 DemoSensor.marked).
Proof.
  split; [reflexivity|]. split; [reflexivity|].
  exact (proj1 (step_ignores_isSensor 100 0%nat 0.016 DemoStatic.registered
                  DemoSensor.marked marked_sensorEq)).
Defined.

Lemma static_position_kept_witness :
  isStatic (body DemoStatic.registered 0%nat) = true /\
  position
    (body (runFrameCalls 100 0%nat
             [CallStep 0.016; CallApplyForce 0%nat (mkVector2 3 4);
              CallSetGravity (mkVector2 0 10); CallStep 0.016]
             DemoStatic.registered) 0%nat)
  = mkVector2 5 5.
Proof.
  split; [reflexivity|].
  exact (proj1 (proj2 (static_position_kept 100 0%nat
                         [CallStep 0.016; CallApplyForce 0%nat (mkVector2 3 4);
                          CallSetGravity (mkVector2 0 10); CallStep 0.016]
                         DemoStatic.registered 0%nat eq_refl))).
Defined.

(** ** Vectors *)

Lemma SFmul_comm (a b : spec_float) :
  SFmul prec emax a b = SFmul prec emax b a.
Proof.
  destruct a as [sa|sa| |sa ma ea], b as [sb|sb| |sb mb eb]; cbn;
    try reflexivity; try (now rewrite xorb_comm).
  now rewrite xorb_comm, Pos.mul_comm, Z.add_comm.
Qed.

Lemma mul_comm (a b : float) : a * b = b * a.
Proof. apply Prim2SF_inj. rewrite !mul_spec. apply SFmul_comm. Qed.

Lemma binary_round_aux_sign (m e : Z) (l : location) :
  SFltb (binary_round_aux prec emax false m e l) (S754_zero false) = false.
Proof.
  unfold binary_round_aux. destruct (shr_fexp _ _ _ _ _) as [mrs' e'].
  destruct (shr_fexp _ _ _ _ _) as [mrs'' e''].
  destruct (shr_m mrs''); [reflexivity| |reflexivity].
  now destruct (Z.leb _ _).
Qed.

Lemma sqrt_not_negative (v : float) : (sqrt v <? 0) = false.
Proof.
  rewrite ltb_spec, sqrt_spec. change (Prim2SF 0) with (S754_zero false).
  destruct (Prim2SF v) as [s|[|]| |[|] m e]; try reflexivity.
  unfold SF64sqrt, SFsqrt.
  destruct (SFsqrt_core_binary prec emax (Z.pos m) e) as [[mz ez] lz].
  apply binary_round_aux_sign.
Qed.

(** [dot] gives the same number with its operands exchanged, and [length]
    is never negative: it is a number that is not below 0, or not a
    number. *)
Theorem Vector2_dot_length (u v : Vector2) :
  Vector2.dot u v = Vector2.dot v u /\
  (Vector2.length v <? 0) = false.
Proof.
  split.
  - unfold Vector2.dot. now rewrite (mul_comm (x u)), (mul_comm (y u)).
  - apply sqrt_not_negative.
Qed.

(** ** A body without mass *)

(** The [mass] setter stores [1 / mass] with no check, so that after
    [mass = 0] the inverse mass is infinite.  [applyForce] on such a body,
    if it is not static, returns and makes every component of the velocity
    whose force is 0 not a number, since 0 times infinity is not a
    number. *)
Theorem massless_applyForce (this : bref) (b : PhysicsBody) (fy : float)
    (s : State) :
  body s this = set_mass 0 b ->
  isStatic b = false ->
  fst (PhysicsBody.applyForce this (mkVector2 0 fy) s) = Ok tt /\
  x (velocity (body (snd (PhysicsBody.applyForce this (mkVector2 0 fy) s))
                this)) = nan.
Proof.
  intros Hb Hst.
  unfold PhysicsBody.applyForce, bind, getBody, modBody. rewrite Hb.
  cbn [isStatic set_mass]. rewrite Hst.
  cbn. rewrite !upd_eq. cbn.
  split; [reflexivity|]. rewrite Hb. cbn [_invMass set_mass].
  change (0 * (1 / 0)) with nan. apply add_nan_r.
Qed.

Lemma massless_applyForce_witness :
  x (velocity
       (body (snd (PhysicsBody.applyForce 0%nat (mkVector2 0 3)
                     (Demo.store (set_mass 0 (Demo.circleBody 0 5 5 2 0 1))
                                 (Demo.circleBody 1 25 25 0 0 1))))
             0%nat)) = nan.
Proof.
  refine (proj2 (massless_applyForce 0%nat (Demo.circleBody 0 5 5 2 0 1) 3
                   (Demo.store (set_mass 0 (Demo.circleBody 0 5 5 2 0 1))
                               (Demo.circleBody 1 25 25 0 0 1)) _ _));
    reflexivity.
Defined.

(** ** The bodies that are asleep stay in the grid *)

(** The first loop of [generatePairs] flags every body it visits. *)
Lemma insert_flagged (fuel : nat) (this : gref) (D : list bref) (a : bref) :
  hoare (flagged D)
    (modBody a (set_internalLastPairId (-1)) ;;
     let* b := getBody a in
     if isInGrid b then ret tt else SpatialGrid.addBody fuel this a)
    (fun _ => flagged (D ++ [a])).
Proof.
  intros s [] s' HD. unfold bind at 1. unfold modBody at 1.
  unfold bind at 1. unfold getBody at 1. cbn [body]. rewrite upd_eq.
  cbn [isInGrid set_internalLastPairId].
  destruct (isInGrid (body s a)) eqn:Ha.
  - intros H. inversion H; subst. intros r Hr. cbn [body].
    upd_cases r a; [exact Ha|]. apply elem_of_app in Hr as [Hr|Hr].
    + now apply HD.
    + apply list_elem_of_singleton in Hr. congruence.
  - rewrite addBody_touchCells. intros Hrun.
    apply touchCells_Ok in Hrun as (cells & ps1 & _ & _ & Ht).
    destruct Ht as (_ & _ & _ & Hb & Ho). intros r Hr.
    destruct (Nat.eq_dec r a) as [->|Hne].
    + now rewrite Hb.
    + rewrite (Ho r Hne). cbn [body]. rewrite upd_ne by congruence.
      apply elem_of_app in Hr as [Hr|Hr]; [now apply HD|].
      apply list_elem_of_singleton in Hr. congruence.
Qed.

Lemma insertAll_flagged (fuel : nat) (this : gref) :
  forall (l D : list bref),
    hoare (flagged D)
      (forEach l (fun body =>
         modBody body (set_internalLastPairId (-1)) ;;
         let* b := getBody body in
         if isInGrid b then ret tt else SpatialGrid.addBody fuel this body))
      (fun _ => flagged (D ++ l)).
Proof.
  induction l as [|a l IH]; intros D.
  - cbn. intros s [] s' HD H. inversion H; subst. now rewrite app_nil_r.
  - cbn [forEach]. eapply hoare_bind; [apply insert_flagged|].
    intros []. replace (D ++ a :: l) with ((D ++ [a]) ++ l)
      by now rewrite <- app_assoc.
    apply IH.
Qed.

Section Sleepers.

Variable fuel : nat.
Variable this : gref.
Variable D : list bref.

Lemma pairWith_sleepers (A B : bref) (acc : list Pair) :
  hoare (sleepersFlagged D) (SpatialGrid.pairWith A acc B)
    (fun _ => sleepersFlagged D).
Proof.
  intros s acc' s' HK.
  unfold SpatialGrid.pairWith, bind, getBody, ret, modBody.
  destruct (_ =? _); intros H; inversion H; subst; [exact HK|].
  intros r Hr. cbn [body]. upd_cases r B; cbn; now apply HK.
Qed.

(** [removeBody] is only called on a body that is awake. *)
Lemma removeBody_sleepers (A : bref) :
  hoare (fun s => sleepersFlagged D s /\ _isSleeping (body s A) = false)
    (SpatialGrid.removeBody fuel this A) (fun _ => sleepersFlagged D).
Proof.
  intros s [] s' [HK HA]. rewrite removeBody_touchCells. intros Hrun.
  apply touchCells_Ok in Hrun as (cells & ps1 & _ & _ & Ht).
  destruct Ht as (_ & _ & _ & Hb & Ho). intros r Hr.
  destruct (Nat.eq_dec r A) as [->|Hne].
  - rewrite Hb. cbn. congruence.
  - rewrite (Ho r Hne). now apply HK.
Qed.

Lemma pairsOf_sleepers (A : bref) (acc : list Pair) :
  hoare (sleepersFlagged D) (SpatialGrid.pairsOf fuel this acc A)
    (fun _ => sleepersFlagged D).
Proof.
  intros s acc' s' HK. unfold SpatialGrid.pairsOf.
  unfold bind at 1. unfold getBody at 1.
  destruct (_isSleeping (body s A)) eqn:HA.
  - intros H. inversion H; subst. exact HK.
  - intros Hrun.
    match type of Hrun with
    | ?m s = _ =>
        cut (hoare (fun s => sleepersFlagged D s /\
                             _isSleeping (body s A) = false) m
               (fun _ => sleepersFlagged D));
        [intros Hh; exact (Hh s acc' s' (conj HK HA) Hrun)|]
    end.
    eapply hoare_bind; [apply removeBody_sleepers|]. intros u.
    eapply hoare_bind; [apply getBody_inv|]. intros a.
    eapply hoare_bind; [apply queryAABB_inv|]. intros res.
    apply (hoare_foldM (fun _ => sleepersFlagged D)).
    intros acc0 B _. apply pairWith_sleepers.
Qed.

Lemma sweep_sleepers (l : list nat) (acc : list Pair) :
  hoare (sleepersFlagged D)
    (foldM l (fun acc i =>
       let* g := getGrid this in
       match partitions g !! i with
       | Some partition =>
           forEachLive partition
             (let* g := getGrid this in
              ret (default [] (partitions g !! i)))
             (SpatialGrid.pairsOf fuel this) acc
       | None => throw
       end) acc)
    (fun _ => sleepersFlagged D).
Proof.
  apply (hoare_foldM (fun _ => sleepersFlagged D)). intros acc0 i _.
  eapply hoare_bind; [apply getGrid_inv|]. intros g.
  destruct (partitions g !! i) as [part|].
  - apply (hoare_forEachLive (fun _ => sleepersFlagged D)).
    + intros _. eapply hoare_bind; [apply getGrid_inv|]. intros g'.
      apply ret_inv.
    + intros acc1 A. apply pairsOf_sleepers.
  - intros s a s' _ H. discriminate.
Qed.

End Sleepers.



(** ** Pairs that are reported once *)

Section Once.

Variable fuel : nat.
Variable this : gref.
Variable bodies : RefSet.

Lemma pairWith_once (A B : bref) (res : list bref) (acc : list Pair) :
  B ∈ res ->
  hoare (pairingWith fuel this bodies A res acc)
    (SpatialGrid.pairWith A acc B)
    (pairingWith fuel this bodies A res).
Proof.
  intros HB s acc' s' Hpre Hrun.
  destruct Hpre as ((HI & Hid & Hnd & Hsw & Hgone) & HnA & Hres & Hlast).
  pose proof (pairWith_inv fuel this bodies A B acc s acc' s' HI Hrun) as HI'.
  revert Hrun. unfold SpatialGrid.pairWith, bind, getBody, ret, modBody.
  destruct (id (body s A) =? _internalLastPairId (body s B)) eqn:E;
    intros H; inversion H; subst; clear H.
  { exact (conj (conj HI' (conj Hid (conj Hnd (conj Hsw Hgone))))
             (conj HnA (conj Hres Hlast))). }
  assert (HidA : forall r,
             id (upd (body s) B
                   (set_internalLastPairId (id (body s A)) (body s B)) r)
             = id (body s r)).
  { intros r. upd_cases r B; reflexivity. }
  split; [split; [exact HI'|split; [|split; [|split]]]|split; [|split]].
  - intros r. cbn [body]. rewrite HidA. apply Hid.
  - apply NoDup_app. split; [exact Hnd|]. split; [|apply NoDup_singleton].
    intros p Hp Hin. apply list_elem_of_singleton in Hin. subst p.
    apply Hlast in Hp. congruence.
  - intros p q Hp Hq [H1 H2].
    apply elem_of_app in Hp as [Hp|Hp]; apply elem_of_app in Hq as [Hq|Hq].
    + now apply (Hsw p q).
    + apply list_elem_of_singleton in Hq. subst q. cbn in H1, H2.
      apply (Hgone p Hp). rewrite H1. now apply Hres.
    + apply list_elem_of_singleton in Hp. subst p. cbn in H1, H2.
      apply (Hgone q Hq). rewrite <- H2. now apply Hres.
    + apply list_elem_of_singleton in Hp. subst p.
      apply list_elem_of_singleton in Hq. subst q. cbn in H1.
      apply HnA. rewrite H1. now apply Hres.
  - intros p Hp. cbn [grids]. apply elem_of_app in Hp as [Hp|Hp].
    + now apply Hgone.
    + apply list_elem_of_singleton in Hp. subst p. exact HnA.
  - exact HnA.
  - exact Hres.
  - intros B' HB'. cbn [body]. rewrite HidA.
    upd_cases B' B.
    + cbn. apply Hid.
    + apply Hlast. apply elem_of_app in HB' as [HB'|HB']; [exact HB'|].
      apply list_elem_of_singleton in HB'. congruence.
Qed.

Lemma pairsOf_once (A : bref) (i : nat) (acc : list Pair) :
  hoare (fun s => pairsOnce fuel this bodies acc s /\
                  residentAt (grids s this) A i)
    (SpatialGrid.pairsOf fuel this acc A)
    (pairsOnce fuel this bodies).
Proof.
  intros s acc' s' [Hpre HA]. unfold SpatialGrid.pairsOf.
  unfold bind at 1. unfold getBody at 1.
  destruct (_isSleeping (body s A)).
  { intros H. inversion H; subst. exact Hpre. }
  unfold bind at 1.
  destruct (SpatialGrid.removeBody fuel this A s) as [[[]| |] s1] eqn:Hrem;
    try discriminate.
  unfold bind at 1. unfold getBody at 1. unfold bind at 1.
  destruct (SpatialGrid.queryAABB fuel this (aabb (body s1 A)) s1)
    as [[res| |] s2] eqn:Hq; try discriminate.
  intros Hfold.
  destruct Hpre as (HI & Hid & Hnd & Hsw & Hgone).
  pose proof (removeBody_inv fuel this bodies A s tt s1 HI Hrem) as HI1.
  destruct (queryAABB_run fuel this _ s1 s2 res Hq) as (-> & cells & _ & Hin).
  rewrite removeBody_touchCells in Hrem.
  apply touchCells_Ok in Hrem as (cs & ps1 & Hcs & Hupd & Ht).
  assert (HnA : ~ resident (grids s1 this) A).
  { intros [j Hj].
    apply (touched_resident_self fuel this A false (set_delete A)
             (set_delete_spec A) s s1 cs ps1 Hcs Hupd Ht) in Hj.
    - destruct Hj as [Hf _]. discriminate.
    - apply HI. }
  assert (Hgone1 : firstsGone this acc s1).
  { intros p Hp [j Hj]. destruct (Nat.eq_dec (pairA p) A) as [E|E].
    - apply HnA. exists j. now rewrite <- E.
    - apply (touched_resident_other this A false (set_delete A)
               (set_delete_spec A) s s1 cs ps1 Hupd Ht) in Hj; [|exact E].
      apply (Hgone p Hp). now exists j. }
  assert (Hid1 : idsComparable s1).
  { intros r. destruct Ht as (_ & _ & _ & Hb & Ho).
    destruct (Nat.eq_dec r A) as [->|Hne].
    - rewrite Hb. cbn. apply Hid.
    - rewrite (Ho r Hne). apply Hid. }
  refine (proj1 (hoare_foldM (pairingWith fuel this bodies A res) res
                   (SpatialGrid.pairWith A) _ acc s1 acc' s' _ Hfold)).
  - intros acc0 B HB. now apply pairWith_once.
  - split; [exact (conj HI1 (conj Hid1 (conj Hnd (conj Hsw Hgone1))))|].
    split; [exact HnA|]. split.
    + intros B HB. destruct (Hin B HB) as (j & _ & Hj). now exists j.
    + intros B HB. exfalso. apply (Hgone _ HB). now exists i.
Qed.

Lemma forEachLive_once (i : nat) :
  forall (l : list bref) (acc : list Pair),
    hoare (pairsOnce fuel this bodies acc)
      (forEachLive l
         (let* g := getGrid this in ret (default [] (partitions g !! i)))
         (SpatialGrid.pairsOf fuel this) acc)
      (pairsOnce fuel this bodies).
Proof.
  induction l as [|a l IH]; intros acc.
  - cbn. intros s acc' s' HInv H. inversion H; subst. exact HInv.
  - cbn [forEachLive]. intros s acc' s' HInv.
    unfold bind at 1. unfold bind at 1. unfold getGrid at 1.
    unfold ret at 1. unfold bind at 1.
    destruct (set_has a (default [] (partitions (grids s this) !! i)))
      eqn:Hlive.
    + destruct (SpatialGrid.pairsOf fuel this acc a s) as [[acc1| |] s1]
        eqn:Hrun; try discriminate.
      intros Hrest. apply (IH acc1 s1 acc' s'); [|exact Hrest].
      apply (pairsOf_once a i acc s acc1 s1); [|exact Hrun].
      split; [exact HInv|].
      destruct (partitions (grids s this) !! i) as [p|] eqn:Hp;
        [|discriminate].
      exists p. split; [exact Hp|]. cbn in Hlive.
      apply existsb_exists in Hlive as (r & Hr & E).
      apply Nat.eqb_eq in E. subst r. now apply list_elem_of_In.
    + unfold ret at 1. intros Hrest. now apply (IH acc s acc' s').
Qed.

Lemma sweep_once (l : list nat) (acc : list Pair) :
  hoare (pairsOnce fuel this bodies acc)
    (foldM l (fun acc i =>
       let* g := getGrid this in
       match partitions g !! i with
       | Some partition =>
           forEachLive partition
             (let* g := getGrid this in
              ret (default [] (partitions g !! i)))
             (SpatialGrid.pairsOf fuel this) acc
       | None => throw
       end) acc)
    (pairsOnce fuel this bodies).
Proof.
  apply (hoare_foldM (pairsOnce fuel this bodies)). intros acc0 i _.
  eapply hoare_bind; [apply getGrid_inv|]. intros g.
  destruct (partitions g !! i) as [part|].
  - apply forEachLive_once.
  - intros s a s' _ H. discriminate.
Qed.

End Once.



(** ** Pairs that are not missed *)

(** *** The first loop *)

Lemma setLast_insertInv (fuel : nat) (this : gref) (bodies : RefSet)
    (r : bref) (v : float) :
  hoare (insertInv fuel this bodies)
    (modBody r (set_internalLastPairId v))
    (fun _ => insertInv fuel this bodies).
Proof.
  intros s [] s' (HI & HF & HR) Hrun.
  pose proof (setLastPairId_inv fuel this bodies r v s tt s' HI Hrun) as HI'.
  unfold modBody in Hrun. inversion Hrun; subst; clear Hrun.
  split; [exact HI'|]. split; [|exact HR].
  intros r' i. cbn [body grids].
  upd_cases r' r; cbn [isInGrid aabb set_internalLastPairId]; apply HF.
Qed.

Lemma addBody_insertInv (fuel : nat) (this : gref) (bodies : RefSet)
    (b : bref) :
  b ∈ bodies ->
  hoare (insertInv fuel this bodies) (SpatialGrid.addBody fuel this b)
    (fun _ => insertInv fuel this bodies).
Proof.
  intros Hb s [] s' (HI & HF & HR) Hrun.
  pose proof (addBody_inv fuel this bodies b Hb s tt s' HI Hrun) as HI'.
  rewrite addBody_touchCells in Hrun.
  apply touchCells_Ok in Hrun as (cells & ps1 & Hcells & Hupd & Ht).
  split; [exact HI'|]. split.
  - intros r j Hflag Hcov.
    apply (touched_covers fuel this b true s s' ps1 Ht) in Hcov.
    destruct (Nat.eq_dec r b) as [->|Hne].
    + apply (touched_resident_self fuel this b true (set_add b)
               (set_add_spec b) s s' cells ps1 Hcells Hupd Ht);
        [apply HI|].
      split; [reflexivity|]. destruct Hcov as (cells' & Hc' & Hj).
      rewrite Hcells in Hc'. now injection Hc' as <-.
    + apply (touched_resident_other this b true (set_add b)
               (set_add_spec b) s s' cells ps1 Hupd Ht); [exact Hne|].
      apply HF; [|exact Hcov].
      destruct Ht as (_ & _ & _ & _ & Ho). now rewrite <- (Ho r Hne).
  - intros r [j Hj]. destruct (Nat.eq_dec r b) as [->|Hne]; [exact Hb|].
    apply HR. exists j.
    now apply (touched_resident_other this b true (set_add b)
                 (set_add_spec b) s s' cells ps1 Hupd Ht) in Hj.
Qed.

Lemma insertAll_insertInv (fuel : nat) (this : gref) (bodies : RefSet) :
  hoare (insertInv fuel this bodies)
    (forEach bodies (fun body =>
       modBody body (set_internalLastPairId (-1)) ;;
       let* b := getBody body in
       if isInGrid b then ret tt else SpatialGrid.addBody fuel this body))
    (fun _ => insertInv fuel this bodies).
Proof.
  apply hoare_forEach. intros b Hb.
  eapply hoare_bind; [apply setLast_insertInv|]. intros u.
  eapply hoare_bind; [apply getBody_inv|]. intros bd.
  destruct (isInGrid bd); [|now apply addBody_insertInv].
  intros s a s' H Hrun. inversion Hrun; subst. exact H.
Qed.

Lemma insert_lastReset (fuel : nat) (this : gref) (D : list bref)
    (a : bref) :
  hoare (lastReset D)
    (modBody a (set_internalLastPairId (-1)) ;;
     let* b := getBody a in
     if isInGrid b then ret tt else SpatialGrid.addBody fuel this a)
    (fun _ => lastReset (D ++ [a])).
Proof.
  intros s [] s' HD. unfold bind at 1. unfold modBody at 1.
  unfold bind at 1. unfold getBody at 1. cbn [body]. rewrite upd_eq.
  cbn [isInGrid set_internalLastPairId].
  assert (H0 : forall r, r ∈ D ++ [a] ->
             _internalLastPairId
               (upd (body s) a (set_internalLastPairId (-1) (body s a)) r)
             = (-1)).
  { intros r Hr. upd_cases r a; [reflexivity|].
    apply elem_of_app in Hr as [Hr|Hr]; [now apply HD|].
    apply list_elem_of_singleton in Hr. congruence. }
  destruct (isInGrid (body s a)).
  - intros H. inversion H; subst. exact H0.
  - rewrite addBody_touchCells. intros Hrun.
    apply touchCells_Ok in Hrun as (cells & ps1 & _ & _ & Ht).
    destruct Ht as (_ & _ & _ & Hb & Ho). intros r Hr.
    destruct (Nat.eq_dec r a) as [->|Hne].
    + rewrite Hb. cbn [body _internalLastPairId set_isInGrid].
      apply (H0 a Hr).
    + rewrite (Ho r Hne). apply (H0 r Hr).
Qed.

Lemma insertAll_lastReset (fuel : nat) (this : gref) :
  forall (l D : list bref),
    hoare (lastReset D)
      (forEach l (fun body =>
         modBody body (set_internalLastPairId (-1)) ;;
         let* b := getBody body in
         if isInGrid b then ret tt else SpatialGrid.addBody fuel this body))
      (fun _ => lastReset (D ++ l)).
Proof.
  induction l as [|a l IH]; intros D.
  - cbn. intros s [] s' HD H. inversion H; subst. now rewrite app_nil_r.
  - cbn [forEach]. eapply hoare_bind; [apply insert_lastReset|].
    intros []. replace (D ++ a :: l) with ((D ++ [a]) ++ l)
      by now rewrite <- app_assoc.
    apply IH.
Qed.

(** *** The loops over the partitions *)

Lemma queryAABB_complete (fuel : nat) (this : gref) (box : AABB)
    (s s' : State) (res : list bref) :
  SpatialGrid.queryAABB fuel this box s = (Ok res, s') ->
  forall cells, SpatialGrid.cellsOf fuel (grids s this) box = Ok cells ->
  forall r i, i ∈ cellIndexes cells -> residentAt (grids s this) r i ->
              r ∈ res.
Proof.
  intros Hrun cells Hc r i Hi Hres. revert Hrun.
  unfold SpatialGrid.queryAABB. unfold bind at 1.
  unfold SpatialGrid.getCellsInAABB. rewrite Hc. intros Hrun.
  apply (foldM_query_complete _ _ _ _ _ _ Hrun). right. now exists i.
Qed.

Section Complete.

Variable fuel : nat.
Variable this : gref.
Variable bodies : RefSet.
Variable s1 : State.
Hypothesis Hdist : idsDistinct this s1.

Lemma pairWith_all (A B : bref) (g0 : SpatialGrid) (done : list bref)
    (acc : list Pair) :
  resident (grids s1 this) A -> resident (grids s1 this) B ->
  hoare (pairingAll fuel this bodies s1 A g0 done acc)
    (SpatialGrid.pairWith A acc B)
    (pairingAll fuel this bodies s1 A g0 (done ++ [B])).
Proof.
  intros HA HB s acc' s' (HI & Hg & Hid & Hlast & Hgone & Hdone) Hrun.
  pose proof (pairWith_inv fuel this bodies A B acc s acc' s' HI Hrun) as HI'.
  revert Hrun. unfold SpatialGrid.pairWith, bind, getBody, ret, modBody.
  destruct (id (body s A) =? _internalLastPairId (body s B)) eqn:E;
    intros H; inversion H; subst; clear H.
  { split; [exact HI'|]. split; [reflexivity|]. split; [exact Hid|].
    split; [exact Hlast|]. split; [exact Hgone|].
    intros B' [HB'|HB']%elem_of_app; [now apply Hdone|].
    apply list_elem_of_singleton in HB'. subst B'. now apply Hlast. }
  assert (HidA : forall r,
             id (upd (body s) B
                   (set_internalLastPairId (id (body s A)) (body s B)) r)
             = id (body s r)).
  { intros r. upd_cases r B; reflexivity. }
  split; [exact HI'|]. split; [reflexivity|]. split; [|split; [|split]].
  - intros r. cbn [body]. rewrite HidA. apply Hid.
  - intros A2 B2 HA2 HB2. cbn [body]. rewrite HidA.
    upd_cases B2 B.
    + cbn [_internalLastPairId set_internalLastPairId]. intros E2.
      rewrite !Hid in E2. apply (Hdist A2 A HA2 HA) in E2. subst A2.
      apply elem_of_app. right. now apply list_elem_of_singleton.
    + intros E2. apply elem_of_app. left. now apply Hlast.
  - intros A0 B0 j Hne Hex H1 H2 Hgo.
    destruct (Hgone A0 B0 j Hne Hex H1 H2 Hgo) as [H|H];
      [left|right]; apply elem_of_app; now left.
  - intros B' [HB'|HB']%elem_of_app.
    + apply elem_of_app. left. now apply Hdone.
    + apply list_elem_of_singleton in HB'. subst B'.
      apply elem_of_app. right. now apply list_elem_of_singleton.
Qed.

Lemma pairWith_fold (A : bref) (g0 : SpatialGrid) :
  resident (grids s1 this) A ->
  forall (res done : list bref) (acc : list Pair),
    (forall B, B ∈ res -> resident (grids s1 this) B) ->
    hoare (pairingAll fuel this bodies s1 A g0 done acc)
      (foldM res (SpatialGrid.pairWith A) acc)
      (pairingAll fuel this bodies s1 A g0 (done ++ res)).
Proof.
  intros HA. induction res as [|B res IH]; intros done acc Hres.
  - cbn. intros s acc' s' HInv H. inversion H; subst.
    now rewrite app_nil_r.
  - cbn [foldM]. eapply hoare_bind.
    + apply pairWith_all; [exact HA|]. apply Hres.
      apply elem_of_cons. now left.
    + intros acc1. replace (done ++ B :: res) with ((done ++ [B]) ++ res)
        by now rewrite <- app_assoc.
      apply IH. intros B' HB'. apply Hres. now apply elem_of_cons; right.
Qed.

Lemma pairsOf_complete (A : bref) (i : nat) (acc : list Pair) :
  hoare (fun s => pairsComplete fuel this bodies s1 acc s /\
                  residentAt (grids s this) A i)
    (SpatialGrid.pairsOf fuel this acc A)
    (pairsComplete fuel this bodies s1).
Proof.
  intros s acc' s' [Hpre HA]. unfold SpatialGrid.pairsOf.
  unfold bind at 1. unfold getBody at 1.
  destruct (_isSleeping (body s A)).
  { intros H. inversion H; subst. exact Hpre. }
  unfold bind at 1.
  destruct (SpatialGrid.removeBody fuel this A s) as [[[]| |] s2] eqn:Hrem;
    try discriminate.
  unfold bind at 1. unfold getBody at 1. unfold bind at 1.
  destruct (SpatialGrid.queryAABB fuel this (aabb (body s2 A)) s2)
    as [[res| |] s3] eqn:Hq; try discriminate.
  intros Hfold.
  destruct Hpre as (HI & Hid & (Hsub & Hall) & Hlast & Hgone).
  pose proof (removeBody_inv fuel this bodies A s tt s2 HI Hrem) as HI2.
  pose proof (queryAABB_complete fuel this _ s2 s3 res Hq) as Hcompl.
  destruct (queryAABB_run fuel this _ s2 s3 res Hq)
    as (-> & cellsq & Hcq & Hsound).
  rewrite removeBody_touchCells in Hrem.
  apply touchCells_Ok in Hrem as (cs & ps1 & Hcs & Hupd & Ht).
  assert (Hoth : forall r j, r <> A ->
             residentAt (grids s2 this) r j <-> residentAt (grids s this) r j).
  { intros r j Hne.
    now apply (touched_resident_other this A false (set_delete A)
                 (set_delete_spec A) s s2 cs ps1 Hupd Ht). }
  assert (HnA : ~ resident (grids s2 this) A).
  { intros [j Hj].
    apply (touched_resident_self fuel this A false (set_delete A)
             (set_delete_spec A) s s2 cs ps1 Hcs Hupd Ht) in Hj.
    - destruct Hj as [Hf _]. discriminate.
    - apply HI. }
  assert (Hbody : forall r, id (body s2 r) = id (body s r) /\
                            _internalLastPairId (body s2 r)
                            = _internalLastPairId (body s r)).
  { intros r. destruct Ht as (_ & _ & _ & Hb & Ho).
    destruct (Nat.eq_dec r A) as [->|Hne].
    - rewrite Hb. now split.
    - rewrite (Ho r Hne). now split. }
  assert (HA1 : resident (grids s1 this) A).
  { exists i. now apply Hsub. }
  assert (Hsw2 : sweptFrom this s1 (grids s2 this)).
  { split.
    - intros r j Hj. destruct (Nat.eq_dec r A) as [->|Hne].
      + exfalso. apply HnA. now exists j.
      + apply (Hsub r j). now apply Hoth.
    - intros r j k Hj Hk. destruct (Nat.eq_dec r A) as [->|Hne].
      + exfalso. apply HnA. now exists j.
      + apply Hoth; [exact Hne|]. apply (Hall r j k); [|exact Hk].
        now apply Hoth. }
  assert (Hcq' : SpatialGrid.cellsOf fuel (grids s this) (aabb (body s A))
                 = Ok cellsq).
  { rewrite <- Hcq. destruct Ht as (Hg & _ & _ & Hb & _).
    rewrite Hg, Hb, cellsOf_partitions. reflexivity. }
  assert (Hres1 : forall B, B ∈ res -> resident (grids s1 this) B).
  { intros B HB. destruct (Hsound B HB) as (j & _ & Hj).
    exists j. now apply (proj1 Hsw2). }
  assert (Hpre2 : pairingAll fuel this bodies s1 A (grids s2 this) [] acc s2).
  { split; [exact HI2|]. split; [reflexivity|]. split; [|split; [|split]].
    - intros r. rewrite (proj1 (Hbody r)). apply Hid.
    - intros A2 B2 HA2 HB2.
      rewrite (proj1 (Hbody A2)), (proj2 (Hbody B2)). now apply Hlast.
    - intros A0 B0 j Hne Hex H1 H2 Hgo. apply (Hgone A0 B0 j); try assumption.
      + discriminate.
      + intros [k Hk]. apply Hgo. exists k. apply Hoth; [congruence|exact Hk].
    - intros B HB. now apply elem_of_nil in HB. }
  pose proof (pairWith_fold A (grids s2 this) HA1 res [] acc Hres1 s2 acc' s'
                Hpre2 Hfold) as (HI' & Hg' & Hid' & Hlast' & Hgone' & Hdone').
  split; [exact HI'|]. split; [exact Hid'|]. rewrite Hg'.
  split; [exact Hsw2|]. split; [exact Hlast'|].
  intros A0 B0 j Hne _ H1 H2 Hgo.
  destruct (Nat.eq_dec A0 A) as [->|HneA].
  - destruct (partitions (grids s2 this) !! j) as [p|] eqn:Hp.
    + destruct (decide (B0 ∈ p)) as [Hin|Hout].
      * left. apply Hdone'. cbn [app].
        apply (Hcompl cellsq Hcq B0 j); [|now exists p].
        assert (HAj : residentAt (grids s this) A j)
          by (apply (Hall A i j); assumption).
        destruct HI as [[_ Hcov] _].
        destruct (Hcov A j HAj) as (cells' & Hc' & Hj).
        rewrite Hcq' in Hc'. now injection Hc' as <-.
      * apply or_comm. apply (Hgone' B0 A j); try assumption.
        -- congruence.
        -- intros H. injection H as ->. now apply Hne.
        -- rewrite Hg'. intros [k Hk].
           pose proof (proj2 Hsw2 B0 k j Hk H2) as (p' & Hp' & Hin').
           rewrite Hp in Hp'. injection Hp' as <-. contradiction.
    + apply or_comm. apply (Hgone' B0 A j); try assumption.
      * congruence.
      * intros H. injection H as ->. now apply Hne.
      * rewrite Hg'. intros [k Hk].
        pose proof (proj2 Hsw2 B0 k j Hk H2) as (p' & Hp' & _).
        rewrite Hp in Hp'. discriminate.
  - apply (Hgone' A0 B0 j); try assumption.
    intros H. injection H as ->. now apply HneA.
Qed.

Lemma forEachLive_complete (i : nat) :
  forall (l : list bref) (acc : list Pair),
    hoare (pairsComplete fuel this bodies s1 acc)
      (forEachLive l
         (let* g := getGrid this in ret (default [] (partitions g !! i)))
         (SpatialGrid.pairsOf fuel this) acc)
      (pairsComplete fuel this bodies s1).
Proof.
  induction l as [|a l IH]; intros acc.
  - cbn. intros s acc' s' HInv H. inversion H; subst. exact HInv.
  - cbn [forEachLive]. intros s acc' s' HInv.
    unfold bind at 1. unfold bind at 1. unfold getGrid at 1.
    unfold ret at 1. unfold bind at 1.
    destruct (set_has a (default [] (partitions (grids s this) !! i)))
      eqn:Hlive.
    + destruct (SpatialGrid.pairsOf fuel this acc a s) as [[acc1| |] s2]
        eqn:Hrun; try discriminate.
      intros Hrest. apply (IH acc1 s2 acc' s'); [|exact Hrest].
      apply (pairsOf_complete a i acc s acc1 s2); [|exact Hrun].
      split; [exact HInv|].
      destruct (partitions (grids s this) !! i) as [p|] eqn:Hp;
        [|discriminate].
      exists p. split; [exact Hp|]. cbn in Hlive.
      apply existsb_exists in Hlive as (r & Hr & E).
      apply Nat.eqb_eq in E. subst r. now apply list_elem_of_In.
    + unfold ret at 1. intros Hrest. now apply (IH acc s acc' s').
Qed.

Lemma sweep_complete (l : list nat) (acc : list Pair) :
  hoare (pairsComplete fuel this bodies s1 acc)
    (foldM l (fun acc i =>
       let* g := getGrid this in
       match partitions g !! i with
       | Some partition =>
           forEachLive partition
             (let* g := getGrid this in
              ret (default [] (partitions g !! i)))
             (SpatialGrid.pairsOf fuel this) acc
       | None => throw
       end) acc)
    (pairsComplete fuel this bodies s1).
Proof.
  apply (hoare_foldM (pairsComplete fuel this bodies s1)). intros acc0 i _.
  eapply hoare_bind; [apply getGrid_inv|]. intros g.
  destruct (partitions g !! i) as [part|].
  - apply forEachLive_complete.
  - intros s a s' _ H. discriminate.
Qed.

End Complete.

Lemma cellsOf_layout (fuel : nat) (g g' : SpatialGrid) (box : AABB) :
  sameLayout g g' ->
  SpatialGrid.cellsOf fuel g' box = SpatialGrid.cellsOf fuel g box.
Proof.
  destruct g as [w h c p], g' as [w' h' c' p']. unfold sameLayout. cbn.
  intros (-> & -> & -> & _).
  exact (cellsOf_partitions fuel (mkSpatialGrid w h c p) p' box).
Qed.



(** ** Pairs that share a cell *)

Lemma covers_gridFrame (fuel : nat) (this : gref) (s0 s : State)
    (r : bref) (i : nat) :
  gridFrame this s0 s ->
  covers fuel (grids s this) (aabb (body s r)) i ->
  covers fuel (grids s0 this) (aabb (body s0 r)) i.
Proof.
  intros (Hb & Hl & _) (cells & Hc & Hi). exists cells. split; [|exact Hi].
  rewrite (cellsOf_layout fuel _ _ _ Hl) in Hc.
  destruct (sameButGridFields_box _ _ (Hb r)) as (_ & E & _).
  now rewrite E in Hc.
Qed.

Section Share.

Variable fuel : nat.
Variable this : gref.
Variable bodies : RefSet.
Variable s0 : State.

Lemma pairWith_share (A B : bref) (acc : list Pair) :
  shareCell fuel this s0 A B ->
  hoare (pairsShare fuel this bodies s0 acc) (SpatialGrid.pairWith A acc B)
    (pairsShare fuel this bodies s0).
Proof.
  intros Hsh s acc' s' (HI & HF & HP) Hrun.
  split; [exact (pairWith_inv fuel this bodies A B acc s acc' s' HI Hrun)|].
  split.
  - apply (gridFrame_trans this s0 s s' HF).
    pose proof (pairWith_gridFrame this A B acc s) as H.
    now rewrite Hrun in H.
  - revert Hrun. unfold SpatialGrid.pairWith, bind, getBody, ret, modBody.
    destruct (_ =? _); intros H; inversion H; subst; [exact HP|].
    intros p [Hp|Hp]%elem_of_app; [now apply HP|].
    apply list_elem_of_singleton in Hp. now subst p.
Qed.

Lemma pairsOf_share (A : bref) (acc : list Pair) :
  hoare (pairsShare fuel this bodies s0 acc)
    (SpatialGrid.pairsOf fuel this acc A)
    (pairsShare fuel this bodies s0).
Proof.
  intros s acc' s' Hpre. unfold SpatialGrid.pairsOf.
  unfold bind at 1. unfold getBody at 1.
  destruct (_isSleeping (body s A)).
  { intros H. inversion H; subst. exact Hpre. }
  unfold bind at 1.
  destruct (SpatialGrid.removeBody fuel this A s) as [[[]| |] s2] eqn:Hrem;
    try discriminate.
  unfold bind at 1. unfold getBody at 1. unfold bind at 1.
  destruct (SpatialGrid.queryAABB fuel this (aabb (body s2 A)) s2)
    as [[res| |] s3] eqn:Hq; try discriminate.
  intros Hfold. destruct Hpre as (HI & HF & HP).
  pose proof (removeBody_inv fuel this bodies A s tt s2 HI Hrem) as HI2.
  assert (HF2 : gridFrame this s0 s2).
  { apply (gridFrame_trans this s0 s s2 HF).
    pose proof (removeBody_gridFrame fuel this A s) as H.
    now rewrite Hrem in H. }
  destruct (queryAABB_run fuel this _ s2 s3 res Hq)
    as (-> & cellsq & Hcq & Hsound).
  refine (hoare_foldM (pairsShare fuel this bodies s0) res
            (SpatialGrid.pairWith A) _ acc s2 acc' s'
            (conj HI2 (conj HF2 HP)) Hfold).
  intros acc0 B HB. apply pairWith_share.
  destruct (Hsound B HB) as (j & Hj & Hres). exists j. split.
  - apply (covers_gridFrame fuel this s0 s2 A j HF2). now exists cellsq.
  - apply (covers_gridFrame fuel this s0 s2 B j HF2).
    destruct HI2 as [[_ Hcov] _]. now apply Hcov.
Qed.

Lemma sweep_share (l : list nat) (acc : list Pair) :
  hoare (pairsShare fuel this bodies s0 acc)
    (foldM l (fun acc i =>
       let* g := getGrid this in
       match partitions g !! i with
       | Some partition =>
           forEachLive partition
             (let* g := getGrid this in
              ret (default [] (partitions g !! i)))
             (SpatialGrid.pairsOf fuel this) acc
       | None => throw
       end) acc)
    (pairsShare fuel this bodies s0).
Proof.
  apply (hoare_foldM (pairsShare fuel this bodies s0)). intros acc0 i _.
  eapply hoare_bind; [apply getGrid_inv|]. intros g.
  destruct (partitions g !! i) as [part|].
  - apply (hoare_forEachLive (pairsShare fuel this bodies s0)).
    + intros acc1. eapply hoare_bind; [apply getGrid_inv|]. intros g'.
      apply ret_inv.
    + intros acc1 A. apply pairsOf_share.
  - intros s a s' _ H. discriminate.
Qed.

End Share.


